(** * ristretto255: field primitives, square-root ratio, Elligator map,
      hash-to-group and element equality.

    Shallow embedding of [internal/edwards25519/fe.go] and of the
    [ristretto255] package file defining [Element], over the prime field
    with 2^255 - 19 elements. *)

From Stdlib Require Import String Ascii.
From Stdlib Require Import ZArith Lia List Bool Znumtheory Zpow_facts.
From Stdlib.Strings Require Import Byte.
From Stdlib Require Import Zmod Zstar.
From Stdlib Require Import Field ZArithRing.
Import ListNotations.
Local Open Scope Z_scope.

(** * Primality certificates

    The field modulus is shown prime by a chain of Pocklington
    certificates bottoming out in trial division. *)


Module Primality.

Fixpoint no_divisor_from (fuel : nat) (d n : Z) : bool :=
  match fuel with
  | O => true
  | S k => negb (n mod d =? 0) && no_divisor_from k (d + 1) n
  end.

(** Trial division by 2 .. 2+k-1, with (2+k)^2 > n. *)
Definition small_prime (k : nat) (n : Z) : bool :=
  (1 <? n) && no_divisor_from k 2 n && (n <? (2 + Z.of_nat k) * (2 + Z.of_nat k)).

Lemma no_divisor_from_sound fuel : forall d n,
  0 < d -> no_divisor_from fuel d n = true ->
  forall e, d <= e < d + Z.of_nat fuel -> ~ (e | n).
Proof.
  induction fuel as [|k IH]; intros d n Hd H e He; [lia|].
  cbn [no_divisor_from] in H. apply andb_true_iff in H as [H1 H2].
  destruct (Z.eq_dec e d) as [->|Hne].
  - intros Hdiv. apply Z.mod0_divide in Hdiv.
    rewrite Hdiv in H1. discriminate.
  - apply (IH (d + 1) n); [lia|exact H2|lia].
Qed.

Lemma small_prime_sound k n : small_prime k n = true -> Z.prime n.
Proof.
  unfold small_prime. intros H.
  apply andb_true_iff in H as [H H3]. apply andb_true_iff in H as [H1 H2].
  apply Z.ltb_lt in H1, H3.
  split; [exact H1|]. intros m Hm [c Hc].
  assert (Hc1 : 1 < c) by nia.
  assert (Hcn : c < n) by nia.
  pose proof (no_divisor_from_sound k 2 n ltac:(lia) H2) as ND.
  destruct (Z_lt_le_dec m (2 + Z.of_nat k)) as [Hlt|Hge].
  - apply (ND m); [lia|]. exists c; exact Hc.
  - destruct (Z_lt_le_dec c (2 + Z.of_nat k)) as [Hlt'|Hge'].
    + apply (ND c); [lia|]. exists m; lia.
    + nia.
Qed.

(** Every integer above 1 has a prime divisor. *)
Lemma divisor_search n b : 0 <= b ->
  (forall d, 1 < d < b -> ~ (d | n)) \/ (exists d, 1 < d < b /\ (d | n)).
Proof.
  intros Hb. pattern b. apply natlike_ind; [left; intros; lia| |exact Hb].
  intros x Hx [IH|IH].
  - destruct (Z_lt_le_dec 1 x) as [H1|H1].
    + destruct (Z.eq_dec (n mod x) 0) as [E|E].
      * right. exists x. split; [lia|]. apply Z.mod_divide; [lia|exact E].
      * left. intros d Hd. destruct (Z.eq_dec d x) as [->|Hne].
        -- intros Hdiv. apply E. now apply Z.mod0_divide.
        -- apply IH; lia.
    + left. intros d Hd. lia.
  - right. destruct IH as [d [Hd Hdiv]]. exists d. split; [lia|exact Hdiv].
Qed.

Lemma prime_divisor_exists n : 1 < n -> exists r, Z.prime r /\ (r | n).
Proof.
  intros Hn.
  assert (H : forall m, 0 <= m -> forall k, 1 < k <= m -> exists r, Z.prime r /\ (r | k)).
  { intros m Hm. pattern m. apply natlike_ind; [intros; lia| |exact Hm].
    intros x Hx IH k Hk.
    destruct (divisor_search k k ltac:(lia)) as [Hp|[d [Hd Hdiv]]].
    - exists k. split; [split; [lia|exact Hp]|apply Z.divide_refl].
    - destruct (IH d ltac:(lia)) as [r [Hr Hrd]].
      exists r. split; [exact Hr|]. eapply Z.divide_trans; eauto. }
  apply (H n); lia.
Qed.

Definition prod_list (qs : list Z) : Z := fold_right Z.mul 1 qs.

Definition pock_check (N a : Z) (qs : list Z) : bool :=
  (Zpow_mod a (N - 1) N =? 1)
  && forallb (fun q => ((N - 1) mod q =? 0)
                       && (Z.gcd (Zpow_mod a ((N - 1) / q) N - 1) N =? 1)) qs
  && (N <? (prod_list qs + 1) * (prod_list qs + 1)).

Section Pocklington.
Variables (N a r : Z).
Hypothesis HN : 1 < N.
Hypothesis Ha : a ^ (N - 1) mod N = 1.
Hypothesis Hr : Z.prime r.
Hypothesis HrN : (r | N).

Let x : Zmod r := Zmod.of_Z r a.

Lemma pock_pow_r e : 0 <= e -> a ^ e mod N = 1 -> a ^ e mod r = 1.
Proof.
  intros He H. pose proof (Z.prime_ge_2 _ Hr).
  rewrite <- (Z.mod_mod_divide _ N r HrN), H. apply Z.mod_small. lia.
Qed.

Lemma pock_unit : Z.coprime (Zmod.unsigned x) r.
Proof.
  pose proof (Z.prime_ge_2 _ Hr) as H2.
  assert (Hnz : a mod r <> 0).
  { intros E. pose proof (pock_pow_r (N - 1) ltac:(lia) Ha) as H1.
    replace (N - 1) with (Z.succ (N - 2)) in H1 by lia.
    rewrite Z.pow_succ_r in H1 by lia.
    rewrite Z.mul_mod, E, Z.mul_0_l, Z.mod_0_l in H1 by lia. discriminate. }
  unfold x. rewrite Zmod.unsigned_of_Z.
  apply Z.coprime_mod_l_iff. symmetry. apply Z.coprime_prime_l; [exact Hr|].
  intros Hd. apply Hnz. now apply Z.mod0_divide.
Qed.

Let xs : Zstar r := Zstar.of_Zmod x.

Lemma pock_star_pow e : 0 <= e -> a ^ e mod r = 1 -> Zstar.pow xs e = Zstar.one.
Proof.
  intros He H. apply Zstar.to_Zmod_inj.
  rewrite Zstar.to_Zmod_pow, Zstar.to_Zmod_1. unfold xs.
  rewrite Zstar.to_Zmod_of_Zmod by exact pock_unit.
  unfold x. rewrite <- Zmod.of_Z_pow by exact He.
  unfold Zmod.one. apply Zmod.of_Z_inj. rewrite H.
  pose proof (Z.prime_ge_2 _ Hr). symmetry. apply Z.mod_small. lia.
Qed.

Lemma pock_star_pow_inv e : 0 <= e -> Zstar.pow xs e = Zstar.one -> a ^ e mod r = 1.
Proof.
  intros He H. apply (f_equal Zstar.to_Zmod) in H.
  rewrite Zstar.to_Zmod_pow, Zstar.to_Zmod_1 in H. unfold xs in H.
  rewrite Zstar.to_Zmod_of_Zmod in H by exact pock_unit.
  unfold x in H. rewrite <- Zmod.of_Z_pow in H by exact He.
  unfold Zmod.one in H. apply Zmod.of_Z_inj in H. rewrite H.
  pose proof (Z.prime_ge_2 _ Hr). apply Z.mod_small. lia.
Qed.

Lemma pock_gcd_pow : Zstar.pow xs (Z.gcd (N - 1) (r - 1)) = Zstar.one.
Proof.
  destruct (Z.gcd_bezout (N - 1) (r - 1) _ eq_refl) as [u [v E]].
  rewrite <- E, Zstar.pow_add_r.
  rewrite (Z.mul_comm u), (Z.mul_comm v), !Zstar.pow_mul_r.
  assert (H1 : Zstar.pow xs (N - 1) = Zstar.one).
  { apply pock_star_pow; [lia|]. apply pock_pow_r; [lia|exact Ha]. }
  rewrite H1.
  replace (r - 1) with (Z.pred r) by lia.
  rewrite Zstar.fermat by exact Hr.
  now rewrite !Zstar.pow_1_l, Zstar.mul_1_l.
Qed.

Lemma pock_factor q :
  Z.prime q -> (q | N - 1) ->
  Z.gcd (a ^ ((N - 1) / q) mod N - 1) N = 1 ->
  (q | r - 1).
Proof.
  intros Hq HqN Hg. pose proof (Z.prime_ge_2 _ Hr) as Hr2.
  pose proof (Z.prime_ge_2 _ Hq) as Hq2.
  set (g := Z.gcd (N - 1) (r - 1)).
  destruct (Z.BoolSpec_divide_nz q g ltac:(lia)) as [Hd|Hnd].
  - eapply Z.divide_trans; [exact Hd|apply Z.gcd_divide_r].
  - exfalso.
    assert (Hcop : Z.gcd g q = 1).
    { rewrite Z.gcd_comm. now apply Z.coprime_prime_l. }
    set (R := (N - 1) / q).
    assert (HR : N - 1 = q * R).
    { unfold R. destruct HqN as [c Hc]. rewrite Hc, Z.div_mul by lia. lia. }
    assert (HR0 : 0 <= R) by nia.
    assert (HgR : (g | R)).
    { apply (Z.gauss g q R); [|exact Hcop]. rewrite <- HR. apply Z.gcd_divide_l. }
    destruct HgR as [t Ht].
    assert (Hpow : Zstar.pow xs R = Zstar.one).
    { rewrite Ht, (Z.mul_comm t), Zstar.pow_mul_r.
      unfold g. rewrite pock_gcd_pow. apply Zstar.pow_1_l. }
    apply pock_star_pow_inv in Hpow; [|exact HR0].
    assert (Hdiv : (r | a ^ R mod N - 1)).
    { apply Z.mod_divide; [lia|].
      rewrite <- Zminus_mod_idemp_l, (Z.mod_mod_divide _ N r HrN), Hpow. reflexivity. }
    assert (Hr1 : (r | 1)).
    { fold R in Hg. rewrite <- Hg. now apply Z.gcd_greatest. }
    apply Z.divide_1_r_nonneg in Hr1; lia.
Qed.
End Pocklington.

Lemma prod_list_divide qs n :
  Forall Z.prime qs -> NoDup qs -> Forall (fun q => (q | n)) qs -> (prod_list qs | n).
Proof.
  induction qs as [|q qs IH]; intros Hp Hnd Hdiv; cbn [prod_list fold_right].
  - apply Z.divide_1_l.
  - inversion Hp as [|? ? Hq Hp']; inversion Hnd as [|? ? Hnin Hnd'];
      inversion Hdiv as [|? ? Hqn Hdiv']; subst.
    specialize (IH Hp' Hnd' Hdiv'). fold (prod_list qs) in *.
    assert (Hcop : Z.gcd (prod_list qs) q = 1).
    { clear IH Hdiv' Hnd' Hdiv Hnd Hp. induction qs as [|q' qs IHq]; cbn [prod_list fold_right].
      - apply Z.gcd_1_l.
      - inversion Hp' as [|? ? Hq' Hp'']; subst. fold (prod_list qs).
        apply Z.coprime_mul_l.
        + unfold Z.coprime. rewrite Z.gcd_comm. apply Z.coprime_prime_l; [exact Hq|].
          intros Hd. apply Z.divide_prime_prime in Hd; [|exact Hq|exact Hq'].
          apply Hnin. left. lia.
        + apply IHq; [exact Hp''|]. intros Hin. apply Hnin. now right. }
    destruct Hqn as [c Hc]. subst n.
    rewrite Z.mul_comm. apply Z.mul_divide_mono_r.
    apply (Z.gauss _ q c); [|exact Hcop]. now rewrite Z.mul_comm.
Qed.

Theorem pocklington N a qs :
  Forall Z.prime qs -> NoDup qs -> pock_check N a qs = true -> Z.prime N.
Proof.
  intros Hp Hnd Hc. unfold pock_check in Hc.
  apply andb_true_iff in Hc as [Hc H3]. apply andb_true_iff in Hc as [H1 H2].
  apply Z.ltb_lt in H3. apply Z.eqb_eq in H1.
  assert (HN : 1 < N).
  { destruct (Z_lt_le_dec 1 N) as [H|H]; [exact H|exfalso].
    destruct N as [|N|N]; cbn in H1; try discriminate.
    assert (Z.pos N = 1) as E by lia. rewrite E in H1. cbn in H1.
    rewrite Zpow_mod_correct in H1 by lia. rewrite Z.mod_1_r in H1. discriminate. }
  rewrite Zpow_mod_correct in H1 by lia.
  assert (HF : forall r, Z.prime r -> (r | N) -> prod_list qs + 1 <= r).
  { intros r Hr HrN.
    assert (Hdiv : (prod_list qs | r - 1)).
    { apply prod_list_divide; [exact Hp|exact Hnd|].
      rewrite Forall_forall. intros q Hin.
      rewrite forallb_forall in H2. specialize (H2 q Hin).
      apply andb_true_iff in H2 as [Hq1 Hq2].
      apply Z.eqb_eq in Hq1, Hq2. rewrite Zpow_mod_correct in Hq2 by lia.
      rewrite Forall_forall in Hp. pose proof (Z.prime_ge_2 _ (Hp q Hin)).
      apply (pock_factor N a r HN H1 Hr HrN q (Hp q Hin)); [|exact Hq2].
      apply Z.mod_divide; [lia|exact Hq1]. }
    pose proof (Z.prime_ge_2 _ Hr).
    apply Z.divide_pos_le in Hdiv; lia. }
  assert (HFpos : 0 < prod_list qs).
  { clear -Hp. induction Hp as [|q qs Hq _ IH]; cbn; [lia|].
    pose proof (Z.prime_ge_2 _ Hq). fold (prod_list qs). nia. }
  split; [exact HN|]. intros n Hn [c Hc].
  assert (Hc1 : 1 < c < N) by nia.
  destruct (Z_lt_le_dec n c) as [Hlt|Hge].
  - destruct (prime_divisor_exists n ltac:(lia)) as [r [Hr Hrn]].
    assert (HrN : (r | N)) by (rewrite Hc; now apply Z.divide_mul_r).
    specialize (HF r Hr HrN). apply Z.divide_pos_le in Hrn; [|lia]. nia.
  - destruct (prime_divisor_exists c ltac:(lia)) as [r [Hr Hrn]].
    assert (HrN : (r | N)) by (rewrite Hc; now apply Z.divide_mul_l).
    specialize (HF r Hr HrN). apply Z.divide_pos_le in Hrn; [|lia]. nia.
Qed.

End Primality.

(** * The field modulus *)

Definition p : Z := 2 ^ 255 - 19.

Module Curve25519Prime.
Import Primality.

Ltac small_prime_tac k := apply (small_prime_sound k); vm_compute; reflexivity.
Ltac nodup_tac := repeat (apply NoDup_cons || apply NoDup_nil); cbn; intuition discriminate.
Ltac pock_tac a qs :=
  apply (pocklington _ a qs);
  [ repeat (apply Forall_cons || apply Forall_nil)
  | nodup_tac
  | vm_compute; reflexivity ].

Lemma prime_127 : Z.prime 127. Proof. small_prime_tac 10%nat. Qed.
Lemma prime_4153 : Z.prime 4153. Proof. small_prime_tac 63%nat. Qed.
Lemma prime_430751 : Z.prime 430751. Proof. small_prime_tac 655%nat. Qed.
Lemma prime_569003 : Z.prime 569003. Proof. small_prime_tac 753%nat. Qed.
Lemma prime_8574133 : Z.prime 8574133. Proof. small_prime_tac 2927%nat. Qed.

Lemma prime_2773320623 : Z.prime 2773320623.
Proof. pock_tac 2 [569003]; exact prime_569003. Qed.

Lemma prime_72106336199 : Z.prime 72106336199.
Proof. pock_tac 2 [2773320623]; exact prime_2773320623. Qed.

Lemma prime_1919519569386763 : Z.prime 1919519569386763.
Proof. pock_tac 2 [8574133; 127]; [exact prime_8574133|exact prime_127]. Qed.

Lemma prime_31757755568855353 : Z.prime 31757755568855353.
Proof. pock_tac 2 [430751; 4153]; [exact prime_430751|exact prime_4153]. Qed.

Lemma prime_75445702479781427272750846543864801 :
  Z.prime 75445702479781427272750846543864801.
Proof.
  pock_tac 2 [1919519569386763; 72106336199];
    [exact prime_1919519569386763|exact prime_72106336199].
Qed.

Lemma prime_q1 :
  Z.prime 74058212732561358302231226437062788676166966415465897661863160754340907.
Proof.
  pock_tac 2 [75445702479781427272750846543864801; 31757755568855353];
    [exact prime_75445702479781427272750846543864801|exact prime_31757755568855353].
Qed.

Theorem prime_p : Z.prime p.
Proof.
  pock_tac 2 [74058212732561358302231226437062788676166966415465897661863160754340907];
    exact prime_q1.
Qed.
End Curve25519Prime.

#[global] Existing Instance Curve25519Prime.prime_p.

(** The prime field with 2^255 - 19 elements. *)
Abbreviation F := (Zmod p).

Lemma p_pos : 2 <= p.
Proof. unfold p. lia. Qed.

(** * Bytes and little-endian encodings *)

Definition byte_val (b : byte) : Z := Z.of_N (Byte.to_N b).

Definition byte_of (z : Z) : byte :=
  match Byte.of_N (Z.to_N (z mod 256)) with
  | Some b => b
  | None => x00
  end.

(** The [n]-byte little-endian encoding of [z]. *)
Fixpoint le_bytes (n : nat) (z : Z) : list byte :=
  match n with
  | O => []
  | S k => byte_of z :: le_bytes k (z / 256)
  end.

(** The integer a byte string denotes, least significant byte first. *)
Fixpoint le_int (bs : list byte) : Z :=
  match bs with
  | [] => 0
  | b :: rest => byte_val b + 256 * le_int rest
  end.

(** Go's [copy(dst, src)]: overwrites the first [min (len dst) (len src)]
    bytes of [dst]. *)
Definition copy (dst src : list byte) : list byte :=
  firstn (length dst) src ++ skipn (length src) dst.

(** * crypto/subtle (Go standard library) *)

Definition wrap32 (x : Z) : Z := x mod 2 ^ 32.
Definition wrap64 (x : Z) : Z := x mod 2 ^ 64.

(** [func ConstantTimeByteEq(x, y uint8) int
      { return int((uint32(x^y) - 1) >> 31) }] *)
Definition ConstantTimeByteEq (x y : Z) : Z :=
  Z.shiftr (wrap32 (wrap32 (Z.lxor x y) - 1)) 31.

(** The loop [for i := 0; i < len(x); i++ { v |= x[i] ^ y[i] }]. *)
Fixpoint xor_accumulate (v : Z) (x y : list byte) : Z :=
  match x, y with
  | a :: x', b :: y' =>
      xor_accumulate (Z.lor v (Z.lxor (byte_val a) (byte_val b))) x' y'
  | _, _ => v
  end.

Definition ConstantTimeCompare (x y : list byte) : Z :=
  if negb (Nat.eqb (length x) (length y)) then 0
  else ConstantTimeByteEq (xor_accumulate 0 x y) 0.

(** * Decimal literals *)

Definition digit_value (c : ascii) : Z := Z.of_N (N_of_ascii c) - 48.

Definition decimal_value (s : string) : Z :=
  fold_left (fun acc c => 10 * acc + digit_value c) (list_ascii_of_string s) 0.

(** ** Facts about bytes *)

Lemma byte_val_range b : 0 <= byte_val b < 256.
Proof. unfold byte_val. pose proof (Byte.to_N_bounded b). lia. Qed.

Lemma byte_val_inj a b : byte_val a = byte_val b -> a = b.
Proof.
  unfold byte_val. intros H. apply N2Z.inj in H.
  pose proof (Byte.of_to_N a) as Ha. pose proof (Byte.of_to_N b) as Hb.
  rewrite H in Ha. congruence.
Qed.

Lemma byte_val_of z : byte_val (byte_of z) = z mod 256.
Proof.
  unfold byte_of, byte_val.
  pose proof (Z.mod_pos_bound z 256 ltac:(lia)) as Hr.
  destruct (Byte.of_N (Z.to_N (z mod 256))) as [b|] eqn:E.
  - apply Byte.to_of_N in E. rewrite E. lia.
  - pose proof (Byte.to_of_N_option_map (Z.to_N (z mod 256))) as H.
    rewrite E in H. cbn in H.
    destruct (N.leb_spec (Z.to_N (z mod 256)) 255); [discriminate|lia].
Qed.

Lemma le_bytes_length n : forall z, length (le_bytes n z) = n.
Proof. induction n; intros z; cbn; [reflexivity|now rewrite IHn]. Qed.

Lemma le_int_le_bytes n : forall z,
  0 <= z < 256 ^ Z.of_nat n -> le_int (le_bytes n z) = z.
Proof.
  induction n as [|n IH]; intros z Hz.
  - cbn in *. lia.
  - cbn [le_bytes le_int]. rewrite byte_val_of.
    rewrite Nat2Z.inj_succ, Z.pow_succ_r in Hz by lia.
    rewrite IH.
    + pose proof (Z.div_mod z 256 ltac:(lia)). lia.
    + split; [apply Z.div_pos; lia|apply Z.div_lt_upper_bound; lia].
Qed.

Lemma le_bytes_inj n a b :
  0 <= a < 256 ^ Z.of_nat n -> 0 <= b < 256 ^ Z.of_nat n ->
  le_bytes n a = le_bytes n b -> a = b.
Proof.
  intros Ha Hb H. rewrite <- (le_int_le_bytes n a Ha), <- (le_int_le_bytes n b Hb).
  now rewrite H.
Qed.

(** ** Facts about the constant-time comparison *)

Lemma byte_bits_bound a b :
  0 <= a < 256 -> 0 <= b < 256 ->
  0 <= Z.lor a b < 256 /\ 0 <= Z.lxor a b < 256.
Proof.
  intros Ha Hb.
  assert (H0 : 0 <= Z.lor a b) by (apply Z.lor_nonneg; lia).
  assert (H1 : 0 <= Z.lxor a b) by (apply Z.lxor_nonneg; lia).
  assert (La : a = 0 \/ Z.log2 a < 8).
  { destruct (Z.eq_dec a 0); [now left|right]. apply Z.log2_lt_pow2; lia. }
  assert (Lb : b = 0 \/ Z.log2 b < 8).
  { destruct (Z.eq_dec b 0); [now left|right]. apply Z.log2_lt_pow2; lia. }
  assert (La' : Z.log2 a < 8) by (destruct La as [->|]; [cbn|]; lia).
  assert (Lb' : Z.log2 b < 8) by (destruct Lb as [->|]; [cbn|]; lia).
  split; split; try assumption.
  - destruct (Z.eq_dec (Z.lor a b) 0) as [->|Hn]; [lia|].
    change 256 with (2 ^ 8).
    apply Z.log2_lt_pow2; [lia|]. rewrite Z.log2_lor by lia. lia.
  - destruct (Z.eq_dec (Z.lxor a b) 0) as [->|Hn]; [lia|].
    change 256 with (2 ^ 8).
    apply Z.log2_lt_pow2; [lia|].
    pose proof (Z.log2_lxor a b ltac:(lia) ltac:(lia)). lia.
Qed.

Lemma ConstantTimeByteEq_zero v :
  0 <= v < 256 -> ConstantTimeByteEq v 0 = if v =? 0 then 1 else 0.
Proof.
  intros Hv. unfold ConstantTimeByteEq, wrap32. rewrite Z.lxor_0_r.
  rewrite (Z.mod_small v) by lia. rewrite Z.shiftr_div_pow2 by lia.
  destruct (Z.eqb_spec v 0) as [->|Hn].
  - reflexivity.
  - rewrite (Z.mod_small (v - 1)) by lia. apply Z.div_small. lia.
Qed.

Lemma xor_accumulate_spec x : forall y v,
  0 <= v < 256 -> length x = length y ->
  0 <= xor_accumulate v x y < 256 /\
  (xor_accumulate v x y = 0 <-> v = 0 /\ x = y).
Proof.
  induction x as [|a x IH]; intros [|b y] v Hv Hlen; cbn in Hlen; try discriminate.
  - cbn. intuition.
  - cbn [xor_accumulate].
    pose proof (byte_val_range a) as Ha. pose proof (byte_val_range b) as Hb.
    destruct (byte_bits_bound _ _ Ha Hb) as [_ Hx].
    destruct (byte_bits_bound _ _ Hv Hx) as [Ho _].
    destruct (IH y _ Ho ltac:(lia)) as [R E]. split; [exact R|].
    rewrite E, Z.lor_eq_0_iff, Z.lxor_eq_0_iff. split.
    + intros [[Hv0 Hab] Hxy]. apply byte_val_inj in Hab. now subst.
    + intros [Hv0 Hxy]. inversion Hxy; subst. auto.
Qed.

Lemma ConstantTimeCompare_spec x y :
  ConstantTimeCompare x y = if list_eq_dec Byte.byte_eq_dec x y then 1 else 0.
Proof.
  unfold ConstantTimeCompare.
  destruct (Nat.eqb_spec (length x) (length y)) as [Hlen|Hlen]; cbn [negb].
  - destruct (xor_accumulate_spec x y 0 ltac:(lia) Hlen) as [R E].
    rewrite ConstantTimeByteEq_zero by exact R.
    destruct (list_eq_dec Byte.byte_eq_dec x y) as [Heq|Hne];
      destruct (Z.eqb_spec (xor_accumulate 0 x y) 0) as [H0|H0]; try reflexivity.
    + exfalso. apply H0. apply E. auto.
    + exfalso. apply Hne. now apply E.
  - destruct (list_eq_dec Byte.byte_eq_dec x y) as [Heq|Hne]; [|reflexivity].
    subst. contradiction.
Qed.

(** * Data model *)

(** [radix51.FieldElement]: five unsigned 64-bit limbs in radix 2^51. *)
Record FieldElement : Type := mkFE {
  limb0 : Z; limb1 : Z; limb2 : Z; limb3 : Z; limb4 : Z
}.

Definition uint64 (x : Z) : Prop := 0 <= x < 2 ^ 64.

Definition fe_uint64 (a : FieldElement) : Prop :=
  uint64 (limb0 a) /\ uint64 (limb1 a) /\ uint64 (limb2 a) /\
  uint64 (limb3 a) /\ uint64 (limb4 a).

(** The field value a limb vector denotes. *)
Definition feval (a : FieldElement) : F :=
  Zmod.of_Z p (limb0 a + 2 ^ 51 * limb1 a + 2 ^ 102 * limb2 a
               + 2 ^ 153 * limb3 a + 2 ^ 204 * limb4 a).

(** [group.ExtendedGroupElement]: extended coordinates (X, Y, Z, T). *)
Record ExtendedGroupElement : Type := mkGE {
  geX : FieldElement; geY : FieldElement; geZ : FieldElement; geT : FieldElement
}.

(** [type Element struct { r group.ExtendedGroupElement }] *)
Record Element : Type := mkElement { r : ExtendedGroupElement }.

(** Outcome of a call that may panic. *)
Inductive outcome : Type :=
| Returned
| Panicked (msg : string).

(** * External kernels *)

(** Modelled from the spec: the field-arithmetic kernel ([radix51]: addition,
    subtraction, multiplication, squaring, negation, unit construction,
    fixed-width byte encode and decode, and the decimal constructor
    [fieldElementFromDecimal]) and the group-law kernel ([group]: the curve
    parameter [D] and extended-coordinate point addition) are not part of the
    source files; they are taken as an interface.  A Go procedure writing its
    result through an output pointer is a function returning that result;
    the kernel procedures are alias-safe, so a call whose output overlaps an
    input reads the input's old value. *)
Class Kernel : Type := {
  (** the bounded representation the kernel accepts and returns *)
  reduced : FieldElement -> Prop;
  FeOne : FieldElement;
  FeAdd : FieldElement -> FieldElement -> FieldElement;
  FeSub : FieldElement -> FieldElement -> FieldElement;
  FeNeg : FieldElement -> FieldElement;
  FeMul : FieldElement -> FieldElement -> FieldElement;
  FeSquare : FieldElement -> FieldElement;
  FeToBytes : FieldElement -> list byte;
  FeFromBytes : list byte -> FieldElement;
  fieldElementFromDecimal : string -> FieldElement;
  D : FieldElement;
  GeAdd : ExtendedGroupElement -> ExtendedGroupElement -> ExtendedGroupElement
}.

(** The curve parameter d = -121665/121666 of edwards25519. *)
Definition curve_d : Z :=
  37095705934669439343138083508754565189542113879843219016388785533085940283555.

(** Modelled from the spec: what the core needs of the field kernel
    (spec section 6): every operation is correct on field values and
    returns the bounded representation; [FeToBytes] is the canonical
    32-byte little-endian encoding; [FeFromBytes] inverts it on canonical
    encodings. *)
Class KernelLaws (K : Kernel) : Prop := {
  reduced_uint64 : forall a, reduced a -> fe_uint64 a;
  FeOne_ok : reduced FeOne /\ feval FeOne = Zmod.one;
  FeAdd_ok : forall a b, reduced a -> reduced b ->
    reduced (FeAdd a b) /\ feval (FeAdd a b) = Zmod.add (feval a) (feval b);
  FeSub_ok : forall a b, reduced a -> reduced b ->
    reduced (FeSub a b) /\ feval (FeSub a b) = Zmod.sub (feval a) (feval b);
  FeNeg_ok : forall a, reduced a ->
    reduced (FeNeg a) /\ feval (FeNeg a) = Zmod.opp (feval a);
  FeMul_ok : forall a b, reduced a -> reduced b ->
    reduced (FeMul a b) /\ feval (FeMul a b) = Zmod.mul (feval a) (feval b);
  FeSquare_ok : forall a, reduced a ->
    reduced (FeSquare a) /\ feval (FeSquare a) = Zmod.mul (feval a) (feval a);
  FeToBytes_ok : forall a, reduced a ->
    FeToBytes a = le_bytes 32 (Zmod.unsigned (feval a));
  FeFromBytes_ok : forall bs, length bs = 32%nat ->
    reduced (FeFromBytes bs) /\
    (le_int bs < p -> feval (FeFromBytes bs) = Zmod.of_Z p (le_int bs));
  fieldElementFromDecimal_ok : forall s,
    reduced (fieldElementFromDecimal s) /\
    feval (fieldElementFromDecimal s) = Zmod.of_Z p (decimal_value s);
  D_ok : reduced D /\ feval D = Zmod.of_Z p curve_d
}.

(** * internal/edwards25519/fe.go *)

Section Source.
Context {K : Kernel}.

(** [SQRT_M1] is declared outside the source files; the [ristretto255]
    package declares the same constant as [sqrtM1]. *)
Definition sqrtM1 : FieldElement := fieldElementFromDecimal
  "19681161376707505956807079304988542015446066515923890162744021073123829784752".

Definition SQRT_M1 : FieldElement := sqrtM1.

(** FeEqual returns 1 if a and b are equal, and 0 otherwise. *)
Definition FeEqual (a b : FieldElement) : Z :=
  let sa := FeToBytes a in
  let sb := FeToBytes b in
  ConstantTimeCompare sa sb.

(** [b := uint64(cond) * 0xffffffffffffffff] *)
Definition cond_mask (cond : Z) : Z := wrap64 (wrap64 cond * 0xffffffffffffffff).

(** [(b & v) | (^b & u)] on one limb. *)
Definition select_limb (b v u : Z) : Z :=
  Z.lor (Z.land b v) (Z.land (Z.lxor b 0xffffffffffffffff) u).

(** FeSelect sets out to v if cond == 1, and to u if cond == 0. *)
Definition FeSelect (v u : FieldElement) (cond : Z) : FieldElement :=
  let b := cond_mask cond in
  mkFE (select_limb b (limb0 v) (limb0 u))
       (select_limb b (limb1 v) (limb1 u))
       (select_limb b (limb2 v) (limb2 u))
       (select_limb b (limb3 v) (limb3 u))
       (select_limb b (limb4 v) (limb4 u)).

(** [u[i] ^= b & (u[i] ^ neg[i])] on one limb. *)
Definition cond_neg_limb (b u neg : Z) : Z := Z.lxor u (Z.land b (Z.lxor u neg)).

(** FeCondNeg sets u to -u if cond == 1, and to u if cond == 0. *)
Definition FeCondNeg (u : FieldElement) (cond : Z) : FieldElement :=
  let neg := FeNeg u in
  let b := cond_mask cond in
  mkFE (cond_neg_limb b (limb0 u) (limb0 neg))
       (cond_neg_limb b (limb1 u) (limb1 neg))
       (cond_neg_limb b (limb2 u) (limb2 neg))
       (cond_neg_limb b (limb3 u) (limb3 neg))
       (cond_neg_limb b (limb4 u) (limb4 neg)).

(** FeIsNegative returns 1 if u is negative, and 0 otherwise:
    [int(b[0] & 1)]. *)
Definition FeIsNegative (u : FieldElement) : Z :=
  let b := FeToBytes u in
  Z.land (byte_val (nth 0 b x00)) 1.

(** FeAbs sets out to |u|. *)
Definition FeAbs (u : FieldElement) : FieldElement :=
  let neg := FeNeg u in
  FeSelect neg u (FeIsNegative u).

(** The objects fePow22523 reads and writes: its temporaries [t0], [t1],
    [t2], and the objects of its caller.  The pointer parameters [out] and
    [z] each designate an object of the caller, and may designate the same
    one, as in the call [fePow22523(uv7, uv7)] of FeSqrtRatio. *)
Inductive obj : Type := Ot0 | Ot1 | Ot2 | Oarg0 | Oarg1.

Record frame : Type := mkFrame {
  mem_t0 : FieldElement;
  mem_t1 : FieldElement;
  mem_t2 : FieldElement;
  mem_arg0 : FieldElement;
  mem_arg1 : FieldElement
}.

Definition load (o : obj) (m : frame) : FieldElement :=
  match o with
  | Ot0 => mem_t0 m
  | Ot1 => mem_t1 m
  | Ot2 => mem_t2 m
  | Oarg0 => mem_arg0 m
  | Oarg1 => mem_arg1 m
  end.

Definition store (o : obj) (x : FieldElement) (m : frame) : frame :=
  match o with
  | Ot0 => mkFrame x (mem_t1 m) (mem_t2 m) (mem_arg0 m) (mem_arg1 m)
  | Ot1 => mkFrame (mem_t0 m) x (mem_t2 m) (mem_arg0 m) (mem_arg1 m)
  | Ot2 => mkFrame (mem_t0 m) (mem_t1 m) x (mem_arg0 m) (mem_arg1 m)
  | Oarg0 => mkFrame (mem_t0 m) (mem_t1 m) (mem_t2 m) x (mem_arg1 m)
  | Oarg1 => mkFrame (mem_t0 m) (mem_t1 m) (mem_t2 m) (mem_arg0 m) x
  end.

(** Kernel calls made by the exponentiation routine, in program order,
    each with the objects its pointer arguments designate. *)
Inductive kcall : Type :=
| CallSquare (dst src : obj)
| CallMul (dst a b : obj).

(** A statement: it updates the objects and makes kernel calls. *)
Definition Stmt : Type := frame -> frame * list kcall.

Definition skip : Stmt := fun m => (m, []).

Definition seq (c1 c2 : Stmt) : Stmt := fun m =>
  let '(m1, l1) := c1 m in
  let '(m2, l2) := c2 m1 in
  (m2, l1 ++ l2).

Notation "c1 ;; c2" := (seq c1 c2) (at level 61, right associativity).

(** [FeSquare(dst, src)] *)
Definition square (dst src : obj) : Stmt := fun m =>
  (store dst (FeSquare (load src m)) m, [CallSquare dst src]).

(** [FeMul(dst, a, b)] *)
Definition mul (dst a b : obj) : Stmt := fun m =>
  (store dst (FeMul (load a m) (load b m)) m, [CallMul dst a b]).

(** [for ...; i < n; i++ { body }], entered with the counter at [i]. *)
Fixpoint for_loop (fuel : nat) (i n : Z) (body : Stmt) : Stmt :=
  match fuel with
  | O => skip
  | S fuel' => fun m =>
      if i <? n then (body ;; for_loop fuel' (i + 1) n body) m else skip m
  end.

(** [for i = 1; i < n; i++ { body }] *)
Definition for_from_1 (n : Z) (body : Stmt) : Stmt :=
  for_loop (Z.to_nat n) 1 n body.

(** [var t0, t1, t2 FieldElement]: the temporaries start as zero values. *)
Definition declare_temporaries : Stmt := fun m =>
  let zero := mkFE 0 0 0 0 0 in
  (store Ot2 zero (store Ot1 zero (store Ot0 zero m)), []).

(** fePow22523 is from x/crypto/ed25519/internal/edwards25519. *)
Definition fePow22523_call (out z : obj) : Stmt :=
  declare_temporaries ;;
  square Ot0 z ;;
  for_from_1 1 (square Ot0 Ot0) ;;
  square Ot1 Ot0 ;;
  for_from_1 2 (square Ot1 Ot1) ;;
  mul Ot1 z Ot1 ;;
  mul Ot0 Ot0 Ot1 ;;
  square Ot0 Ot0 ;;
  for_from_1 1 (square Ot0 Ot0) ;;
  mul Ot0 Ot1 Ot0 ;;
  square Ot1 Ot0 ;;
  for_from_1 5 (square Ot1 Ot1) ;;
  mul Ot0 Ot1 Ot0 ;;
  square Ot1 Ot0 ;;
  for_from_1 10 (square Ot1 Ot1) ;;
  mul Ot1 Ot1 Ot0 ;;
  square Ot2 Ot1 ;;
  for_from_1 20 (square Ot2 Ot2) ;;
  mul Ot1 Ot2 Ot1 ;;
  square Ot1 Ot1 ;;
  for_from_1 10 (square Ot1 Ot1) ;;
  mul Ot0 Ot1 Ot0 ;;
  square Ot1 Ot0 ;;
  for_from_1 50 (square Ot1 Ot1) ;;
  mul Ot1 Ot1 Ot0 ;;
  square Ot2 Ot1 ;;
  for_from_1 100 (square Ot2 Ot2) ;;
  mul Ot1 Ot2 Ot1 ;;
  square Ot1 Ot1 ;;
  for_from_1 50 (square Ot1 Ot1) ;;
  mul Ot0 Ot1 Ot0 ;;
  square Ot0 Ot0 ;;
  for_from_1 2 (square Ot0 Ot0) ;;
  mul out Ot0 z.

(** The call [fePow22523(x, x)] on an object holding [z], as FeSqrtRatio
    makes it: what it leaves in that object, and the kernel calls made. *)
Definition fePow22523_logged (z : FieldElement) : FieldElement * list kcall :=
  let zero := mkFE 0 0 0 0 0 in
  let '(m, calls) := fePow22523_call Oarg0 Oarg0 (mkFrame zero zero zero z zero) in
  (load Oarg0 m, calls).

Definition fePow22523 (z : FieldElement) : FieldElement :=
  fst (fePow22523_logged z).

(** FeSqrtRatio, with the temporaries [a], [b], [c] of the source and the
    pointers [v3], [v7], [uv3], [uv7], [check], [uneg], [r_prime], [r]
    resolved to the temporary each one aliases. *)
Definition FeSqrtRatio (u v : FieldElement) : Z * FieldElement :=
  let a := FeSquare v in                 (* v3 = &a : v^2 *)
  let a := FeMul a v in                  (* v^3 *)
  let b := FeSquare a in                 (* v7 = &b : v^6 *)
  let b := FeMul b v in                  (* v^7 *)
  let a := FeMul u a in                  (* uv3 = v3 : u * v^3 *)
  let b := FeMul u b in                  (* uv7 = v7 : u * v^7 *)
  let b := fePow22523 b in               (* (u * v^7) ^ ((p - 5) / 8) *)
  let c := FeMul a b in                  (* r = &c *)
  let a := FeMul c c in                  (* check = &a : r^2 *)
  let a := FeMul a v in                  (* v * r^2 *)
  let b := FeNeg u in                    (* uneg = &b *)
  let correct_sign_sqrt := FeEqual a u in
  let flipped_sign_sqrt := FeEqual a b in
  let b := FeMul b SQRT_M1 in
  let flipped_sign_sqrt_i := FeEqual a b in
  let a := FeMul c SQRT_M1 in            (* r_prime = &a *)
  let c := FeSelect a c (Z.lor flipped_sign_sqrt flipped_sign_sqrt_i) in
  let c := FeAbs c in
  let was_square := Z.lor correct_sign_sqrt flipped_sign_sqrt in
  (was_square, c).

End Source.

(** * Package ristretto255 *)

Section Ristretto.
Context {K : Kernel}.

Definition sqrtADMinusOne : FieldElement := fieldElementFromDecimal
  "25063068953384623474111414158702152701244531502492656460079210482610430750235".

Definition invSqrtAMinusD : FieldElement := fieldElementFromDecimal
  "54469307008909316920995813868745141605393597292927456921205312896311721017578".

Definition oneMinusDSQ : FieldElement := fieldElementFromDecimal
  "1159843021668779879193775521855586647937357759715417654439879720876111806838".

Definition dMinusOneSQ : FieldElement := fieldElementFromDecimal
  "40440834346308536858101042469323190826248399146238708352240133220865137265952".

(** Modelled from the spec: [feSqrtRatio(s, u, v)] of package ristretto255 is
    called by [mapToPoint] but defined outside the source files; by spec
    section 4.4 it is the square-root-ratio solver of section 4.3, storing
    the root in [s] and returning [wasSquare]. *)
Definition feSqrtRatio (u v : FieldElement) : Z * FieldElement :=
  FeSqrtRatio u v.

(** Equal returns 1 if e is equivalent to ee, and 0 otherwise. *)
Definition Equal (e ee : Element) : Z :=
  let f0 := FeMul (geX (r e)) (geY (r ee)) in   (* x1 * y2 *)
  let f1 := FeMul (geY (r e)) (geX (r ee)) in   (* y1 * x2 *)
  let out := FeEqual f0 f1 in
  let f0 := FeMul (geY (r e)) (geY (r ee)) in   (* y1 * y2 *)
  let f1 := FeMul (geX (r e)) (geX (r ee)) in   (* x1 * x2 *)
  let out := Z.lor out (FeEqual f0 f1) in
  out.

Definition mapToPoint (t : FieldElement) : ExtendedGroupElement :=
  let r := FeSquare t in
  let r := FeMul r sqrtM1 in
  let one := FeOne in
  let minusOne := FeNeg one in
  let u := FeAdd r one in
  let u := FeMul u oneMinusDSQ in
  let rPlusD := FeAdd r D in
  let v := FeMul r D in
  let v := FeSub minusOne v in
  let v := FeMul v rPlusD in
  let '(wasSquare, s) := feSqrtRatio u v in
  let sPrime := FeMul s t in
  let sPrime := FeAbs sPrime in
  let sPrime := FeNeg sPrime in
  let s := FeSelect s sPrime wasSquare in
  let c := FeSelect minusOne r wasSquare in
  let N := FeSub r one in
  let N := FeMul N c in
  let N := FeMul N dMinusOneSQ in
  let N := FeSub N v in
  let sSquare := FeSquare s in
  let w0 := FeMul s v in
  let w0 := FeAdd w0 w0 in
  let w1 := FeMul N sqrtADMinusOne in
  let w2 := FeSub one sSquare in
  let w3 := FeAdd one sSquare in
  mkGE (FeMul w0 w3) (FeMul w2 w1) (FeMul w1 w3) (FeMul w0 w2).

(** FromUniformBytes maps the 64-byte slice b to an Element e uniformly and
    deterministically.  The result is the receiver after the call together
    with the way the call ended. *)
Definition FromUniformBytes (e : Element) (b : list byte) : Element * outcome :=
  if negb (Nat.eqb (length b) 64) then
    (e, Panicked "ristretto255: FromUniformBytes: input is not 64 bytes long")
  else
    let buf := repeat x00 32 in
    let buf := copy buf (firstn 32 b) in
    let f := FeFromBytes buf in
    let p1 := mapToPoint f in
    let buf := copy buf (skipn 32 b) in
    let f := FeFromBytes buf in
    let p2 := mapToPoint f in
    (mkElement (GeAdd p1 p2), Returned).

End Ristretto.

(** * Field-value semantics

    What the source functions compute on the field values their operands
    denote. *)

Definition F_of (z : Z) : F := Zmod.of_Z p z.

(** The fixed square root of -1. *)
Definition F_i : F :=
  F_of 19681161376707505956807079304988542015446066515923890162744021073123829784752.

(** Equality as a flag. *)
Definition F_eq (x y : F) : Z := if Zmod.eqb x y then 1 else 0.

(** Low bit of the canonical representative. *)
Definition F_is_negative (x : F) : Z := Zmod.unsigned x mod 2.

Definition F_abs (x : F) : F :=
  if F_is_negative x =? 1 then Zmod.opp x else x.

Definition F_sqrt_ratio (u v : F) : Z * F :=
  let v3 := Zmod.mul (Zmod.mul v v) v in
  let v7 := Zmod.mul (Zmod.mul v3 v3) v in
  let r := Zmod.mul (Zmod.mul u v3) (Zmod.pow (Zmod.mul u v7) ((p - 5) / 8)) in
  let check := Zmod.mul (Zmod.mul r r) v in
  let correct_sign_sqrt := F_eq check u in
  let flipped_sign_sqrt := F_eq check (Zmod.opp u) in
  let flipped_sign_sqrt_i := F_eq check (Zmod.mul (Zmod.opp u) F_i) in
  let r_prime := Zmod.mul r F_i in
  let r := if Z.lor flipped_sign_sqrt flipped_sign_sqrt_i =? 1 then r_prime else r in
  (Z.lor correct_sign_sqrt flipped_sign_sqrt, F_abs r).

(** ** Bit-level selection *)

Lemma cond_mask_1 : cond_mask 1 = 0xffffffffffffffff.
Proof. reflexivity. Qed.

Lemma cond_mask_0 : cond_mask 0 = 0.
Proof. reflexivity. Qed.

Lemma select_limb_1 v u : uint64 v -> select_limb 0xffffffffffffffff v u = v.
Proof.
  intros Hv. unfold select_limb. rewrite Z.lxor_nilpotent, Z.land_0_l, Z.lor_0_r.
  change 0xffffffffffffffff with (Z.ones 64).
  rewrite Z.land_comm, Z.land_ones by lia. apply Z.mod_small. exact Hv.
Qed.

Lemma select_limb_0 v u : uint64 u -> select_limb 0 v u = u.
Proof.
  intros Hu. unfold select_limb. rewrite Z.land_0_l, Z.lor_0_l, Z.lxor_0_l.
  change 0xffffffffffffffff with (Z.ones 64).
  rewrite Z.land_comm, Z.land_ones by lia. apply Z.mod_small. exact Hu.
Qed.

Section KernelFacts.
Context {K : Kernel} {L : KernelLaws K}.

Lemma FeSelect_1 v u : fe_uint64 v -> FeSelect v u 1 = v.
Proof.
  intros (H0 & H1 & H2 & H3 & H4). unfold FeSelect. rewrite cond_mask_1.
  rewrite !select_limb_1 by assumption. now destruct v.
Qed.

Lemma FeSelect_0 v u : fe_uint64 u -> FeSelect v u 0 = u.
Proof.
  intros (H0 & H1 & H2 & H3 & H4). unfold FeSelect. rewrite cond_mask_0.
  rewrite !select_limb_0 by assumption. now destruct u.
Qed.

Lemma FeSelect_flag v u c :
  reduced v -> reduced u -> c = 0 \/ c = 1 ->
  FeSelect v u c = if c =? 1 then v else u.
Proof.
  intros Hv Hu [->| ->]; cbn [Z.eqb Pos.eqb].
  - apply FeSelect_0. now apply reduced_uint64.
  - apply FeSelect_1. now apply reduced_uint64.
Qed.

Lemma F_unsigned_range (x : F) : 0 <= Zmod.unsigned x < p.
Proof. apply Zmod.unsigned_pos_bound. unfold p. lia. Qed.

Lemma F_unsigned_lt_256_32 (x : F) : 0 <= Zmod.unsigned x < 256 ^ Z.of_nat 32.
Proof.
  pose proof (F_unsigned_range x) as H.
  assert (Hp : p < 256 ^ Z.of_nat 32) by (vm_compute; reflexivity). lia.
Qed.

Lemma F_eq_flag x y : F_eq x y = 0 \/ F_eq x y = 1.
Proof. unfold F_eq. destruct (Zmod.eqb x y); auto. Qed.

Lemma F_eq_1_iff x y : F_eq x y = 1 <-> x = y.
Proof.
  unfold F_eq. destruct (Zmod.eqb_spec x y) as [E|E]; split; intros H;
    try assumption; try reflexivity; [discriminate|contradiction].
Qed.

Lemma FeEqual_val a b :
  reduced a -> reduced b -> FeEqual a b = F_eq (feval a) (feval b).
Proof.
  intros Ha Hb. unfold FeEqual. cbv zeta.
  rewrite ConstantTimeCompare_spec, (FeToBytes_ok a Ha), (FeToBytes_ok b Hb).
  unfold F_eq.
  destruct (list_eq_dec _ _ _) as [E|E]; destruct (Zmod.eqb_spec (feval a) (feval b)) as [E'|E'];
    try reflexivity; exfalso.
  - apply E'. apply Zmod.unsigned_inj.
    apply (le_bytes_inj 32); auto using F_unsigned_lt_256_32.
  - apply E. now rewrite E'.
Qed.

Lemma F_is_negative_flag x : F_is_negative x = 0 \/ F_is_negative x = 1.
Proof.
  unfold F_is_negative. pose proof (Z.mod_pos_bound (Zmod.unsigned x) 2). lia.
Qed.

Lemma FeIsNegative_val u :
  reduced u -> FeIsNegative u = F_is_negative (feval u).
Proof.
  intros Hu. unfold FeIsNegative, F_is_negative. cbv zeta.
  rewrite (FeToBytes_ok u Hu). cbn [le_bytes nth]. rewrite byte_val_of.
  change 1 with (Z.ones 1) at 1. rewrite Z.land_ones by lia.
  change (2 ^ 1) with 2.
  apply Z.mod_mod_divide. exists 128. reflexivity.
Qed.

Lemma FeAbs_val u :
  reduced u -> reduced (FeAbs u) /\ feval (FeAbs u) = F_abs (feval u).
Proof.
  intros Hu. unfold FeAbs, F_abs. cbv zeta.
  destruct (FeNeg_ok u Hu) as [Hn En].
  rewrite FeSelect_flag, FeIsNegative_val by
    (try assumption; rewrite FeIsNegative_val by assumption; apply F_is_negative_flag).
  destruct (F_is_negative (feval u) =? 1); auto.
Qed.

End KernelFacts.

(** * The fixed exponentiation routine *)

Definition obj_eqb (a b : obj) : bool :=
  match a, b with
  | Ot0, Ot0 | Ot1, Ot1 | Ot2, Ot2 | Oarg0, Oarg0 | Oarg1, Oarg1 => true
  | _, _ => false
  end.

(** One entry of the chain read off a sequence of kernel calls: a run of
    squarings, or one multiplication. *)
Inductive chain_step : Type := Squarings (n : nat) | Multiplication.

(** The chain a sequence of kernel calls makes.  A run is a maximal sequence
    of consecutive FeSquare calls into one destination: the calls that one
    [FeSquare(&t, x)] and a following loop of [FeSquare(&t, &t)] make.
    [cur] is the run in progress, with its destination. *)
Fixpoint chain_from (cur : option (obj * nat)) (calls : list kcall)
  : list chain_step :=
  let flush := match cur with Some (_, n) => [Squarings n] | None => [] end in
  match calls with
  | [] => flush
  | CallSquare d _ :: rest =>
      match cur with
      | Some (d', n) =>
          if obj_eqb d d' then chain_from (Some (d', S n)) rest
          else Squarings n :: chain_from (Some (d, 1%nat)) rest
      | None => chain_from (Some (d, 1%nat)) rest
      end
  | CallMul _ _ _ :: rest => flush ++ Multiplication :: chain_from None rest
  end.

Definition chain_shape (calls : list kcall) : list chain_step :=
  chain_from None calls.

(** The lengths of the squaring runs, in order. *)
Definition squaring_runs (calls : list kcall) : list nat :=
  flat_map (fun c => match c with Squarings n => [n] | Multiplication => [] end)
           (chain_shape calls).

Lemma load_store o d x m :
  load o (store d x m) = if obj_eqb o d then x else load o m.
Proof. destruct o, d, m; reflexivity. Qed.

Lemma store_load d m : store d (load d m) m = m.
Proof. destruct d, m; reflexivity. Qed.

Lemma store_store d x y m : store d x (store d y m) = store d x m.
Proof. destruct d, m; reflexivity. Qed.

Lemma obj_eqb_refl d : obj_eqb d d = true.
Proof. destruct d; reflexivity. Qed.

(** What is known of the objects while the chain runs: the exponent of the
    power of [z] an object holds, where it holds one. *)
Definition env : Type := obj -> option Z.

Definition upd (E : env) (d : obj) (e : Z) : env :=
  fun o => if obj_eqb o d then Some e else E o.

Definition fresh_temporaries (E : env) : env :=
  fun o => match o with Ot0 | Ot1 | Ot2 => None | _ => E o end.

Section PowChain.
Context {K : Kernel} {L : KernelLaws K}.

(** [x] is the bounded representation of the [e]-th power of [z]. *)
Definition is_pow (z x : FieldElement) (e : Z) : Prop :=
  0 <= e /\ reduced x /\ feval x = Zmod.pow (feval z) e.

Lemma is_pow_base z : reduced z -> is_pow z z 1.
Proof. intros Hz. split; [lia|]. split; [exact Hz|]. now rewrite Zmod.pow_1_r. Qed.

Lemma is_pow_square z x e : is_pow z x e -> is_pow z (FeSquare x) (2 * e).
Proof.
  intros (He & Hx & E). destruct (FeSquare_ok x Hx) as [Hr Ev].
  split; [lia|]. split; [exact Hr|].
  rewrite Ev, E, <- Zmod.pow_add_r_nonneg by lia. f_equal. lia.
Qed.

Lemma is_pow_mul z x y e1 e2 :
  is_pow z x e1 -> is_pow z y e2 -> is_pow z (FeMul x y) (e1 + e2).
Proof.
  intros (He1 & Hx & E1) (He2 & Hy & E2). destruct (FeMul_ok x y Hx Hy) as [Hr Ev].
  split; [lia|]. split; [exact Hr|].
  now rewrite Ev, E1, E2, <- Zmod.pow_add_r_nonneg by lia.
Qed.

Lemma is_pow_iter_square z k : forall x e,
  is_pow z x e -> is_pow z (Nat.iter k FeSquare x) (2 ^ Z.of_nat k * e).
Proof.
  induction k as [|k IH]; intros x e H.
  - simpl Nat.iter. change (2 ^ Z.of_nat 0) with 1. now rewrite Z.mul_1_l.
  - simpl Nat.iter. rewrite Nat2Z.inj_succ, Z.pow_succ_r by lia.
    replace (2 * 2 ^ Z.of_nat k * e) with (2 * (2 ^ Z.of_nat k * e)) by lia.
    apply is_pow_square. now apply IH.
Qed.

(** The loop [for i; i < n; i++ { FeSquare(&d, &d) }] squares [d] in place
    [n - i] times, and makes that many calls. *)
Lemma for_loop_square_spec d fuel : forall i n m,
  (Z.to_nat (n - i) <= fuel)%nat ->
  for_loop fuel i n (square d d) m =
    (store d (Nat.iter (Z.to_nat (n - i)) FeSquare (load d m)) m,
     repeat (CallSquare d d) (Z.to_nat (n - i))).
Proof.
  induction fuel as [|fuel IH]; intros i n m Hf.
  - assert (E : Z.to_nat (n - i) = 0%nat) by lia. rewrite E.
    cbn [for_loop Nat.iter repeat nat_rect]. unfold skip. now rewrite store_load.
  - cbn [for_loop]. destruct (Z.ltb_spec i n) as [Hlt|Hge].
    + unfold seq. unfold square at 1. rewrite IH by lia.
      replace (Z.to_nat (n - i)) with (S (Z.to_nat (n - (i + 1)))) by lia.
      rewrite load_store, obj_eqb_refl, store_store.
      cbn [repeat app]. f_equal. f_equal. symmetry. apply Nat.iter_succ_r.
    + assert (E : Z.to_nat (n - i) = 0%nat) by lia. rewrite E.
      cbn [Nat.iter repeat nat_rect]. unfold skip. now rewrite store_load.
Qed.

Lemma for_from_1_square_spec d n m :
  for_from_1 n (square d d) m =
    (store d (Nat.iter (Z.to_nat (n - 1)) FeSquare (load d m)) m,
     repeat (CallSquare d d) (Z.to_nat (n - 1))).
Proof. unfold for_from_1. apply for_loop_square_spec. lia. Qed.

(** The objects of [m] hold the powers of [z] that [E] records. *)
Definition models (z : FieldElement) (E : env) (m : frame) : Prop :=
  forall o e, E o = Some e -> is_pow z (load o m) e.

(** Statement [c] takes objects described by [E] to objects described by
    [E']. *)
Definition leads (z : FieldElement) (c : Stmt) (E E' : env) : Prop :=
  forall m, models z E m -> models z E' (fst (c m)).

Lemma leads_seq z c1 c2 E E1 E2 :
  leads z c1 E E1 -> leads z c2 E1 E2 -> leads z (seq c1 c2) E E2.
Proof.
  intros H1 H2 m Hm. unfold seq. specialize (H1 m Hm).
  destruct (c1 m) as [m1 l1]. cbn [fst] in H1. specialize (H2 m1 H1).
  destruct (c2 m1) as [m2 l2]. exact H2.
Qed.

Lemma models_store z E m d x e :
  models z E m -> is_pow z x e -> models z (upd E d e) (store d x m).
Proof.
  intros Hm Hx o e' Ho. rewrite load_store. unfold upd in Ho.
  destruct (obj_eqb o d).
  - injection Ho as <-. exact Hx.
  - now apply Hm.
Qed.

Lemma leads_square z E d s e :
  E s = Some e -> leads z (square d s) E (upd E d (2 * e)).
Proof.
  intros Hs m Hm. unfold square. cbn [fst].
  apply models_store; [exact Hm|]. apply is_pow_square. now apply Hm.
Qed.

Lemma leads_mul z E d a b e1 e2 :
  E a = Some e1 -> E b = Some e2 -> leads z (mul d a b) E (upd E d (e1 + e2)).
Proof.
  intros Ha Hb m Hm. unfold mul. cbn [fst].
  apply models_store; [exact Hm|]. apply is_pow_mul; now apply Hm.
Qed.

Lemma leads_for_squares z E d n e :
  E d = Some e ->
  leads z (for_from_1 n (square d d)) E (upd E d (2 ^ Z.of_nat (Z.to_nat (n - 1)) * e)).
Proof.
  intros Hd m Hm. rewrite for_from_1_square_spec. cbn [fst].
  apply models_store; [exact Hm|]. apply is_pow_iter_square. now apply Hm.
Qed.

Lemma leads_declare z E :
  leads z declare_temporaries E (fresh_temporaries E).
Proof.
  intros m Hm o e Ho. unfold declare_temporaries. cbn [fst].
  destruct o; cbn [fresh_temporaries] in Ho; try discriminate;
    rewrite !load_store; cbn [obj_eqb]; now apply Hm.
Qed.

End PowChain.

Ltac chain_step :=
  eapply leads_seq;
  [first [apply leads_declare
         |eapply leads_for_squares; reflexivity
         |eapply leads_square; reflexivity
         |eapply leads_mul; reflexivity]|].

Section PowChainFacts.
Context {K : Kernel} {L : KernelLaws K}.

(** On entry only the object [z] designates is known: it holds [z^1]. *)
Definition arg_env (zp : obj) : env :=
  fun o => if obj_eqb o zp then Some 1 else None.

Lemma obj_eqb_eq a b : obj_eqb a b = true -> a = b.
Proof. destruct a, b; cbn; congruence. Qed.

Lemma fePow22523_call_leads z out zp :
  zp = Oarg0 \/ zp = Oarg1 ->
  exists E',
    leads z (fePow22523_call out zp) (arg_env zp) E' /\
    E' out = Some ((p - 5) / 8).
Proof.
  intros [-> | ->].
  - eexists. split.
    + unfold fePow22523_call. repeat chain_step. eapply leads_mul; reflexivity.
    + unfold upd at 1. rewrite obj_eqb_refl. apply f_equal. vm_compute. reflexivity.
  - eexists. split.
    + unfold fePow22523_call. repeat chain_step. eapply leads_mul; reflexivity.
    + unfold upd at 1. rewrite obj_eqb_refl. apply f_equal. vm_compute. reflexivity.
Qed.

(** Whatever objects of the caller [out] and [z] designate, the same one
    or two, and whatever the objects held before, the call leaves in [out]
    the power of the value of [z]. *)
Lemma fePow22523_call_val out zp m :
  zp = Oarg0 \/ zp = Oarg1 -> reduced (load zp m) ->
  is_pow (load zp m) (load out (fst (fePow22523_call out zp m))) ((p - 5) / 8).
Proof.
  intros Hzp Hz.
  destruct (fePow22523_call_leads (load zp m) out zp Hzp) as (E' & Hl & He).
  apply (Hl m); [|exact He].
  intros o e Ho. unfold arg_env in Ho. destruct (obj_eqb o zp) eqn:Eo; [|discriminate].
  apply obj_eqb_eq in Eo. subst o. injection Ho as <-. now apply is_pow_base.
Qed.

Lemma fePow22523_unfold z :
  fePow22523 z =
  load Oarg0 (fst (fePow22523_call Oarg0 Oarg0
                     (mkFrame (mkFE 0 0 0 0 0) (mkFE 0 0 0 0 0) (mkFE 0 0 0 0 0) z
                              (mkFE 0 0 0 0 0)))).
Proof.
  unfold fePow22523, fePow22523_logged. cbv zeta.
  now destruct (fePow22523_call Oarg0 Oarg0 _).
Qed.

Lemma fePow22523_val z :
  reduced z ->
  reduced (fePow22523 z) /\
  feval (fePow22523 z) = Zmod.pow (feval z) ((p - 5) / 8).
Proof.
  intros Hz. rewrite fePow22523_unfold.
  set (m := mkFrame _ _ _ z _).
  destruct (fePow22523_call_val Oarg0 Oarg0 m (or_introl eq_refl) Hz) as (_ & Hr & E).
  now split.
Qed.

(** Every call computes the same limbs and makes the same chain as the call
    [fePow22523(x, x)] on the value of [z]: the result does not depend on
    whether [out] and [z] are one object, nor on what the temporaries and
    [out] held before. *)
Lemma fePow22523_call_any out zp m :
  zp = Oarg0 \/ zp = Oarg1 ->
  load out (fst (fePow22523_call out zp m)) = fePow22523 (load zp m) /\
  chain_shape (snd (fePow22523_call out zp m))
    = chain_shape (snd (fePow22523_logged (load zp m))).
Proof.
  intros Hz. destruct m as [a b c d e].
  destruct Hz as [-> | ->]; destruct out; split; vm_compute; reflexivity.
Qed.

(** The kernel calls do not depend on the operand. *)
Lemma fePow22523_calls_fixed z z' :
  snd (fePow22523_logged z') = snd (fePow22523_logged z).
Proof. vm_compute. reflexivity. Qed.

Lemma fePow22523_chain z :
  chain_shape (snd (fePow22523_logged z)) =
    [Squarings 1; Squarings 2; Multiplication; Multiplication;
     Squarings 1; Multiplication; Squarings 5; Multiplication;
     Squarings 10; Multiplication; Squarings 20; Multiplication;
     Squarings 10; Multiplication; Squarings 50; Multiplication;
     Squarings 100; Multiplication; Squarings 50; Multiplication;
     Squarings 2; Multiplication].
Proof. vm_compute. reflexivity. Qed.

End PowChainFacts.

(** * Field facts *)

Lemma F_power_theory :
  power_theory (Zmod.one (m:=p)) Zmod.mul eq Z.of_N (@Zmod.pow p).
Proof.
  constructor. intros x n. destruct n as [|q].
  - apply Zmod.pow_0_r.
  - change (Zmod.pow x (Z.pos q) = pow_pos Zmod.mul x q).
    induction q using Pos.peano_ind.
    + now rewrite Zmod.pow_1_r.
    + rewrite Pos2Z.inj_succ, Zmod.pow_succ_nonneg_r by lia.
      rewrite IHq. now rewrite pow_pos_succ by
        (try apply Eqsth; try (intros ? ? ? ? ? ?; congruence); intros; apply Zmod.mul_assoc).
Qed.

Add Field F_field : (Zmod.field_theory p Curve25519Prime.prime_p)
  (power_tac F_power_theory [Zpow_tac]).

Section FieldFacts.
Local Open Scope Zmod_scope.
Implicit Types x y u v w : F.

Lemma F_mul_eq_0 x y : x * y = 0 -> x = 0 \/ y = 0.
Proof. apply Zmod.mul_0_iff_prime. exact Curve25519Prime.prime_p. Qed.

Lemma F_mul_nz x y : x <> 0 -> y <> 0 -> x * y <> 0.
Proof. intros Hx Hy H. destruct (F_mul_eq_0 _ _ H); contradiction. Qed.

Lemma F_1_nz : (1 : F) <> 0.
Proof. apply Zmod.one_neq_zero. unfold p. lia. Qed.

Lemma F_2_nz : (1 + 1 : F) <> 0.
Proof.
  intros H. apply (f_equal Zmod.unsigned) in H. vm_compute in H. discriminate.
Qed.

Lemma F_i_sq : F_i * F_i = - (1).
Proof. apply Zmod.unsigned_inj. vm_compute. reflexivity. Qed.

Lemma F_i_nz : F_i <> 0.
Proof.
  intros H. apply (f_equal Zmod.unsigned) in H. vm_compute in H. discriminate.
Qed.

Lemma F_opp_eq_self x : - x = x -> x = 0.
Proof.
  intros H. assert (E : (1 + 1) * x = 0).
  { transitivity (x + - x); [rewrite H|]; ring. }
  destruct (F_mul_eq_0 _ _ E) as [E'|E']; [destruct (F_2_nz E')|exact E'].
Qed.

Lemma F_sq_eq x y : x * x = y * y -> x = y \/ x = - y.
Proof.
  intros H. apply Zmod.square_roots_opp_prime; [exact Curve25519Prime.prime_p|].
  now rewrite !Zmod.pow_2_r.
Qed.

Lemma F_fermat x : x <> 0 -> x ^ (p - 1) = 1.
Proof.
  intros Hx. replace (p - 1)%Z with (Z.pred p) by lia.
  apply Zmod.fermat_nz; [exact Hx|exact Curve25519Prime.prime_p].
Qed.

(** The quartic character [x ^ ((p - 1) / 4)] of a nonzero element is a
    fourth root of unity. *)
Lemma F_quartic x : x <> 0 ->
  let w := x ^ ((p - 1) / 4) in
  w = 1 \/ w = - (1) \/ w = F_i \/ w = - F_i.
Proof.
  intros Hx w.
  assert (H4 : (w * w) * (w * w) = 1).
  { rewrite <- (F_fermat x Hx).
    replace (p - 1)%Z with ((p - 1) / 4 * 4)%Z by (vm_compute; reflexivity).
    rewrite Zmod.pow_mul_r_nonneg by (apply Z.leb_le; vm_compute; reflexivity).
    fold w. generalize w. intros w'. ring. }
  destruct (F_sq_eq (w * w) 1) as [H2|H2]; [rewrite H4; ring| |].
  - destruct (F_sq_eq w 1) as [H1|H1]; [rewrite H2; ring|auto|auto].
  - destruct (F_sq_eq w F_i) as [H1|H1]; [rewrite H2, F_i_sq; ring|auto|auto].
Qed.

Lemma F_quartic_of_square y : y <> 0 ->
  let w := (y * y) ^ ((p - 1) / 4) in w * w = 1.
Proof.
  intros Hy w. rewrite <- (F_fermat y Hy). subst w.
  rewrite <- Zmod.pow_2_r. 
  rewrite <- Zmod.pow_mul_r_nonneg by (apply Z.leb_le; vm_compute; reflexivity).
  rewrite <- Zmod.pow_2_r.
  rewrite <- Zmod.pow_mul_r_nonneg by (apply Z.leb_le; vm_compute; reflexivity).
  f_equal.
Qed.

End FieldFacts.

Section SqrtRatioFacts.
Local Open Scope Zmod_scope.
Implicit Types x y u v w : F.

Lemma F_eq_refl x : F_eq x x = 1%Z.
Proof. unfold F_eq. now rewrite Zmod.eqb_refl. Qed.

Lemma F_eq_neq x y : x <> y -> F_eq x y = 0%Z.
Proof. unfold F_eq. destruct (Zmod.eqb_spec x y); [contradiction|reflexivity]. Qed.

Lemma F_is_negative_opp x :
  x <> 0 -> F_is_negative (- x) = (1 - F_is_negative x)%Z.
Proof.
  intros Hx. unfold F_is_negative. rewrite Zmod.unsigned_opp.
  pose proof (F_unsigned_range x) as Hr.
  assert (Hz : Zmod.unsigned x <> 0%Z).
  { intros E. apply Hx. apply Zmod.unsigned_inj. rewrite E. reflexivity. }
  assert (Hs : (Zmod.unsigned x mod p = Zmod.unsigned x)%Z) by (apply Z.mod_small; lia).
  rewrite Z.mod_opp_l_nz by (rewrite ?Hs; unfold p in *; lia).
  rewrite Hs.
  assert (Hp : (p mod 2 = 1)%Z) by (vm_compute; reflexivity).
  pose proof (Z.mod_pos_bound (Zmod.unsigned x) 2 ltac:(lia)).
  pose proof (Z.div_mod p 2 ltac:(lia)).
  pose proof (Z.div_mod (Zmod.unsigned x) 2 ltac:(lia)).
  assert (Zmod.unsigned x mod 2 = 0 \/ Zmod.unsigned x mod 2 = 1)%Z as [E|E] by lia;
    rewrite E.
  - symmetry. apply (Z.mod_unique _ _ (p / 2 - Zmod.unsigned x / 2)); lia.
  - symmetry. apply (Z.mod_unique _ _ (p / 2 - Zmod.unsigned x / 2)); lia.
Qed.

Lemma F_abs_0 : F_abs 0 = 0.
Proof. reflexivity. Qed.

Lemma F_abs_cases x : F_abs x = x \/ F_abs x = - x.
Proof. unfold F_abs. destruct (F_is_negative x =? 1)%Z; auto. Qed.

Lemma F_abs_sq x : F_abs x * F_abs x = x * x.
Proof. destruct (F_abs_cases x) as [-> | ->]; ring. Qed.

Lemma F_abs_nonneg x : F_is_negative (F_abs x) = 0%Z.
Proof.
  unfold F_abs. destruct (Z.eqb_spec (F_is_negative x) 1) as [E|E].
  - rewrite F_is_negative_opp, E; [reflexivity|].
    intros ->. vm_compute in E. discriminate.
  - destruct (F_is_negative_flag x); [assumption|contradiction].
Qed.

Lemma F_abs_of_nonneg x : F_is_negative x = 0%Z -> F_abs x = x.
Proof. intros H. unfold F_abs. now rewrite H. Qed.

Lemma F_abs_opp x : F_abs (- x) = F_abs x.
Proof.
  destruct (Zmod.eqb_spec x 0) as [->|Hx]; [reflexivity|].
  unfold F_abs. rewrite F_is_negative_opp by exact Hx.
  destruct (F_is_negative_flag x) as [E|E]; rewrite E.
  - change ((1 - 0 =? 1)%Z) with true. change ((0 =? 1)%Z) with false.
    cbv iota. ring.
  - reflexivity.
Qed.

Lemma F_nonneg_opp x :
  F_is_negative x = 0%Z -> F_is_negative (- x) = 0%Z -> x = 0.
Proof.
  intros H1 H2. destruct (Zmod.eqb_spec x 0) as [E|E]; [exact E|].
  rewrite F_is_negative_opp, H1 in H2 by exact E. discriminate.
Qed.

Lemma flag_lor a b :
  (a = 0 \/ a = 1)%Z -> (b = 0 \/ b = 1)%Z ->
  (Z.lor a b = 0 \/ Z.lor a b = 1)%Z /\
  (Z.lor a b = 1 <-> a = 1 \/ b = 1)%Z.
Proof. intros [-> | ->] [-> | ->]; cbn; intuition (auto; discriminate). Qed.

(** The candidate root and the value it is checked against. *)
Definition F_candidate u v : F :=
  (u * ((v * v) * v)) * (u * ((((v * v) * v) * ((v * v) * v)) * v)) ^ ((p - 5) / 8).

Lemma F_candidate_check u v :
  (F_candidate u v * F_candidate u v) * v
  = u * (u * ((((v * v) * v) * ((v * v) * v)) * v)) ^ ((p - 1) / 4).
Proof.
  unfold F_candidate.
  set (x := u * ((((v * v) * v) * ((v * v) * v)) * v)).
  replace ((p - 1) / 4)%Z with (Z.succ ((p - 5) / 8 + (p - 5) / 8))
    by (vm_compute; reflexivity).
  rewrite Zmod.pow_succ_nonneg_r, Zmod.pow_add_r_nonneg
    by (apply Z.leb_le; vm_compute; reflexivity).
  unfold x. generalize ((u * ((((v * v) * v) * ((v * v) * v)) * v)) ^ ((p - 5) / 8)).
  intros P. ring.
Qed.

End SqrtRatioFacts.

Section SqrtRatioSpec.
Local Open Scope Zmod_scope.
Implicit Types x y u v w : F.

Lemma F_sqrt_ratio_unfold u v :
  F_sqrt_ratio u v =
  let r0 := F_candidate u v in
  let check := (r0 * r0) * v in
  let fs := F_eq check (- u) in
  let fsi := F_eq check (- u * F_i) in
  (Z.lor (F_eq check u) fs,
   F_abs (if (Z.lor fs fsi =? 1)%Z then r0 * F_i else r0)).
Proof. reflexivity. Qed.

(** A zero numerator is reported as a square, with root zero. *)
Lemma F_sqrt_ratio_0 v : F_sqrt_ratio 0 v = (1%Z, 0).
Proof.
  rewrite F_sqrt_ratio_unfold. cbv zeta.
  assert (E0 : F_candidate 0 v = 0).
  { unfold F_candidate. now rewrite !Zmod.mul_0_l. }
  rewrite E0.
  replace (0 * 0 * v) with (0 : F) by ring.
  replace (- 0 : F) with (0 : F) by ring.
  replace (0 * F_i) with (0 : F) by ring.
  rewrite F_eq_refl. reflexivity.
Qed.

Lemma F_eq_scaled u a b : u <> 0 -> F_eq (u * a) (u * b) = F_eq a b.
Proof.
  intros Hu. unfold F_eq.
  destruct (Zmod.eqb_spec (u * a) (u * b)) as [E|E];
    destruct (Zmod.eqb_spec a b) as [E'|E']; try reflexivity; exfalso.
  - apply E'. eapply Zmod.mul_cancel_l_prime; eauto. exact Curve25519Prime.prime_p.
  - apply E. now rewrite E'.
Qed.

(** For a nonzero numerator the outcome is decided by the quartic
    character [w] of [u * v^7]. *)
Lemma F_sqrt_ratio_nz u v :
  u <> 0 ->
  let r0 := F_candidate u v in
  let w := (u * ((((v * v) * v) * ((v * v) * v)) * v)) ^ ((p - 1) / 4) in
  (r0 * r0) * v = u * w /\
  F_sqrt_ratio u v =
    (Z.lor (F_eq w 1) (F_eq w (- (1))),
     F_abs (if (Z.lor (F_eq w (- (1))) (F_eq w (- F_i)) =? 1)%Z
            then r0 * F_i else r0)).
Proof.
  intros Hu r0 w.
  assert (Hc : (r0 * r0) * v = u * w) by apply F_candidate_check.
  split; [exact Hc|].
  rewrite F_sqrt_ratio_unfold. cbv zeta. fold r0. rewrite Hc.
  replace u with (u * 1) at 2 by ring.
  replace (- u) with (u * - (1)) by ring.
  replace (u * - (1) * F_i) with (u * - F_i) by ring.
  now rewrite !F_eq_scaled by exact Hu.
Qed.

Ltac flag_compute :=
  repeat match goal with
  | |- context [F_eq ?a ?b] =>
      let r := eval vm_compute in (F_eq a b) in change (F_eq a b) with r
  end.

Theorem F_sqrt_ratio_spec u v :
  v <> 0 ->
  let ws := fst (F_sqrt_ratio u v) in
  let r := snd (F_sqrt_ratio u v) in
  (ws = 0 \/ ws = 1)%Z /\
  F_is_negative r = 0%Z /\
  (ws = 1%Z -> (r * r) * v = u) /\
  (ws = 0%Z -> (r * r) * v = F_i * u /\ forall y, (y * y) * v <> u).
Proof.
  intros Hv ws r.
  destruct (Zmod.eqb_spec u 0) as [->|Hu].
  { subst ws r. rewrite F_sqrt_ratio_0. cbn [fst snd].
    split; [right; reflexivity|]. split; [reflexivity|].
    split; [intros _; ring|discriminate]. }
  destruct (F_sqrt_ratio_nz u v Hu) as [Hc E].
  set (r0 := F_candidate u v) in *.
  set (x := u * ((((v * v) * v) * ((v * v) * v)) * v)) in *.
  assert (Hx : x <> 0) by (unfold x; repeat apply F_mul_nz; assumption).
  pose proof (F_quartic x Hx) as Hw. cbv zeta in Hw.
  set (w := x ^ ((p - 1) / 4)) in *.
  assert (Hnosq : w * w = - (1) -> forall y, (y * y) * v <> u).
  { intros Hww y Hy.
    assert (Hynz : y <> 0).
    { intros ->. apply Hu. rewrite <- Hy. ring. }
    assert (Ex : x = (y * (v * v * v * v)) * (y * (v * v * v * v))).
    { unfold x. rewrite <- Hy. ring. }
    pose proof (F_quartic_of_square (y * (v * v * v * v))
                  ltac:(repeat apply F_mul_nz; assumption)) as H1.
    cbv zeta in H1. rewrite <- Ex in H1. fold w in H1.
    rewrite Hww in H1. apply (f_equal Zmod.unsigned) in H1.
    vm_compute in H1. discriminate. }
  subst ws r. rewrite E. cbn [fst snd]. clear E.
  destruct Hw as [Hw|[Hw|[Hw|Hw]]]; rewrite Hw in *; flag_compute;
    cbn [Z.lor Z.eqb Pos.eqb]; cbv iota.
  - split; [right; reflexivity|]. split; [apply F_abs_nonneg|].
    split; [intros _|discriminate].
    rewrite F_abs_sq, Hc. ring.
  - split; [right; reflexivity|]. split; [apply F_abs_nonneg|].
    split; [intros _|discriminate].
    rewrite F_abs_sq.
    transitivity (- (r0 * r0 * v) * - (F_i * F_i)); [ring|].
    rewrite Hc, F_i_sq. ring.
  - split; [left; reflexivity|]. split; [apply F_abs_nonneg|].
    split; [discriminate|intros _]. split.
    + rewrite F_abs_sq, Hc. ring.
    + apply Hnosq. apply F_i_sq.
  - split; [left; reflexivity|]. split; [apply F_abs_nonneg|].
    split; [discriminate|intros _]. split.
    + rewrite F_abs_sq.
      transitivity (r0 * r0 * v * (F_i * F_i)); [ring|].
      rewrite Hc, F_i_sq. ring.
    + apply Hnosq. rewrite <- F_i_sq. ring.
Qed.

End SqrtRatioSpec.

Section SqrtRatioRoundTrip.
Local Open Scope Zmod_scope.
Implicit Types x y u v w : F.

Lemma F_sqrt_ratio_round_trip v x :
  v <> 0 -> F_is_negative x = 0%Z ->
  F_sqrt_ratio ((x * x) * v) v = (1%Z, x).
Proof.
  intros Hv Hx.
  destruct (F_sqrt_ratio_spec ((x * x) * v) v Hv) as (Hws & Hneg & H1 & H0).
  destruct (F_sqrt_ratio ((x * x) * v) v) as [ws y]. cbn [fst snd] in *.
  destruct Hws as [Hws|Hws].
  - destruct (H0 Hws) as [_ Hno]. destruct (Hno x). reflexivity.
  - f_equal; [exact Hws|]. specialize (H1 Hws).
    assert (E : y * y = x * x).
    { eapply Zmod.mul_cancel_r_prime; eauto. exact Curve25519Prime.prime_p. }
    destruct (F_sq_eq _ _ E) as [E'|E']; [exact E'|].
    subst y. rewrite (F_nonneg_opp x Hx Hneg). ring.
Qed.

End SqrtRatioRoundTrip.

(** * The square-root-ratio solver on field values *)

Section SqrtRatioCode.
Context {K : Kernel} {L : KernelLaws K}.

Lemma decimal_sqrtM1 :
  Zmod.of_Z p (decimal_value
    "19681161376707505956807079304988542015446066515923890162744021073123829784752")
  = F_i.
Proof. apply Zmod.unsigned_inj. vm_compute. reflexivity. Qed.

Lemma SQRT_M1_val : reduced SQRT_M1 /\ feval SQRT_M1 = F_i.
Proof.
  unfold SQRT_M1, sqrtM1.
  destruct (fieldElementFromDecimal_ok
    "19681161376707505956807079304988542015446066515923890162744021073123829784752")
    as [Hr E].
  split; [exact Hr|]. rewrite E. apply decimal_sqrtM1.
Qed.

Lemma lor_F_eq_flag a b c d :
  (Z.lor (F_eq a b) (F_eq c d) = 0 \/ Z.lor (F_eq a b) (F_eq c d) = 1)%Z.
Proof. apply flag_lor; apply F_eq_flag. Qed.

(** [FeSqrtRatio] computes [F_sqrt_ratio] on the values of its operands. *)
Theorem FeSqrtRatio_val u v :
  reduced u -> reduced v ->
  reduced (snd (FeSqrtRatio u v)) /\
  fst (FeSqrtRatio u v) = fst (F_sqrt_ratio (feval u) (feval v)) /\
  feval (snd (FeSqrtRatio u v)) = snd (F_sqrt_ratio (feval u) (feval v)).
Proof.
  intros Hu Hv. unfold FeSqrtRatio. cbv zeta. cbn [fst snd].
  destruct SQRT_M1_val as [Hi Ei].
  destruct (FeSquare_ok v Hv) as [R1 E1].
  destruct (FeMul_ok _ _ R1 Hv) as [R2 E2].
  destruct (FeSquare_ok _ R2) as [R3 E3].
  destruct (FeMul_ok _ _ R3 Hv) as [R4 E4].
  destruct (FeMul_ok _ _ Hu R2) as [R5 E5].
  destruct (FeMul_ok _ _ Hu R4) as [R6 E6].
  destruct (fePow22523_val _ R6) as [R7 E7].
  destruct (FeMul_ok _ _ R5 R7) as [R8 E8].
  destruct (FeMul_ok _ _ R8 R8) as [R9 E9].
  destruct (FeMul_ok _ _ R9 Hv) as [R10 E10].
  destruct (FeNeg_ok _ Hu) as [R11 E11].
  destruct (FeMul_ok _ _ R11 Hi) as [R12 E12].
  destruct (FeMul_ok _ _ R8 Hi) as [R13 E13].
  rewrite !FeEqual_val by assumption.
  rewrite FeSelect_flag by (try assumption; apply lor_F_eq_flag).
  assert (Ecand : feval (FeMul (FeMul u (FeMul (FeSquare v) v))
            (fePow22523 (FeMul u (FeMul (FeSquare (FeMul (FeSquare v) v)) v))))
          = F_candidate (feval u) (feval v)).
  { rewrite E8, E7, E6, E5, E4, E3, E2, E1. reflexivity. }
  assert (Echeck : feval (FeMul (FeMul
            (FeMul (FeMul u (FeMul (FeSquare v) v))
               (fePow22523 (FeMul u (FeMul (FeSquare (FeMul (FeSquare v) v)) v))))
            (FeMul (FeMul u (FeMul (FeSquare v) v))
               (fePow22523 (FeMul u (FeMul (FeSquare (FeMul (FeSquare v) v)) v))))) v)
          = Zmod.mul (Zmod.mul (F_candidate (feval u) (feval v))
                               (F_candidate (feval u) (feval v))) (feval v)).
  { rewrite E10, E9, Ecand. reflexivity. }
  rewrite F_sqrt_ratio_unfold. cbv zeta. cbn [fst snd].
  rewrite Echeck, E12, E11, Ei.
  split; [|split; [reflexivity|]].
  - destruct (Z.lor _ _ =? 1); apply FeAbs_val; assumption.
  - destruct (Z.lor _ _ =? 1).
    + destruct (FeAbs_val _ R13) as [_ ->]. now rewrite E13, Ecand, Ei.
    + destruct (FeAbs_val _ R8) as [_ ->]. now rewrite Ecand.
Qed.

End SqrtRatioCode.

(** * A reference kernel

    Modelled from the spec: one kernel meeting the interface, computing on
    canonical radix-2^51 limbs; the group law is the standard extended
    twisted-Edwards addition for a = -1.  It is used to run the source
    functions on concrete inputs. *)

Definition fe_of_Z (z : Z) : FieldElement :=
  mkFE (z mod 2 ^ 51) ((z / 2 ^ 51) mod 2 ^ 51) ((z / 2 ^ 102) mod 2 ^ 51)
       ((z / 2 ^ 153) mod 2 ^ 51) (z / 2 ^ 204).

Definition fe_of_F (x : F) : FieldElement := fe_of_Z (Zmod.unsigned x).

Definition ref_reduced (a : FieldElement) : Prop := a = fe_of_F (feval a).

Definition ref_add (a b : FieldElement) := fe_of_F (Zmod.add (feval a) (feval b)).
Definition ref_sub (a b : FieldElement) := fe_of_F (Zmod.sub (feval a) (feval b)).
Definition ref_neg (a : FieldElement) := fe_of_F (Zmod.opp (feval a)).
Definition ref_mul (a b : FieldElement) := fe_of_F (Zmod.mul (feval a) (feval b)).
Definition ref_square (a : FieldElement) := fe_of_F (Zmod.mul (feval a) (feval a)).
Definition ref_to_bytes (a : FieldElement) := le_bytes 32 (Zmod.unsigned (feval a)).

(** The top bit of the last byte is ignored, as a 255-bit decoder does. *)
Definition ref_from_bytes (bs : list byte) := fe_of_F (F_of (le_int bs mod 2 ^ 255)).

Definition ref_from_decimal (s : string) := fe_of_F (F_of (decimal_value s)).

Definition ref_D : FieldElement := fe_of_F (F_of curve_d).

Definition ref_ge_add (P Q : ExtendedGroupElement) : ExtendedGroupElement :=
  let two := ref_add (fe_of_F Zmod.one) (fe_of_F Zmod.one) in
  let A := ref_mul (ref_sub (geY P) (geX P)) (ref_sub (geY Q) (geX Q)) in
  let B := ref_mul (ref_add (geY P) (geX P)) (ref_add (geY Q) (geX Q)) in
  let C := ref_mul (ref_mul (geT P) (ref_mul two ref_D)) (geT Q) in
  let DD := ref_mul (ref_mul (geZ P) two) (geZ Q) in
  let E := ref_sub B A in
  let FF := ref_sub DD C in
  let G := ref_add DD C in
  let H := ref_add B A in
  mkGE (ref_mul E FF) (ref_mul G H) (ref_mul FF G) (ref_mul E H).

Definition RefKernel : Kernel := {|
  reduced := ref_reduced;
  FeOne := fe_of_F Zmod.one;
  FeAdd := ref_add;
  FeSub := ref_sub;
  FeNeg := ref_neg;
  FeMul := ref_mul;
  FeSquare := ref_square;
  FeToBytes := ref_to_bytes;
  FeFromBytes := ref_from_bytes;
  fieldElementFromDecimal := ref_from_decimal;
  D := ref_D;
  GeAdd := ref_ge_add
|}.

Lemma limbs_recombine z :
  z mod 2 ^ 51 + 2 ^ 51 * ((z / 2 ^ 51) mod 2 ^ 51)
  + 2 ^ 102 * ((z / 2 ^ 102) mod 2 ^ 51)
  + 2 ^ 153 * ((z / 2 ^ 153) mod 2 ^ 51) + 2 ^ 204 * (z / 2 ^ 204) = z.
Proof.
  change (2 ^ 102) with (2 ^ 51 * 2 ^ 51).
  change (2 ^ 153) with (2 ^ 51 * 2 ^ 51 * 2 ^ 51).
  change (2 ^ 204) with (2 ^ 51 * 2 ^ 51 * 2 ^ 51 * 2 ^ 51).
  rewrite <- !Z.div_div by lia.
  set (b := 2 ^ 51).
  pose proof (Z.div_mod z b ltac:(subst b; lia)) as H0.
  pose proof (Z.div_mod (z / b) b ltac:(subst b; lia)) as H1.
  pose proof (Z.div_mod (z / b / b) b ltac:(subst b; lia)) as H2.
  pose proof (Z.div_mod (z / b / b / b) b ltac:(subst b; lia)) as H3.
  nia.
Qed.

Lemma feval_fe_of_F x : feval (fe_of_F x) = x.
Proof.
  unfold feval, fe_of_F, fe_of_Z. cbn [limb0 limb1 limb2 limb3 limb4].
  rewrite limbs_recombine. apply Zmod.unsigned_inj.
  rewrite Zmod.unsigned_of_Z. apply Z.mod_small. apply F_unsigned_range.
Qed.

Lemma ref_reduced_fe_of_F x : ref_reduced (fe_of_F x).
Proof. unfold ref_reduced. now rewrite feval_fe_of_F. Qed.

Lemma fe_of_F_uint64 x : fe_uint64 (fe_of_F x).
Proof.
  pose proof (F_unsigned_range x) as Hr.
  assert (Hp : p < 2 ^ 204 * 2 ^ 51) by (vm_compute; reflexivity).
  unfold fe_uint64, uint64, fe_of_F, fe_of_Z. cbn [limb0 limb1 limb2 limb3 limb4].
  assert (H51 : 2 ^ 51 < 2 ^ 64) by (vm_compute; reflexivity).
  pose proof (Z.mod_pos_bound (Zmod.unsigned x) (2 ^ 51) ltac:(lia)).
  pose proof (Z.mod_pos_bound (Zmod.unsigned x / 2 ^ 51) (2 ^ 51) ltac:(lia)).
  pose proof (Z.mod_pos_bound (Zmod.unsigned x / 2 ^ 102) (2 ^ 51) ltac:(lia)).
  pose proof (Z.mod_pos_bound (Zmod.unsigned x / 2 ^ 153) (2 ^ 51) ltac:(lia)).
  assert (0 <= Zmod.unsigned x / 2 ^ 204 < 2 ^ 51).
  { split; [apply Z.div_pos; lia|apply Z.div_lt_upper_bound; lia]. }
  lia.
Qed.

#[global] Instance RefLaws : KernelLaws RefKernel.
Proof.
  split; cbn [reduced FeOne FeAdd FeSub FeNeg FeMul FeSquare FeToBytes
              FeFromBytes fieldElementFromDecimal D RefKernel].
  - intros a Ha. rewrite Ha. apply fe_of_F_uint64.
  - split; [apply ref_reduced_fe_of_F|apply feval_fe_of_F].
  - intros a b _ _. split; [apply ref_reduced_fe_of_F|apply feval_fe_of_F].
  - intros a b _ _. split; [apply ref_reduced_fe_of_F|apply feval_fe_of_F].
  - intros a _. split; [apply ref_reduced_fe_of_F|apply feval_fe_of_F].
  - intros a b _ _. split; [apply ref_reduced_fe_of_F|apply feval_fe_of_F].
  - intros a _. split; [apply ref_reduced_fe_of_F|apply feval_fe_of_F].
  - reflexivity.
  - intros bs _. split; [apply ref_reduced_fe_of_F|].
    intros Hlt. unfold ref_from_bytes. rewrite feval_fe_of_F. unfold F_of.
    rewrite Z.mod_small; [reflexivity|].
    assert (0 <= le_int bs).
    { clear. induction bs as [|b bs IH]; cbn [le_int]; [lia|].
      pose proof (byte_val_range b). lia. }
    unfold p in Hlt. lia.
  - intros s. split; [apply ref_reduced_fe_of_F|apply feval_fe_of_F].
  - split; [apply ref_reduced_fe_of_F|apply feval_fe_of_F].
Qed.

(** * Properties of the field layer *)

Section FieldLayerClaims.
Context {K : Kernel} {L : KernelLaws K}.
Local Open Scope Zmod_scope.

Lemma F_div_iff (a u v : F) : v <> 0 -> (a = Zmod.mdiv u v <-> a * v = u).
Proof.
  intros Hv. split; intros H.
  - rewrite H. field. exact Hv.
  - rewrite <- H. field. exact Hv.
Qed.

(** C1.  For reduced field elements u, v with v <> 0, FeSqrtRatio(u, v)
    returns a flag wasSquare in {0,1} and a reduced field element r with
    IsNegative(r) = 0.  When wasSquare = 1, r^2 * v = u.  When wasSquare = 0,
    u/v has no square root in the field and r^2 * v = i * u, that is r is a
    square root of i * u / v, where i is the fixed square root of -1. *)
Theorem FeSqrtRatio_correct (u v : FieldElement) :
  reduced u -> reduced v -> feval v <> 0 ->
  let wasSquare := fst (FeSqrtRatio u v) in
  let r := snd (FeSqrtRatio u v) in
  (wasSquare = 0 \/ wasSquare = 1)%Z /\
  reduced r /\
  FeIsNegative r = 0%Z /\
  (wasSquare = 1%Z -> (feval r * feval r) * feval v = feval u) /\
  (wasSquare = 0%Z ->
     (forall y : F, y * y <> Zmod.mdiv (feval u) (feval v)) /\
     (feval r * feval r) * feval v = F_i * feval u /\
     feval r * feval r = Zmod.mdiv (F_i * feval u) (feval v)).
Proof.
  intros Hu Hv Hnz wasSquare r0.
  destruct (FeSqrtRatio_val u v Hu Hv) as (Hr & Ews & Er).
  destruct (F_sqrt_ratio_spec (feval u) (feval v) Hnz) as (Hflag & Hneg & H1 & H0).
  subst wasSquare r0. rewrite Ews, Er, (FeIsNegative_val _ Hr), Er.
  split; [exact Hflag|]. split; [exact Hr|]. split; [exact Hneg|].
  split; [exact H1|]. intros Hws. destruct (H0 Hws) as [E Hno].
  split; [|split; [exact E|]].
  - intros y Hy. apply (Hno y). now apply F_div_iff.
  - now apply F_div_iff.
Qed.

(** C5.  For every reduced field element z, fePow22523 returns the reduced
    representation of z^((p-5)/8).  The kernel calls it makes are the same
    for every z, and the chain they form, read off the calls themselves, has
    squaring runs of lengths 1, 2, 1, 5, 10, 20, 10, 50, 100, 50, 2 (a run
    being the consecutive squarings into one destination), with the twelve
    multiplications placed as listed: the first two runs are adjacent, two
    multiplications follow them, and one multiplication follows every
    later run.  Every call, whether [out] and [z] are one object of the
    caller or two, leaves this element in [out] and makes this chain. *)
Theorem fePow22523_correct (z : FieldElement) :
  reduced z ->
  reduced (fePow22523 z) /\
  feval (fePow22523 z) = feval z ^ ((p - 5) / 8) /\
  (forall out zp m, zp = Oarg0 \/ zp = Oarg1 -> load zp m = z ->
     load out (fst (fePow22523_call out zp m)) = fePow22523 z /\
     chain_shape (snd (fePow22523_call out zp m))
       = chain_shape (snd (fePow22523_logged z))) /\
  (forall z', snd (fePow22523_logged z') = snd (fePow22523_logged z)) /\
  chain_shape (snd (fePow22523_logged z)) =
    [Squarings 1; Squarings 2; Multiplication; Multiplication;
     Squarings 1; Multiplication; Squarings 5; Multiplication;
     Squarings 10; Multiplication; Squarings 20; Multiplication;
     Squarings 10; Multiplication; Squarings 50; Multiplication;
     Squarings 100; Multiplication; Squarings 50; Multiplication;
     Squarings 2; Multiplication] /\
  squaring_runs (snd (fePow22523_logged z))
    = [1; 2; 1; 5; 10; 20; 10; 50; 100; 50; 2]%nat.
Proof.
  intros Hz. destruct (fePow22523_val z Hz) as [Hr E].
  split; [exact Hr|]. split; [exact E|].
  split; [intros out zp m Hzp <-; now apply fePow22523_call_any|].
  split; [intros z'; apply fePow22523_calls_fixed|].
  split; [apply fePow22523_chain|].
  unfold squaring_runs. rewrite fePow22523_chain. reflexivity.
Qed.

(** C6.  For reduced v <> 0 and reduced r with IsNegative(r) = 0, calling
    FeSqrtRatio on u = r^2 * v and v returns wasSquare = 1 and the field
    element r. *)
Theorem FeSqrtRatio_round_trip (r0 v : FieldElement) :
  reduced r0 -> reduced v -> feval v <> 0 -> FeIsNegative r0 = 0%Z ->
  let u := FeMul (FeSquare r0) v in
  fst (FeSqrtRatio u v) = 1%Z /\
  feval (snd (FeSqrtRatio u v)) = feval r0 /\
  FeEqual (snd (FeSqrtRatio u v)) r0 = 1%Z.
Proof.
  intros Hr Hv Hnz Hneg u.
  destruct (FeSquare_ok r0 Hr) as [Hs Es].
  destruct (FeMul_ok _ _ Hs Hv) as [Hu Eu]. fold u in Hu, Eu.
  destruct (FeSqrtRatio_val u v Hu Hv) as (Hres & Ews & Er).
  rewrite FeIsNegative_val in Hneg by exact Hr.
  rewrite Ews, Er, Eu, Es, F_sqrt_ratio_round_trip by assumption.
  cbn [fst snd]. split; [reflexivity|]. split; [reflexivity|].
  rewrite FeEqual_val by assumption. rewrite Er, Eu, Es.
  rewrite F_sqrt_ratio_round_trip by assumption. apply F_eq_refl.
Qed.

(** C9.  For every reduced v (zero or not) and every reduced
    representation u of zero, FeSqrtRatio(u, v) returns wasSquare = 1 and
    the root zero. *)
Theorem FeSqrtRatio_zero_numerator (u v : FieldElement) :
  reduced u -> reduced v -> feval u = 0 ->
  fst (FeSqrtRatio u v) = 1%Z /\ feval (snd (FeSqrtRatio u v)) = 0.
Proof.
  intros Hu Hv E. destruct (FeSqrtRatio_val u v Hu Hv) as (_ & Ews & Er).
  rewrite Ews, Er, E, F_sqrt_ratio_0. split; reflexivity.
Qed.

End FieldLayerClaims.

(** ** Runs on the reference kernel *)

Lemma ref_reduced_fe_of_Z z : 0 <= z < p -> @reduced RefKernel (fe_of_Z z).
Proof.
  intros Hz. cbn [reduced RefKernel].
  replace (fe_of_Z z) with (fe_of_F (F_of z)); [apply ref_reduced_fe_of_F|].
  unfold fe_of_F, F_of. rewrite Zmod.unsigned_of_Z, Z.mod_small by exact Hz.
  reflexivity.
Qed.

Lemma feval_fe_of_Z_nz z : 0 < z < p -> feval (fe_of_Z z) <> Zmod.zero.
Proof.
  intros Hz H.
  replace (fe_of_Z z) with (fe_of_F (F_of z)) in H.
  - rewrite feval_fe_of_F in H. apply (f_equal Zmod.unsigned) in H.
    unfold F_of in H. rewrite Zmod.unsigned_of_Z, Z.mod_small, Zmod.unsigned_0 in H; lia.
  - unfold fe_of_F, F_of. rewrite Zmod.unsigned_of_Z, Z.mod_small by lia. reflexivity.
Qed.

Lemma FeSqrtRatio_correct_witness :
  @reduced RefKernel (fe_of_Z 2) /\ @reduced RefKernel (fe_of_Z 1) /\
  feval (fe_of_Z 1) <> Zmod.zero /\
  let wasSquare := fst (@FeSqrtRatio RefKernel (fe_of_Z 2) (fe_of_Z 1)) in
  let r := snd (@FeSqrtRatio RefKernel (fe_of_Z 2) (fe_of_Z 1)) in
  (wasSquare = 0 \/ wasSquare = 1) /\
  @reduced RefKernel r /\
  @FeIsNegative RefKernel r = 0 /\
  (wasSquare = 1 ->
     Zmod.mul (Zmod.mul (feval r) (feval r)) (feval (fe_of_Z 1)) = feval (fe_of_Z 2)) /\
  (wasSquare = 0 ->
     (forall y : F, Zmod.mul y y <> Zmod.mdiv (feval (fe_of_Z 2)) (feval (fe_of_Z 1))) /\
     Zmod.mul (Zmod.mul (feval r) (feval r)) (feval (fe_of_Z 1))
       = Zmod.mul F_i (feval (fe_of_Z 2)) /\
     Zmod.mul (feval r) (feval r)
       = Zmod.mdiv (Zmod.mul F_i (feval (fe_of_Z 2))) (feval (fe_of_Z 1))).
Proof.
  assert (H2 : @reduced RefKernel (fe_of_Z 2)) by (apply ref_reduced_fe_of_Z; unfold p; lia).
  assert (H1 : @reduced RefKernel (fe_of_Z 1)) by (apply ref_reduced_fe_of_Z; unfold p; lia).
  assert (Hnz : feval (fe_of_Z 1) <> Zmod.zero) by (apply feval_fe_of_Z_nz; unfold p; lia).
  split; [exact H2|]. split; [exact H1|]. split; [exact Hnz|].
  exact (@FeSqrtRatio_correct RefKernel RefLaws (fe_of_Z 2) (fe_of_Z 1) H2 H1 Hnz).
Defined.

Lemma fePow22523_correct_witness :
  @reduced RefKernel (fe_of_Z 2) /\
  @reduced RefKernel (@fePow22523 RefKernel (fe_of_Z 2)) /\
  feval (@fePow22523 RefKernel (fe_of_Z 2)) = Zmod.pow (feval (fe_of_Z 2)) ((p - 5) / 8) /\
  (forall out zp m, zp = Oarg0 \/ zp = Oarg1 -> load zp m = fe_of_Z 2 ->
     load out (fst (@fePow22523_call RefKernel out zp m))
       = @fePow22523 RefKernel (fe_of_Z 2) /\
     chain_shape (snd (@fePow22523_call RefKernel out zp m))
       = chain_shape (snd (@fePow22523_logged RefKernel (fe_of_Z 2)))) /\
  (forall z', snd (@fePow22523_logged RefKernel z')
               = snd (@fePow22523_logged RefKernel (fe_of_Z 2))) /\
  chain_shape (snd (@fePow22523_logged RefKernel (fe_of_Z 2))) =
    [Squarings 1; Squarings 2; Multiplication; Multiplication;
     Squarings 1; Multiplication; Squarings 5; Multiplication;
     Squarings 10; Multiplication; Squarings 20; Multiplication;
     Squarings 10; Multiplication; Squarings 50; Multiplication;
     Squarings 100; Multiplication; Squarings 50; Multiplication;
     Squarings 2; Multiplication] /\
  squaring_runs (snd (@fePow22523_logged RefKernel (fe_of_Z 2)))
    = [1; 2; 1; 5; 10; 20; 10; 50; 100; 50; 2]%nat.
Proof.
  assert (H2 : @reduced RefKernel (fe_of_Z 2)) by (apply ref_reduced_fe_of_Z; unfold p; lia).
  split; [exact H2|].
  exact (@fePow22523_correct RefKernel RefLaws (fe_of_Z 2) H2).
Defined.

Lemma FeSqrtRatio_round_trip_witness :
  @reduced RefKernel (fe_of_Z 6) /\ @reduced RefKernel (fe_of_Z 5) /\
  feval (fe_of_Z 5) <> Zmod.zero /\ @FeIsNegative RefKernel (fe_of_Z 6) = 0 /\
  let u := @FeMul RefKernel (@FeSquare RefKernel (fe_of_Z 6)) (fe_of_Z 5) in
  fst (@FeSqrtRatio RefKernel u (fe_of_Z 5)) = 1 /\
  feval (snd (@FeSqrtRatio RefKernel u (fe_of_Z 5))) = feval (fe_of_Z 6) /\
  @FeEqual RefKernel (snd (@FeSqrtRatio RefKernel u (fe_of_Z 5))) (fe_of_Z 6) = 1.
Proof.
  assert (H6 : @reduced RefKernel (fe_of_Z 6)) by (apply ref_reduced_fe_of_Z; unfold p; lia).
  assert (H5 : @reduced RefKernel (fe_of_Z 5)) by (apply ref_reduced_fe_of_Z; unfold p; lia).
  assert (Hnz : feval (fe_of_Z 5) <> Zmod.zero) by (apply feval_fe_of_Z_nz; unfold p; lia).
  assert (Hneg : @FeIsNegative RefKernel (fe_of_Z 6) = 0) by (vm_compute; reflexivity).
  split; [exact H6|]. split; [exact H5|]. split; [exact Hnz|]. split; [exact Hneg|].
  exact (@FeSqrtRatio_round_trip RefKernel RefLaws (fe_of_Z 6) (fe_of_Z 5) H6 H5 Hnz Hneg).
Defined.

Lemma FeSqrtRatio_zero_numerator_witness :
  @reduced RefKernel (fe_of_Z 0) /\ @reduced RefKernel (fe_of_Z 7) /\
  feval (fe_of_Z 0) = Zmod.zero /\
  fst (@FeSqrtRatio RefKernel (fe_of_Z 0) (fe_of_Z 7)) = 1 /\
  feval (snd (@FeSqrtRatio RefKernel (fe_of_Z 0) (fe_of_Z 7))) = Zmod.zero.
Proof.
  assert (H0 : @reduced RefKernel (fe_of_Z 0)) by (apply ref_reduced_fe_of_Z; unfold p; lia).
  assert (H7 : @reduced RefKernel (fe_of_Z 7)) by (apply ref_reduced_fe_of_Z; unfold p; lia).
  assert (E : feval (fe_of_Z 0) = Zmod.zero) by (apply Zmod.unsigned_inj; vm_compute; reflexivity).
  split; [exact H0|]. split; [exact H7|]. split; [exact E|].
  exact (@FeSqrtRatio_zero_numerator RefKernel RefLaws (fe_of_Z 0) (fe_of_Z 7) H0 H7 E).
Defined.

(** * The Elligator map on field values *)

Definition F_d : F := F_of curve_d.

Definition F_sqrtADMinusOne : F :=
  F_of 25063068953384623474111414158702152701244531502492656460079210482610430750235.

Definition F_oneMinusDSQ : F :=
  F_of 1159843021668779879193775521855586647937357759715417654439879720876111806838.

Definition F_dMinusOneSQ : F :=
  F_of 40440834346308536858101042469323190826248399146238708352240133220865137265952.

(** Extended coordinates as field values. *)
Record F_point : Type := mkFP { fX : F; fY : F; fZ : F; fT : F }.

Definition ge_val (P : ExtendedGroupElement) : F_point :=
  mkFP (feval (geX P)) (feval (geY P)) (feval (geZ P)) (feval (geT P)).

Definition F_map_to_point (t : F) : F_point :=
  let r := Zmod.mul (Zmod.mul t t) F_i in
  let u := Zmod.mul (Zmod.add r Zmod.one) F_oneMinusDSQ in
  let v := Zmod.mul (Zmod.sub (Zmod.opp Zmod.one) (Zmod.mul r F_d)) (Zmod.add r F_d) in
  let wasSquare := fst (F_sqrt_ratio u v) in
  let s := snd (F_sqrt_ratio u v) in
  let sPrime := Zmod.opp (F_abs (Zmod.mul s t)) in
  let s := if wasSquare =? 1 then s else sPrime in
  let c := if wasSquare =? 1 then Zmod.opp Zmod.one else r in
  let N := Zmod.sub (Zmod.mul (Zmod.mul (Zmod.sub r Zmod.one) c) F_dMinusOneSQ) v in
  let w0 := Zmod.add (Zmod.mul s v) (Zmod.mul s v) in
  let w1 := Zmod.mul N F_sqrtADMinusOne in
  let w2 := Zmod.sub Zmod.one (Zmod.mul s s) in
  let w3 := Zmod.add Zmod.one (Zmod.mul s s) in
  mkFP (Zmod.mul w0 w3) (Zmod.mul w2 w1) (Zmod.mul w1 w3) (Zmod.mul w0 w2).

Section Denotation.
Context {K : Kernel} {L : KernelLaws K}.

(** [a] is a bounded representation of the field value [x]. *)
Definition denotes (a : FieldElement) (x : F) : Prop := reduced a /\ feval a = x.

Definition ge_reduced (P : ExtendedGroupElement) : Prop :=
  reduced (geX P) /\ reduced (geY P) /\ reduced (geZ P) /\ reduced (geT P).

Lemma denotes_self a : reduced a -> denotes a (feval a).
Proof. now split. Qed.

Lemma denotes_one : denotes FeOne Zmod.one.
Proof. exact FeOne_ok. Qed.

Lemma denotes_D : denotes D F_d.
Proof. exact D_ok. Qed.

Lemma denotes_add a b x y :
  denotes a x -> denotes b y -> denotes (FeAdd a b) (Zmod.add x y).
Proof. intros [Ha <-] [Hb <-]. now apply FeAdd_ok. Qed.

Lemma denotes_sub a b x y :
  denotes a x -> denotes b y -> denotes (FeSub a b) (Zmod.sub x y).
Proof. intros [Ha <-] [Hb <-]. now apply FeSub_ok. Qed.

Lemma denotes_neg a x : denotes a x -> denotes (FeNeg a) (Zmod.opp x).
Proof. intros [Ha <-]. now apply FeNeg_ok. Qed.

Lemma denotes_mul a b x y :
  denotes a x -> denotes b y -> denotes (FeMul a b) (Zmod.mul x y).
Proof. intros [Ha <-] [Hb <-]. now apply FeMul_ok. Qed.

Lemma denotes_square a x : denotes a x -> denotes (FeSquare a) (Zmod.mul x x).
Proof. intros [Ha <-]. now apply FeSquare_ok. Qed.

Lemma denotes_abs a x : denotes a x -> denotes (FeAbs a) (F_abs x).
Proof. intros [Ha <-]. now apply FeAbs_val. Qed.

Lemma denotes_select a b x y c :
  denotes a x -> denotes b y -> c = 0 \/ c = 1 ->
  denotes (FeSelect a b c) (if c =? 1 then x else y).
Proof.
  intros [Ha <-] [Hb <-] Hc. rewrite FeSelect_flag by assumption.
  destruct (c =? 1); now split.
Qed.

Lemma denotes_sqrt_ratio u v x y :
  denotes u x -> denotes v y ->
  denotes (snd (FeSqrtRatio u v)) (snd (F_sqrt_ratio x y)).
Proof. intros [Hu <-] [Hv <-]. destruct (FeSqrtRatio_val u v Hu Hv) as (? & ? & ?). now split. Qed.

Lemma flag_sqrt_ratio u v x y :
  denotes u x -> denotes v y ->
  fst (FeSqrtRatio u v) = fst (F_sqrt_ratio x y).
Proof. intros [Hu <-] [Hv <-]. now destruct (FeSqrtRatio_val u v Hu Hv) as (? & ? & ?). Qed.

Lemma F_sqrt_ratio_flag x y :
  fst (F_sqrt_ratio x y) = 0 \/ fst (F_sqrt_ratio x y) = 1.
Proof. rewrite F_sqrt_ratio_unfold. cbv zeta. cbn [fst]. apply lor_F_eq_flag. Qed.

Lemma denotes_sqrtM1 : denotes sqrtM1 F_i.
Proof. exact SQRT_M1_val. Qed.

Lemma denotes_sqrtADMinusOne : denotes sqrtADMinusOne F_sqrtADMinusOne.
Proof.
  unfold sqrtADMinusOne. destruct (fieldElementFromDecimal_ok
    "25063068953384623474111414158702152701244531502492656460079210482610430750235")
    as [Hr E].
  split; [exact Hr|]. rewrite E. apply Zmod.unsigned_inj. vm_compute. reflexivity.
Qed.

Lemma denotes_oneMinusDSQ : denotes oneMinusDSQ F_oneMinusDSQ.
Proof.
  unfold oneMinusDSQ. destruct (fieldElementFromDecimal_ok
    "1159843021668779879193775521855586647937357759715417654439879720876111806838")
    as [Hr E].
  split; [exact Hr|]. rewrite E. apply Zmod.unsigned_inj. vm_compute. reflexivity.
Qed.

Lemma denotes_dMinusOneSQ : denotes dMinusOneSQ F_dMinusOneSQ.
Proof.
  unfold dMinusOneSQ. destruct (fieldElementFromDecimal_ok
    "40440834346308536858101042469323190826248399146238708352240133220865137265952")
    as [Hr E].
  split; [exact Hr|]. rewrite E. apply Zmod.unsigned_inj. vm_compute. reflexivity.
Qed.

End Denotation.

Create HintDb denote.
#[global] Hint Resolve denotes_one denotes_D denotes_add denotes_sub denotes_neg
  denotes_mul denotes_square denotes_abs denotes_sqrt_ratio denotes_sqrtM1
  denotes_sqrtADMinusOne denotes_oneMinusDSQ denotes_dMinusOneSQ : denote.

Section MapToPointCode.
Context {K : Kernel} {L : KernelLaws K}.

(** [mapToPoint] computes [F_map_to_point] on the value of its operand. *)
Theorem mapToPoint_val t :
  reduced t ->
  ge_reduced (mapToPoint t) /\ ge_val (mapToPoint t) = F_map_to_point (feval t).
Proof.
  intros Ht. pose proof (denotes_self t Ht) as Dt.
  set (x := feval t) in *.
  assert (Dr : denotes (FeMul (FeSquare t) sqrtM1) (Zmod.mul (Zmod.mul x x) F_i))
    by eauto with denote.
  set (rr := FeMul (FeSquare t) sqrtM1) in *.
  set (r := Zmod.mul (Zmod.mul x x) F_i) in *.
  assert (Du : denotes (FeMul (FeAdd rr FeOne) oneMinusDSQ)
                 (Zmod.mul (Zmod.add r Zmod.one) F_oneMinusDSQ)) by eauto with denote.
  assert (Dv : denotes (FeMul (FeSub (FeNeg FeOne) (FeMul rr D)) (FeAdd rr D))
                 (Zmod.mul (Zmod.sub (Zmod.opp Zmod.one) (Zmod.mul r F_d)) (Zmod.add r F_d)))
    by eauto 10 with denote.
  set (uu := FeMul (FeAdd rr FeOne) oneMinusDSQ) in *.
  set (vv := FeMul (FeSub (FeNeg FeOne) (FeMul rr D)) (FeAdd rr D)) in *.
  set (u := Zmod.mul (Zmod.add r Zmod.one) F_oneMinusDSQ) in *.
  set (v := Zmod.mul (Zmod.sub (Zmod.opp Zmod.one) (Zmod.mul r F_d)) (Zmod.add r F_d)) in *.
  pose proof (denotes_sqrt_ratio uu vv u v Du Dv) as Ds.
  pose proof (flag_sqrt_ratio uu vv u v Du Dv) as Ef.
  pose proof (F_sqrt_ratio_flag u v) as Hflag.
  unfold mapToPoint, F_map_to_point. cbv zeta. unfold feSqrtRatio.
  fold rr uu vv. fold x. fold r. fold u. fold v.
  rewrite (surjective_pairing (FeSqrtRatio uu vv)).
  rewrite Ef.
  set (ws := fst (F_sqrt_ratio u v)) in *.
  set (ss := snd (FeSqrtRatio uu vv)) in *.
  set (s := snd (F_sqrt_ratio u v)) in *.
  assert (Dsel : denotes (FeSelect ss (FeNeg (FeAbs (FeMul ss t))) ws)
                   (if ws =? 1 then s else Zmod.opp (F_abs (Zmod.mul s x)))).
  { apply denotes_select; eauto with denote. }
  assert (Dc : denotes (FeSelect (FeNeg FeOne) rr ws)
                 (if ws =? 1 then Zmod.opp Zmod.one else r)).
  { apply denotes_select; eauto with denote. }
  set (s1 := FeSelect ss (FeNeg (FeAbs (FeMul ss t))) ws) in *.
  set (c1 := FeSelect (FeNeg FeOne) rr ws) in *.
  set (sF := if ws =? 1 then s else Zmod.opp (F_abs (Zmod.mul s x))) in *.
  set (cF := if ws =? 1 then Zmod.opp Zmod.one else r) in *.
  assert (DN : denotes (FeSub (FeMul (FeMul (FeSub rr FeOne) c1) dMinusOneSQ) vv)
                 (Zmod.sub (Zmod.mul (Zmod.mul (Zmod.sub r Zmod.one) cF) F_dMinusOneSQ) v))
    by eauto 10 with denote.
  set (NN := FeSub (FeMul (FeMul (FeSub rr FeOne) c1) dMinusOneSQ) vv) in *.
  set (N := Zmod.sub (Zmod.mul (Zmod.mul (Zmod.sub r Zmod.one) cF) F_dMinusOneSQ) v) in *.
  assert (D0 : denotes (FeAdd (FeMul s1 vv) (FeMul s1 vv))
                 (Zmod.add (Zmod.mul sF v) (Zmod.mul sF v))) by eauto with denote.
  assert (D1 : denotes (FeMul NN sqrtADMinusOne) (Zmod.mul N F_sqrtADMinusOne))
    by eauto with denote.
  assert (D2 : denotes (FeSub FeOne (FeSquare s1)) (Zmod.sub Zmod.one (Zmod.mul sF sF)))
    by eauto with denote.
  assert (D3 : denotes (FeAdd FeOne (FeSquare s1)) (Zmod.add Zmod.one (Zmod.mul sF sF)))
    by eauto with denote.
  destruct (denotes_mul _ _ _ _ D0 D3) as [RX EX].
  destruct (denotes_mul _ _ _ _ D2 D1) as [RY EY].
  destruct (denotes_mul _ _ _ _ D1 D3) as [RZ EZ].
  destruct (denotes_mul _ _ _ _ D0 D2) as [RT ET].
  split.
  - repeat split; assumption.
  - unfold ge_val. cbn [geX geY geZ geT]. now rewrite EX, EY, EZ, ET.
Qed.

End MapToPointCode.

(** ** Properties of the map *)

Section MapToPointFacts.
Local Open Scope Zmod_scope.

Lemma F_map_to_point_shape t :
  exists w0 w1 w2 w3 : F,
    F_map_to_point t = mkFP (w0 * w3) (w2 * w1) (w1 * w3) (w0 * w2).
Proof. unfold F_map_to_point. cbv zeta. eauto. Qed.

Lemma F_map_to_point_invariant t :
  fX (F_map_to_point t) * fY (F_map_to_point t)
  = fZ (F_map_to_point t) * fT (F_map_to_point t).
Proof.
  destruct (F_map_to_point_shape t) as (w0 & w1 & w2 & w3 & ->).
  cbn [fX fY fZ fT]. ring.
Qed.

Lemma F_map_to_point_opp t : F_map_to_point (- t) = F_map_to_point t.
Proof.
  unfold F_map_to_point. cbv zeta.
  replace (- t * - t) with (t * t) by ring.
  generalize (t * t * F_i). intros r.
  generalize (F_sqrt_ratio ((r + 1) * F_oneMinusDSQ) ((- (1) - r * F_d) * (r + F_d))).
  intros [ws s]. cbn [fst snd].
  replace (s * - t) with (- (s * t)) by ring.
  rewrite F_abs_opp. reflexivity.
Qed.

End MapToPointFacts.

Section MapToPointClaims.
Context {K : Kernel} {L : KernelLaws K}.
Local Open Scope Zmod_scope.

(** C8.  For every reduced field element t, the extended coordinates
    (X, Y, Z, T) produced by mapToPoint satisfy X * Y = Z * T. *)
Theorem mapToPoint_extended_invariant (t : FieldElement) :
  reduced t ->
  let P := mapToPoint t in
  feval (geX P) * feval (geY P) = feval (geZ P) * feval (geT P).
Proof.
  intros Ht P. destruct (mapToPoint_val t Ht) as [_ E].
  pose proof (F_map_to_point_invariant (feval t)) as H.
  rewrite <- E in H. exact H.
Qed.

(** C10.  For every reduced field element t, mapToPoint(t) and
    mapToPoint(-t) have the same extended coordinates, coordinate for
    coordinate, as field elements; for t <> 0 the two inputs differ, so the
    map is not injective. *)
Theorem mapToPoint_neg (t : FieldElement) :
  reduced t ->
  let P := mapToPoint t in
  let Q := mapToPoint (FeNeg t) in
  feval (geX Q) = feval (geX P) /\ feval (geY Q) = feval (geY P) /\
  feval (geZ Q) = feval (geZ P) /\ feval (geT Q) = feval (geT P) /\
  FeEqual (geX Q) (geX P) = 1%Z /\ FeEqual (geY Q) (geY P) = 1%Z /\
  FeEqual (geZ Q) (geZ P) = 1%Z /\ FeEqual (geT Q) (geT P) = 1%Z /\
  (feval t <> 0 -> FeEqual (FeNeg t) t = 0%Z).
Proof.
  intros Ht P Q. destruct (FeNeg_ok t Ht) as [Hn En].
  destruct (mapToPoint_val t Ht) as [(RX & RY & RZ & RT) E].
  destruct (mapToPoint_val (FeNeg t) Hn) as [(RX' & RY' & RZ' & RT') E'].
  rewrite En, F_map_to_point_opp, <- E in E'.
  pose proof (f_equal fX E') as EX. pose proof (f_equal fY E') as EY.
  pose proof (f_equal fZ E') as EZ. pose proof (f_equal fT E') as ET.
  cbn [ge_val fX fY fZ fT] in EX, EY, EZ, ET. fold P Q in EX, EY, EZ, ET.
  rewrite !FeEqual_val by assumption. fold P Q. rewrite EX, EY, EZ, ET, !F_eq_refl.
  repeat (split; [reflexivity|]).
  intros Hnz. rewrite En. apply F_eq_neq. intros H.
  apply Hnz. now apply F_opp_eq_self.
Qed.

End MapToPointClaims.

Lemma mapToPoint_extended_invariant_witness :
  @reduced RefKernel (fe_of_Z 2) /\
  let P := @mapToPoint RefKernel (fe_of_Z 2) in
  Zmod.mul (feval (geX P)) (feval (geY P)) = Zmod.mul (feval (geZ P)) (feval (geT P)).
Proof.
  assert (H2 : @reduced RefKernel (fe_of_Z 2)) by (apply ref_reduced_fe_of_Z; unfold p; lia).
  split; [exact H2|].
  exact (@mapToPoint_extended_invariant RefKernel RefLaws (fe_of_Z 2) H2).
Defined.

Lemma mapToPoint_neg_witness :
  @reduced RefKernel (fe_of_Z 2) /\
  let P := @mapToPoint RefKernel (fe_of_Z 2) in
  let Q := @mapToPoint RefKernel (@FeNeg RefKernel (fe_of_Z 2)) in
  feval (geX Q) = feval (geX P) /\ feval (geY Q) = feval (geY P) /\
  feval (geZ Q) = feval (geZ P) /\ feval (geT Q) = feval (geT P) /\
  @FeEqual RefKernel (geX Q) (geX P) = 1 /\ @FeEqual RefKernel (geY Q) (geY P) = 1 /\
  @FeEqual RefKernel (geZ Q) (geZ P) = 1 /\ @FeEqual RefKernel (geT Q) (geT P) = 1 /\
  (feval (fe_of_Z 2) <> Zmod.zero ->
   @FeEqual RefKernel (@FeNeg RefKernel (fe_of_Z 2)) (fe_of_Z 2) = 0).
Proof.
  assert (H2 : @reduced RefKernel (fe_of_Z 2)) by (apply ref_reduced_fe_of_Z; unfold p; lia).
  split; [exact H2|].
  exact (@mapToPoint_neg RefKernel RefLaws (fe_of_Z 2) H2).
Defined.

(** * The curve *)

(** Extended coordinates of a point of -x^2 + y^2 = 1 + d x^2 y^2. *)
Definition F_on_curve (P : F_point) : Prop :=
  fZ P <> Zmod.zero /\
  Zmod.mul (fX P) (fY P) = Zmod.mul (fZ P) (fT P) /\
  Zmod.sub (Zmod.mul (fY P) (fY P)) (Zmod.mul (fX P) (fX P))
  = Zmod.add (Zmod.mul (fZ P) (fZ P)) (Zmod.mul F_d (Zmod.mul (fT P) (fT P))).

Section Residues.
Local Open Scope Zmod_scope.
Implicit Types x y a b : F.

(** One direction of Euler's criterion. *)
Lemma F_euler_nonsquare a : a ^ ((p - 1) / 2) = - (1) -> forall y, y * y <> a.
Proof.
  intros Ha y Hy.
  assert (Hynz : y <> 0).
  { intros ->. rewrite <- Hy in Ha. replace (0 * 0) with (0 : F) in Ha by ring.
    rewrite Zmod.pow_0_l in Ha by (vm_compute; discriminate).
    apply (f_equal Zmod.unsigned) in Ha. vm_compute in Ha. discriminate. }
  rewrite <- Hy, <- Zmod.pow_2_r in Ha.
  rewrite <- Zmod.pow_mul_r_nonneg in Ha by (apply Z.leb_le; vm_compute; reflexivity).
  replace (2 * ((p - 1) / 2))%Z with (p - 1)%Z in Ha by (vm_compute; reflexivity).
  rewrite F_fermat in Ha by exact Hynz.
  apply (f_equal Zmod.unsigned) in Ha. vm_compute in Ha. discriminate.
Qed.

Lemma F_d_nonsquare : forall y, y * y <> F_d.
Proof. apply F_euler_nonsquare. apply Zmod.unsigned_inj. vm_compute. reflexivity. Qed.

Lemma F_opp_d_nonsquare : forall y, y * y <> - F_d.
Proof. apply F_euler_nonsquare. apply Zmod.unsigned_inj. vm_compute. reflexivity. Qed.

Lemma F_nonsquare_ratio a n m :
  (forall y, y * y <> a) -> n * n = a * (m * m) -> m = 0.
Proof.
  intros Ha H. destruct (Zmod.eqb_spec m 0) as [E|E]; [exact E|exfalso].
  apply (Ha (Zmod.mdiv n m)).
  transitivity (Zmod.mdiv (n * n) (m * m)); [field; exact E|].
  rewrite H. field. exact E.
Qed.

Lemma F_sqrtADMinusOne_sq : F_sqrtADMinusOne * F_sqrtADMinusOne = - (F_d + 1).
Proof. apply Zmod.unsigned_inj. vm_compute. reflexivity. Qed.

Lemma F_oneMinusDSQ_eq : F_oneMinusDSQ = 1 - F_d * F_d.
Proof. apply Zmod.unsigned_inj. vm_compute. reflexivity. Qed.

Lemma F_dMinusOneSQ_eq : F_dMinusOneSQ = (F_d - 1) * (F_d - 1).
Proof. apply Zmod.unsigned_inj. vm_compute. reflexivity. Qed.

Lemma F_d_facts : F_d <> 0 /\ F_d - 1 <> 0 /\ F_d + 1 <> 0.
Proof.
  repeat split; intros H; apply (f_equal Zmod.unsigned) in H; vm_compute in H;
    discriminate.
Qed.

Lemma F_sqrtADMinusOne_nz : F_sqrtADMinusOne <> 0.
Proof. intros H. apply (f_equal Zmod.unsigned) in H. vm_compute in H. discriminate. Qed.

End Residues.

(** ** The Elligator map lands on the curve *)

Section ElligatorOnCurve.
Local Open Scope Zmod_scope.
Implicit Types r u v s c t N : F.

(** The relation between [N], [v] and [s] behind the curve equation. *)
Lemma elligator_identity r u v s c :
  u = (r + 1) * (1 - F_d * F_d) ->
  v = (- (1) - r * F_d) * (r + F_d) ->
  (s * s * v = u /\ c = - (1)) \/ (s * s * v = r * u /\ c = r) ->
  let N := (r - 1) * c * ((F_d - 1) * (F_d - 1)) - v in
  (F_d + 1) * (N * N)
  = (v + s * s * v) * (v + s * s * v) + F_d * ((v - s * s * v) * (v - s * s * v)).
Proof.
  intros Hu Hv [[Hs Hc]|[Hs Hc]] N; subst N; rewrite Hs, Hc, Hu, Hv;
    generalize F_d; intros d.
  - ring.
  - ring.
Qed.

Lemma elligator_N_nz v s N :
  v <> 0 ->
  (F_d + 1) * (N * N)
  = (v + s * s * v) * (v + s * s * v) + F_d * ((v - s * s * v) * (v - s * s * v)) ->
  N <> 0.
Proof.
  intros Hvnz HK HN0. rewrite HN0 in HK.
  assert (E : (v + s * s * v) * (v + s * s * v)
              = - F_d * ((v - s * s * v) * (v - s * s * v))).
  { transitivity ((v + s * s * v) * (v + s * s * v)
                  + F_d * ((v - s * s * v) * (v - s * s * v))
                  - F_d * ((v - s * s * v) * (v - s * s * v))); [ring|].
    rewrite <- HK. ring. }
  pose proof (F_nonsquare_ratio _ _ _ F_opp_d_nonsquare E) as Hm.
  rewrite Hm in E. replace (- F_d * (0 * 0)) with (0 : F) in E by ring.
  assert (Hp : v + s * s * v = 0) by (destruct (F_mul_eq_0 _ _ E); assumption).
  assert (E2 : (1 + 1) * v = 0).
  { transitivity ((v + s * s * v) + (v - s * s * v)); [ring|rewrite Hp, Hm; ring]. }
  destruct (F_mul_eq_0 _ _ E2) as [H2|H2]; [exact (F_2_nz H2)|exact (Hvnz H2)].
Qed.

Lemma elligator_w3_nz v s N :
  v <> 0 ->
  (F_d + 1) * (N * N)
  = (v + s * s * v) * (v + s * s * v) + F_d * ((v - s * s * v) * (v - s * s * v)) ->
  1 + s * s <> 0.
Proof.
  intros Hvnz HK H3.
  assert (Ess : s * s = - (1)).
  { transitivity ((1 + s * s) - 1); [ring|rewrite H3; ring]. }
  rewrite Ess in HK.
  assert (E : (N * F_sqrtADMinusOne) * (N * F_sqrtADMinusOne)
              = - F_d * (((1 + 1) * v) * ((1 + 1) * v))).
  { transitivity (- ((F_d + 1) * (N * N))).
    - transitivity (N * N * (F_sqrtADMinusOne * F_sqrtADMinusOne)); [ring|].
      rewrite F_sqrtADMinusOne_sq. ring.
    - rewrite HK. ring. }
  pose proof (F_nonsquare_ratio _ _ _ F_opp_d_nonsquare E) as Hm.
  destruct (F_mul_eq_0 _ _ Hm) as [H2|H2]; [exact (F_2_nz H2)|exact (Hvnz H2)].
Qed.

Lemma elligator_curve_eq v s N :
  (F_d + 1) * (N * N)
  = (v + s * s * v) * (v + s * s * v) + F_d * ((v - s * s * v) * (v - s * s * v)) ->
  let w0 := s * v + s * v in
  let w1 := N * F_sqrtADMinusOne in
  let w2 := 1 - s * s in
  let w3 := 1 + s * s in
  (w2 * w1) * (w2 * w1) - (w0 * w3) * (w0 * w3)
  = (w1 * w3) * (w1 * w3) + F_d * ((w0 * w2) * (w0 * w2)).
Proof.
  intros HK w0 w1 w2 w3.
  apply Zmod.sub_eq_0_iff. subst w0 w1 w2 w3.
  transitivity
    (N * N * ((1 - s * s) * (1 - s * s) - (1 + s * s) * (1 + s * s))
       * (F_sqrtADMinusOne * F_sqrtADMinusOne)
     - (s * v + s * v) * (s * v + s * v)
       * ((1 + s * s) * (1 + s * s) + F_d * ((1 - s * s) * (1 - s * s)))).
  { ring. }
  rewrite F_sqrtADMinusOne_sq.
  transitivity
    ((1 + 1) * (1 + 1) * (s * s) * ((F_d + 1) * (N * N))
     - (1 + 1) * (1 + 1) * (s * s)
       * ((v + s * s * v) * (v + s * s * v)
          + F_d * ((v - s * s * v) * (v - s * s * v)))).
  { ring. }
  rewrite HK. ring.
Qed.

Lemma elligator_on_curve_nz r u v s c :
  u = (r + 1) * (1 - F_d * F_d) ->
  v = (- (1) - r * F_d) * (r + F_d) ->
  v <> 0 ->
  (s * s * v = u /\ c = - (1)) \/ (s * s * v = r * u /\ c = r) ->
  let N := (r - 1) * c * ((F_d - 1) * (F_d - 1)) - v in
  let w0 := s * v + s * v in
  let w1 := N * F_sqrtADMinusOne in
  let w2 := 1 - s * s in
  let w3 := 1 + s * s in
  F_on_curve (mkFP (w0 * w3) (w2 * w1) (w1 * w3) (w0 * w2)).
Proof.
  intros Hu Hv Hvnz Hs N w0 w1 w2 w3.
  pose proof (elligator_identity r u v s c Hu Hv Hs) as HK. cbv zeta in HK.
  fold N in HK. clearbody N. clear Hu Hv Hs.
  unfold F_on_curve. cbn [fX fY fZ fT]. split; [|split].
  - subst w1 w3. apply F_mul_nz; [apply F_mul_nz|].
    + exact (elligator_N_nz v s N Hvnz HK).
    + exact F_sqrtADMinusOne_nz.
    + exact (elligator_w3_nz v s N Hvnz HK).
  - subst w0 w1 w2 w3. generalize F_sqrtADMinusOne. intros A. ring.
  - exact (elligator_curve_eq v s N HK).
Qed.

Lemma elligator_on_curve_v0 r c :
  (- (1) - r * F_d) * (r + F_d) = 0 ->
  c = - (1) \/ c = r ->
  let v : F := 0 in
  let s : F := 0 in
  let N := (r - 1) * c * ((F_d - 1) * (F_d - 1)) - v in
  let w0 := s * v + s * v in
  let w1 := N * F_sqrtADMinusOne in
  let w2 := 1 - s * s in
  let w3 := 1 + s * s in
  F_on_curve (mkFP (w0 * w3) (w2 * w1) (w1 * w3) (w0 * w2)).
Proof.
  intros Hv Hc v s N w0 w1 w2 w3.
  destruct F_d_facts as (Hd0 & Hd1 & Hd2).
  assert (Hr1 : r - 1 <> 0).
  { intros H. assert (Er : r = 1) by (now apply Zmod.sub_eq_0_iff). rewrite Er in Hv.
    assert (E : (F_d + 1) * (F_d + 1) = 0).
    { transitivity (- ((- (1) - 1 * F_d) * (1 + F_d))); [ring|rewrite Hv; ring]. }
    destruct (F_mul_eq_0 _ _ E); contradiction. }
  assert (Hr0 : r <> 0).
  { intros Er. rewrite Er in Hv. apply Hd0.
    transitivity (- ((- (1) - 0 * F_d) * (0 + F_d))); [ring|rewrite Hv; ring]. }
  assert (Hcnz : c <> 0).
  { destruct Hc as [-> | ->]; [|exact Hr0].
    intros H. apply F_1_nz. transitivity (- - (1 : F)); [ring|rewrite H; ring]. }
  assert (HN : N <> 0).
  { subst N v. intros H. apply (F_mul_nz ((r - 1) * c) ((F_d - 1) * (F_d - 1))).
    - now apply F_mul_nz.
    - now apply F_mul_nz.
    - rewrite <- H. ring. }
  clearbody N. subst v s w0 w1 w2 w3.
  unfold F_on_curve. cbn [fX fY fZ fT]. split; [|split].
  - intros H. apply (F_mul_nz N F_sqrtADMinusOne HN F_sqrtADMinusOne_nz).
    rewrite <- H. ring.
  - ring.
  - ring.
Qed.

Lemma F_sqrt_ratio_v0 u : snd (F_sqrt_ratio u 0) = 0.
Proof.
  rewrite F_sqrt_ratio_unfold. cbv zeta. cbn [snd].
  assert (E0 : F_candidate u 0 = 0).
  { unfold F_candidate. replace (u * (0 * 0 * 0)) with (0 : F) by ring.
    now rewrite Zmod.mul_0_l. }
  rewrite E0. replace (0 * F_i) with (0 : F) by ring.
  destruct (Z.lor _ _ =? 1)%Z; apply F_abs_0.
Qed.

Theorem F_map_to_point_on_curve t : F_on_curve (F_map_to_point t).
Proof.
  unfold F_map_to_point. cbv zeta.
  rewrite F_oneMinusDSQ_eq, F_dMinusOneSQ_eq.
  remember (t * t * F_i) as r eqn:Er.
  remember ((r + 1) * (1 - F_d * F_d)) as u eqn:Eu.
  remember ((- (1) - r * F_d) * (r + F_d)) as v eqn:Ev.
  pose proof (F_sqrt_ratio_flag u v) as Hflag.
  destruct (Zmod.eqb_spec v 0) as [Hv0|Hvnz].
  - subst v. rewrite Hv0 in *. rewrite F_sqrt_ratio_v0.
    replace (if (fst (F_sqrt_ratio u 0) =? 1)%Z then 0 else - F_abs (0 * t))
      with (0 : F).
    + apply elligator_on_curve_v0; [exact Hv0|].
      destruct (fst (F_sqrt_ratio u 0) =? 1)%Z; auto.
    + destruct (fst (F_sqrt_ratio u 0) =? 1)%Z; [reflexivity|].
      replace (0 * t) with (0 : F) by ring. rewrite F_abs_0. ring.
  - destruct (F_sqrt_ratio_spec u v Hvnz) as (_ & _ & H1 & H0).
    destruct (F_sqrt_ratio u v) as [ws s0]. cbn [fst snd] in *.
    apply (elligator_on_curve_nz r u v); try assumption.
    destruct Hflag as [Hw|Hw]; rewrite Hw.
    + right. cbn [Z.eqb]. split; [|reflexivity].
      destruct (H0 Hw) as [E _].
      transitivity (F_abs (s0 * t) * F_abs (s0 * t) * v); [ring|].
      rewrite F_abs_sq.
      transitivity (s0 * s0 * v * (t * t)); [ring|]. rewrite E, Er. ring.
    + left. cbn [Z.eqb Pos.eqb]. split; [|reflexivity]. exact (H1 Hw).
Qed.

End ElligatorOnCurve.

(** * The group law on field values *)

(** Modelled from the spec: the standard extended twisted-Edwards addition
    for a = -1, which the external group-law kernel provides. *)
Definition F_ge_add (P Q : F_point) : F_point :=
  let two := Zmod.add Zmod.one Zmod.one in
  let A := Zmod.mul (Zmod.sub (fY P) (fX P)) (Zmod.sub (fY Q) (fX Q)) in
  let B := Zmod.mul (Zmod.add (fY P) (fX P)) (Zmod.add (fY Q) (fX Q)) in
  let C := Zmod.mul (Zmod.mul (fT P) (Zmod.mul two F_d)) (fT Q) in
  let DD := Zmod.mul (Zmod.mul (fZ P) two) (fZ Q) in
  let E := Zmod.sub B A in
  let FF := Zmod.sub DD C in
  let G := Zmod.add DD C in
  let H := Zmod.add B A in
  mkFP (Zmod.mul E FF) (Zmod.mul G H) (Zmod.mul FF G) (Zmod.mul E H).

Section EdwardsLaw.
Local Open Scope Zmod_scope.
Implicit Types x y z d : F.

(** Affine curve equation. *)
Definition F_affine_curve x y : Prop :=
  y * y - x * x = 1 + F_d * (x * x * (y * y)).

Lemma F_on_curve_affine P :
  F_on_curve P ->
  exists x y z, z <> 0 /\ F_affine_curve x y /\
                P = mkFP (x * z) (y * z) z (x * y * z).
Proof.
  destruct P as [X Y Z T]. unfold F_on_curve. cbn [fX fY fZ fT].
  intros (HZ & HT & HC).
  exists (Zmod.mdiv X Z), (Zmod.mdiv Y Z), Z. split; [exact HZ|]. split.
  - unfold F_affine_curve.
    assert (ET : T = Zmod.mdiv (X * Y) Z).
    { apply F_div_iff; [exact HZ|]. rewrite HT. ring. }
    assert (E : Y * Y - X * X = Z * Z + F_d * (Zmod.mdiv (X * Y) Z * Zmod.mdiv (X * Y) Z))
      by (rewrite <- ET; exact HC).
    clear HC ET HT T.
    transitivity (Zmod.mdiv (Y * Y - X * X) (Z * Z)); [field; exact HZ|].
    rewrite E. generalize F_d. intros d. field. exact HZ.
  - f_equal.
    + field. exact HZ.
    + field. exact HZ.
    + transitivity (Zmod.mdiv (X * Y) Z); [|field; exact HZ].
      apply F_div_iff; [exact HZ|]. rewrite HT. ring.
Qed.

(** The numerator identity of the addition law: no curve equation is
    needed. *)
Lemma edwards_product_identity d x1 y1 x2 y2 e :
  e = d * (x1 * x2 * (y1 * y2)) ->
  ((y1 * y2 + x1 * x2) * (1 + e)) * ((y1 * y2 + x1 * x2) * (1 + e))
  - ((x1 * y2 + y1 * x2) * (1 - e)) * ((x1 * y2 + y1 * x2) * (1 - e))
  - d * (((x1 * y2 + y1 * x2) * (y1 * y2 + x1 * x2))
         * ((x1 * y2 + y1 * x2) * (y1 * y2 + x1 * x2)))
  = (y1 * y1 - x1 * x1 - (y2 * y2 - x2 * x2) * (d * (x1 * x1 * (y1 * y1))))
    * (y2 * y2 - x2 * x2 - (y1 * y1 - x1 * x1) * (d * (x2 * x2 * (y2 * y2)))).
Proof. intros ->. ring. Qed.

Lemma edwards_factor x1 y1 x2 y2 e :
  e = F_d * (x1 * x2 * (y1 * y2)) ->
  F_affine_curve x1 y1 -> F_affine_curve x2 y2 ->
  y1 * y1 - x1 * x1 - (y2 * y2 - x2 * x2) * (F_d * (x1 * x1 * (y1 * y1)))
  = (1 - e) * (1 + e).
Proof.
  unfold F_affine_curve. intros -> H1 H2. rewrite H1, H2.
  generalize F_d. intros d. ring.
Qed.

Lemma edwards_sum_equation x1 y1 x2 y2 e :
  e = F_d * (x1 * x2 * (y1 * y2)) ->
  F_affine_curve x1 y1 -> F_affine_curve x2 y2 ->
  ((y1 * y2 + x1 * x2) * (1 + e)) * ((y1 * y2 + x1 * x2) * (1 + e))
  - ((x1 * y2 + y1 * x2) * (1 - e)) * ((x1 * y2 + y1 * x2) * (1 - e))
  = ((1 - e) * (1 + e)) * ((1 - e) * (1 + e))
    + F_d * (((x1 * y2 + y1 * x2) * (y1 * y2 + x1 * x2))
             * ((x1 * y2 + y1 * x2) * (y1 * y2 + x1 * x2))).
Proof.
  intros He H1 H2.
  pose proof (edwards_product_identity F_d x1 y1 x2 y2 e He) as Hid.
  rewrite (edwards_factor x1 y1 x2 y2 e He H1 H2) in Hid.
  assert (He' : e = F_d * (x2 * x1 * (y2 * y1))) by (rewrite He; ring).
  rewrite (edwards_factor x2 y2 x1 y1 e He' H2 H1) in Hid.
  rewrite <- Hid. ring.
Qed.

(** Completeness: the denominators of the addition law never vanish,
    because d is not a square. *)
Lemma edwards_square_relation x1 y1 x2 y2 e tau :
  e = F_d * (x1 * x2 * (y1 * y2)) -> e * e = 1 -> tau * tau = 1 ->
  F_affine_curve x1 y1 -> F_affine_curve x2 y2 ->
  (F_i * x1 + tau * y1) * (F_i * x1 + tau * y1)
  = F_d * ((x1 * y1 * (F_i * x2 + tau * e * y2))
           * (x1 * y1 * (F_i * x2 + tau * e * y2))).
Proof.
  unfold F_affine_curve. intros He Hee Ht H1 H2.
  assert (Hstar : y1 * y1 - x1 * x1
                  = F_d * (x1 * x1 * (y1 * y1)) * (y2 * y2 - x2 * x2)).
  { rewrite H2, H1.
    transitivity (F_d * (x1 * x1 * (y1 * y1)) + e * e); [rewrite Hee; ring|].
    rewrite He. ring. }
  transitivity ((F_i * F_i) * (x1 * x1) + (tau * tau) * (y1 * y1)
                + (1 + 1) * tau * F_i * (x1 * y1)); [ring|].
  rewrite F_i_sq, Ht.
  transitivity (y1 * y1 - x1 * x1 + (1 + 1) * tau * F_i * (x1 * y1)); [ring|].
  rewrite Hstar. symmetry.
  transitivity (F_d * (x1 * x1 * (y1 * y1))
                  * ((F_i * F_i) * (x2 * x2) + (tau * tau) * (e * e) * (y2 * y2))
                + (1 + 1) * tau * F_i * (x1 * y1)
                  * (F_d * (x1 * x2 * (y1 * y2)) * e)); [ring|].
  rewrite <- He, F_i_sq, Ht, Hee. ring.
Qed.

Lemma edwards_complete x1 y1 x2 y2 e :
  e = F_d * (x1 * x2 * (y1 * y2)) ->
  F_affine_curve x1 y1 -> F_affine_curve x2 y2 ->
  e * e <> 1.
Proof.
  intros He H1 H2 Hee.
  assert (Henz : e <> 0).
  { intros E0. rewrite E0 in Hee. apply F_1_nz. rewrite <- Hee. ring. }
  assert (Hx1 : x1 <> 0).
  { intros E0. apply Henz. rewrite He, E0. ring. }
  assert (Hy1 : y1 <> 0).
  { intros E0. apply Henz. rewrite He, E0. ring. }
  assert (Hx2 : x2 <> 0).
  { intros E0. apply Henz. rewrite He, E0. ring. }
  assert (Hm : forall tau, tau * tau = 1 -> F_i * x2 + tau * e * y2 = 0).
  { intros tau Ht.
    pose proof (edwards_square_relation x1 y1 x2 y2 e tau He Hee Ht H1 H2) as Hsq.
    pose proof (F_nonsquare_ratio _ _ _ F_d_nonsquare Hsq) as H0.
    destruct (F_mul_eq_0 _ _ H0) as [H0'|H0']; [|exact H0'].
    destruct (F_mul_eq_0 _ _ H0'); contradiction. }
  pose proof (Hm 1 ltac:(ring)) as Hp.
  pose proof (Hm (- (1)) ltac:(ring)) as Hn.
  assert (E : (1 + 1) * (F_i * x2) = 0).
  { transitivity ((F_i * x2 + 1 * e * y2) + (F_i * x2 + - (1) * e * y2)); [ring|].
    rewrite Hp, Hn. ring. }
  destruct (F_mul_eq_0 _ _ E) as [E'|E']; [exact (F_2_nz E')|].
  destruct (F_mul_eq_0 _ _ E') as [E''|E'']; [exact (F_i_nz E'')|exact (Hx2 E'')].
Qed.

Theorem F_ge_add_on_curve P Q :
  F_on_curve P -> F_on_curve Q -> F_on_curve (F_ge_add P Q).
Proof.
  intros HP HQ.
  destruct (F_on_curve_affine P HP) as (x1 & y1 & z1 & Hz1 & H1 & ->).
  destruct (F_on_curve_affine Q HQ) as (x2 & y2 & z2 & Hz2 & H2 & ->).
  clear HP HQ.
  remember (F_d * (x1 * x2 * (y1 * y2))) as e eqn:He.
  pose proof (edwards_complete x1 y1 x2 y2 e He H1 H2) as Hee.
  pose proof (edwards_sum_equation x1 y1 x2 y2 e He H1 H2) as Hsum.
  assert (Hf : 1 - e <> 0).
  { intros H. apply Hee. assert (E1 : e = 1) by (symmetry; now apply Zmod.sub_eq_0_iff).
    rewrite E1. ring. }
  assert (Hg : 1 + e <> 0).
  { intros H. apply Hee. assert (E1 : e = - (1)).
    { transitivity ((1 + e) - 1); [ring|rewrite H; ring]. }
    rewrite E1. ring. }
  unfold F_ge_add, F_on_curve. cbv zeta. cbn [fX fY fZ fT].
  assert (EF : z1 * (1 + 1) * z2 - x1 * y1 * z1 * ((1 + 1) * F_d) * (x2 * y2 * z2)
               = (1 + 1) * (z1 * z2) * (1 - e)) by (rewrite He; ring).
  assert (EG : z1 * (1 + 1) * z2 + x1 * y1 * z1 * ((1 + 1) * F_d) * (x2 * y2 * z2)
               = (1 + 1) * (z1 * z2) * (1 + e)) by (rewrite He; ring).
  assert (EE : (y1 * z1 + x1 * z1) * (y2 * z2 + x2 * z2)
               - (y1 * z1 - x1 * z1) * (y2 * z2 - x2 * z2)
               = (1 + 1) * (z1 * z2) * (x1 * y2 + y1 * x2)) by ring.
  assert (EH : (y1 * z1 + x1 * z1) * (y2 * z2 + x2 * z2)
               + (y1 * z1 - x1 * z1) * (y2 * z2 - x2 * z2)
               = (1 + 1) * (z1 * z2) * (y1 * y2 + x1 * x2)) by ring.
  rewrite EF, EG, EE, EH. clear EF EG EE EH.
  assert (Hk : (1 + 1) * (z1 * z2) <> 0).
  { apply F_mul_nz; [exact F_2_nz|now apply F_mul_nz]. }
  generalize dependent ((1 + 1) * (z1 * z2)). intros k Hk.
  split; [|split].
  - apply F_mul_nz; now apply F_mul_nz.
  - ring.
  - apply Zmod.sub_eq_0_iff.
    transitivity
      (k * k * (k * k)
       * (((y1 * y2 + x1 * x2) * (1 + e)) * ((y1 * y2 + x1 * x2) * (1 + e))
          - ((x1 * y2 + y1 * x2) * (1 - e)) * ((x1 * y2 + y1 * x2) * (1 - e))
          - (((1 - e) * (1 + e)) * ((1 - e) * (1 + e))
             + F_d * (((x1 * y2 + y1 * x2) * (y1 * y2 + x1 * x2))
                      * ((x1 * y2 + y1 * x2) * (y1 * y2 + x1 * x2)))))).
    + generalize F_d. intros d. ring.
    + rewrite Hsum. ring.
Qed.

End EdwardsLaw.

(** * Ristretto equivalence and element equality on field values *)

(** Two coordinate vectors denote the same affine point. *)
Definition F_affine_eq (P Q : F_point) : Prop :=
  Zmod.mul (fX P) (fZ Q) = Zmod.mul (fX Q) (fZ P) /\
  Zmod.mul (fY P) (fZ Q) = Zmod.mul (fY Q) (fZ P).

Definition F_identity : F_point := mkFP Zmod.zero Zmod.one Zmod.one Zmod.zero.

(** The cofactor-4 subgroup: the points (0,1), (0,-1), (i,0), (-i,0). *)
Definition torsion4 : list F_point :=
  [ mkFP Zmod.zero Zmod.one Zmod.one Zmod.zero;
    mkFP Zmod.zero (Zmod.opp Zmod.one) Zmod.one Zmod.zero;
    mkFP F_i Zmod.zero Zmod.one Zmod.zero;
    mkFP (Zmod.opp F_i) Zmod.zero Zmod.one Zmod.zero ].

(** Modelled from the spec: a Group Element is the class of the four
    points related by the action of the cofactor-4 subgroup. *)
Definition same_class (P Q : F_point) : Prop :=
  exists T4, In T4 torsion4 /\ F_affine_eq Q (F_ge_add P T4).

(** The value of [Element.Equal]. *)
Definition F_equal (P Q : F_point) : Z :=
  Z.lor (F_eq (Zmod.mul (fX P) (fY Q)) (Zmod.mul (fY P) (fX Q)))
        (F_eq (Zmod.mul (fY P) (fY Q)) (Zmod.mul (fX P) (fX Q))).

Section RistrettoClass.
Local Open Scope Zmod_scope.
Implicit Types x y z a b : F.

Lemma F_eq_unsigned (a b : F) : Zmod.unsigned a = Zmod.unsigned b -> a = b.
Proof. apply Zmod.unsigned_inj. Qed.

Lemma torsion4_on_curve : Forall F_on_curve torsion4.
Proof.
  unfold torsion4, F_on_curve.
  repeat (apply Forall_cons || apply Forall_nil); cbn [fX fY fZ fT];
    (split; [exact F_1_nz|split; apply F_eq_unsigned; vm_compute; reflexivity]).
Qed.

(** Each of the four points has order dividing 4. *)
Lemma torsion4_order :
  Forall (fun T4 => F_affine_eq (F_ge_add (F_ge_add T4 T4) (F_ge_add T4 T4)) F_identity)
         torsion4.
Proof.
  unfold torsion4, F_affine_eq.
  repeat (apply Forall_cons || apply Forall_nil);
    (split; apply F_eq_unsigned; vm_compute; reflexivity).
Qed.

Lemma F_sub_0 a b : a - b = 0 -> a = b.
Proof. intros H. now apply Zmod.sub_eq_0_iff. Qed.

Lemma F_cancel_r a b k : k <> 0 -> a * k = b * k -> a = b.
Proof.
  intros Hk H. eapply Zmod.mul_cancel_r_prime; eauto. exact Curve25519Prime.prime_p.
Qed.

(** Adding a point (a, b) of the subgroup to (x1, y1). *)
Lemma F_affine_eq_translate x1 y1 z1 x2 y2 z2 a b :
  z1 <> 0 -> z2 <> 0 ->
  (F_affine_eq (mkFP (x2 * z2) (y2 * z2) z2 (x2 * y2 * z2))
               (F_ge_add (mkFP (x1 * z1) (y1 * z1) z1 (x1 * y1 * z1)) (mkFP a b 1 0))
   <-> x2 = x1 * b + y1 * a /\ y2 = y1 * b + x1 * a).
Proof.
  intros Hz1 Hz2. unfold F_affine_eq, F_ge_add. cbv zeta. cbn [fX fY fZ fT].
  assert (Hk : (1 + 1) * (1 + 1) * (z1 * z1) * z2 <> 0).
  { apply F_mul_nz; [|exact Hz2]. apply F_mul_nz.
    - apply F_mul_nz; exact F_2_nz.
    - apply F_mul_nz; exact Hz1. }
  split.
  - intros [HX HY]. split.
    + apply (F_cancel_r _ _ _ Hk).
      transitivity (x2 * z2 * ((z1 * (1 + 1) * 1 - x1 * y1 * z1 * ((1 + 1) * F_d) * 0)
                                * (z1 * (1 + 1) * 1 + x1 * y1 * z1 * ((1 + 1) * F_d) * 0)));
        [generalize F_d; intros d; ring|].
      rewrite HX. generalize F_d; intros d; ring.
    + apply (F_cancel_r _ _ _ Hk).
      transitivity (y2 * z2 * ((z1 * (1 + 1) * 1 - x1 * y1 * z1 * ((1 + 1) * F_d) * 0)
                                * (z1 * (1 + 1) * 1 + x1 * y1 * z1 * ((1 + 1) * F_d) * 0)));
        [generalize F_d; intros d; ring|].
      rewrite HY. generalize F_d; intros d; ring.
  - intros [-> ->]. split; generalize F_d; intros d; ring.
Qed.

(** Two curve points with proportional coordinates are equal or opposite. *)
Lemma affine_cross_eq x1 y1 x2 y2 :
  F_affine_curve x1 y1 -> F_affine_curve x2 y2 ->
  x1 * y2 = y1 * x2 ->
  (x2 = x1 /\ y2 = y1) \/ (x2 = - x1 /\ y2 = - y1).
Proof.
  unfold F_affine_curve. intros H1 H2 Hx.
  destruct (Zmod.eqb_spec y1 0) as [Hy1|Hy1].
  - subst y1.
    assert (Hx1 : x1 <> 0).
    { intros E. rewrite E in H1. apply F_1_nz.
      transitivity (1 + F_d * (0 * 0 * (0 * 0))); [generalize F_d; intros d; ring|].
      rewrite <- H1. ring. }
    assert (Hy2 : y2 = 0).
    { assert (E : x1 * y2 = 0) by (rewrite Hx; ring).
      destruct (F_mul_eq_0 _ _ E); [contradiction|assumption]. }
    subst y2.
    assert (E : x2 * x2 = x1 * x1).
    { transitivity (- (0 * 0 - x2 * x2)); [ring|]. rewrite H2.
      transitivity (- (1 + F_d * (x1 * x1 * (0 * 0)))); [generalize F_d; intros d; ring|].
      rewrite <- H1. ring. }
    destruct (F_sq_eq _ _ E) as [-> | ->]; [left|right]; split; ring.
  - set (l := Zmod.mdiv y2 y1).
    assert (Ey : y2 = l * y1) by (unfold l; field; exact Hy1).
    assert (Ex : x2 = l * x1).
    { transitivity (Zmod.mdiv (x1 * y2) y1).
      - apply F_div_iff; [exact Hy1|]. rewrite Hx. ring.
      - unfold l. field. exact Hy1. }
    clearbody l. subst x2 y2. clear Hx.
    assert (E : (1 - l * l) * (1 - F_d * ((l * x1 * y1) * (l * x1 * y1))) = 0).
    { transitivity ((1 + F_d * (l * x1 * (l * x1) * (l * y1 * (l * y1))))
                    - l * l * (1 + F_d * (x1 * x1 * (y1 * y1))));
        [generalize F_d; intros d; ring|].
      rewrite <- H1, <- H2. ring. }
    destruct (F_mul_eq_0 _ _ E) as [E1|E1].
    + assert (E2 : l * l = 1 * 1).
      { symmetry. transitivity (1 - l * l + l * l); [ring|rewrite E1; ring]. }
      destruct (F_sq_eq _ _ E2) as [-> | ->]; [left|right]; split; ring.
    + exfalso.
      assert (E2 : 1 * 1 = F_d * ((l * x1 * y1) * (l * x1 * y1))).
      { apply (F_sub_0 (1 * 1) (F_d * ((l * x1 * y1) * (l * x1 * y1)))).
        transitivity (1 - F_d * (l * x1 * y1 * (l * x1 * y1))); [ring|].
        exact E1. }
      pose proof (F_nonsquare_ratio _ _ _ F_d_nonsquare E2) as Hm.
      rewrite Hm in E2. apply F_1_nz.
      transitivity (1 * 1 : F); [ring|]. rewrite E2. ring.
Qed.

Lemma affine_curve_rotate x y : F_affine_curve x y -> F_affine_curve (F_i * y) (F_i * x).
Proof.
  unfold F_affine_curve. intros H.
  transitivity (- (F_i * F_i) * (y * y - x * x)); [ring|].
  rewrite H, F_i_sq.
  transitivity (1 + F_d * ((F_i * F_i) * (F_i * F_i) * (x * x * (y * y))));
    [rewrite F_i_sq|]; generalize F_d; intros d; ring.
Qed.

Lemma F_equal_flag P Q : F_equal P Q = 0%Z \/ F_equal P Q = 1%Z.
Proof. apply lor_F_eq_flag. Qed.

Lemma F_equal_1_iff P Q :
  F_equal P Q = 1%Z <->
  fX P * fY Q = fY P * fX Q \/ fY P * fY Q = fX P * fX Q.
Proof.
  unfold F_equal.
  destruct (flag_lor _ _ (F_eq_flag (fX P * fY Q) (fY P * fX Q))
                         (F_eq_flag (fY P * fY Q) (fX P * fX Q))) as [_ H].
  rewrite H, !F_eq_1_iff. reflexivity.
Qed.

(** [Element.Equal] decides the ristretto class of curve points. *)
Theorem F_equal_iff_same_class P Q :
  F_on_curve P -> F_on_curve Q ->
  (F_equal P Q = 1%Z <-> same_class P Q).
Proof.
  intros HP HQ.
  destruct (F_on_curve_affine P HP) as (x1 & y1 & z1 & Hz1 & H1 & ->).
  destruct (F_on_curve_affine Q HQ) as (x2 & y2 & z2 & Hz2 & H2 & ->).
  clear HP HQ. rewrite F_equal_1_iff. cbn [fX fY fZ fT].
  assert (Hk : z1 * z2 <> 0) by (now apply F_mul_nz).
  assert (HA : x1 * z1 * (y2 * z2) = y1 * z1 * (x2 * z2) <-> x1 * y2 = y1 * x2).
  { split; intros H.
    - apply (F_cancel_r _ _ _ Hk). transitivity (x1 * z1 * (y2 * z2)); [ring|].
      rewrite H. ring.
    - transitivity (x1 * y2 * (z1 * z2)); [ring|]. rewrite H. ring. }
  assert (HB : y1 * z1 * (y2 * z2) = x1 * z1 * (x2 * z2) <-> y1 * y2 = x1 * x2).
  { split; intros H.
    - apply (F_cancel_r _ _ _ Hk). transitivity (y1 * z1 * (y2 * z2)); [ring|].
      rewrite H. ring.
    - transitivity (y1 * y2 * (z1 * z2)); [ring|]. rewrite H. ring. }
  rewrite HA, HB. clear HA HB. unfold same_class, torsion4. split.
  - intros [Hc|Hc].
    + destruct (affine_cross_eq x1 y1 x2 y2 H1 H2 Hc) as [[Ex Ey]|[Ex Ey]].
      * exists (mkFP 0 1 1 0). split; [cbn; auto|].
        apply F_affine_eq_translate; try assumption. rewrite Ex, Ey. split; ring.
      * exists (mkFP 0 (- (1)) 1 0). split; [cbn; auto|].
        apply F_affine_eq_translate; try assumption. rewrite Ex, Ey. split; ring.
    + assert (Hc' : F_i * y1 * y2 = F_i * x1 * x2).
      { transitivity (F_i * (y1 * y2)); [ring|]. rewrite Hc. ring. }
      destruct (affine_cross_eq _ _ x2 y2 (affine_curve_rotate x1 y1 H1) H2 Hc')
        as [[Ex Ey]|[Ex Ey]].
      * exists (mkFP F_i 0 1 0). split; [cbn; auto|].
        apply F_affine_eq_translate; try assumption. rewrite Ex, Ey. split; ring.
      * exists (mkFP (- F_i) 0 1 0). split; [cbn; auto 6|].
        apply F_affine_eq_translate; try assumption. rewrite Ex, Ey. split; ring.
  - intros (T4 & Hin & Heq). cbn [In] in Hin.
    destruct Hin as [<-|[<-|[<-|[<-|[]]]]];
      apply F_affine_eq_translate in Heq; try assumption;
      destruct Heq as [-> ->]; [left|left|right|right]; ring.
Qed.

(** A curve point never has X = Y = 0. *)
Lemma F_on_curve_XY P : F_on_curve P -> fX P <> 0 \/ fY P <> 0.
Proof.
  intros HP. destruct (F_on_curve_affine P HP) as (x & y & z & Hz & H & ->).
  cbn [fX fY]. unfold F_affine_curve in H.
  destruct (Zmod.eqb_spec x 0) as [Hx|Hx]; [|left; now apply F_mul_nz].
  right. apply F_mul_nz; [|exact Hz]. intros Hy. subst x y. apply F_1_nz.
  transitivity (1 + F_d * (0 * 0 * (0 * 0))); [generalize F_d; intros d; ring|].
  rewrite <- H. ring.
Qed.

Lemma F_equal_refl P : F_equal P P = 1%Z.
Proof. apply F_equal_1_iff. left. ring. Qed.

Lemma F_equal_sym P Q : F_equal P Q = F_equal Q P.
Proof.
  unfold F_equal. f_equal.
  - unfold F_eq. destruct (Zmod.eqb_spec (fX P * fY Q) (fY P * fX Q)) as [E|E];
      destruct (Zmod.eqb_spec (fX Q * fY P) (fY Q * fX P)) as [E'|E']; try reflexivity;
      exfalso; [apply E'|apply E].
    + transitivity (fY P * fX Q); [ring|]. rewrite <- E. ring.
    + transitivity (fY Q * fX P); [ring|]. rewrite <- E'. ring.
  - f_equal; ring.
Qed.

Lemma F_equal_trans P Q R :
  fX Q <> 0 \/ fY Q <> 0 ->
  F_equal P Q = 1%Z -> F_equal Q R = 1%Z -> F_equal P R = 1%Z.
Proof.
  rewrite !F_equal_1_iff.
  destruct P as [X1 Y1 Z1 T1], Q as [X2 Y2 Z2 T2], R as [X3 Y3 Z3 T3].
  cbn [fX fY]. intros Hnz H12 H23.
  assert (Hcancel : forall a b : F, a * X2 = b * X2 -> a * Y2 = b * Y2 -> a = b).
  { intros a b HX HY. destruct Hnz as [Hn|Hn]; eapply F_cancel_r; eauto. }
  destruct H12 as [H12|H12]; destruct H23 as [H23|H23].
  - left. apply Hcancel.
    + transitivity (X1 * (X2 * Y3)); [ring|]. rewrite H23.
      transitivity ((X1 * Y2) * X3); [ring|]. rewrite H12. ring.
    + transitivity ((X1 * Y2) * Y3); [ring|]. rewrite H12.
      transitivity (Y1 * (X2 * Y3)); [ring|]. rewrite H23. ring.
  - right. apply Hcancel.
    + transitivity ((Y1 * X2) * Y3); [ring|]. rewrite <- H12.
      transitivity (X1 * (Y2 * Y3)); [ring|]. rewrite H23. ring.
    + transitivity (Y1 * (Y2 * Y3)); [ring|]. rewrite H23.
      transitivity ((Y1 * X2) * X3); [ring|]. rewrite <- H12. ring.
  - right. apply Hcancel.
    + transitivity (Y1 * (X2 * Y3)); [ring|]. rewrite H23.
      transitivity ((Y1 * Y2) * X3); [ring|]. rewrite H12. ring.
    + transitivity ((Y1 * Y2) * Y3); [ring|]. rewrite H12.
      transitivity (X1 * (X2 * Y3)); [ring|]. rewrite H23. ring.
  - left. apply Hcancel.
    + transitivity ((X1 * X2) * Y3); [ring|]. rewrite <- H12.
      transitivity (Y1 * (Y2 * Y3)); [ring|]. rewrite H23. ring.
    + transitivity (X1 * (Y2 * Y3)); [ring|]. rewrite H23.
      transitivity ((X1 * X2) * X3); [ring|]. rewrite <- H12. ring.
Qed.

End RistrettoClass.

(** * Elements of the group *)

Section Elements.
Context {K : Kernel}.

(** A bounded representation of a curve point. *)
Definition ge_valid (P : ExtendedGroupElement) : Prop :=
  ge_reduced P /\ F_on_curve (ge_val P).

(** Spec section 4.5 in its own words: decode the two 32-byte halves,
    map each to a point, add the two points. *)
Definition hash_to_group_spec (b : list byte) : ExtendedGroupElement :=
  let P1 := mapToPoint (FeFromBytes (firstn 32 b)) in
  let P2 := mapToPoint (FeFromBytes (skipn 32 b)) in
  GeAdd P1 P2.

End Elements.

(** Modelled from the spec: the external group-law kernel adds with the
    standard extended twisted-Edwards formulas (spec section 6), on
    bounded representations. *)
Class GroupLaws (K : Kernel) : Prop := {
  GeAdd_ok : forall P Q, ge_reduced P -> ge_reduced Q ->
    ge_reduced (GeAdd P Q) /\ ge_val (GeAdd P Q) = F_ge_add (ge_val P) (ge_val Q)
}.

#[global] Instance RefGroupLaws : GroupLaws RefKernel.
Proof.
  split. intros P Q _ _. cbn [GeAdd RefKernel]. unfold ref_ge_add. cbv zeta. split.
  - repeat split; cbn [geX geY geZ geT]; apply ref_reduced_fe_of_F.
  - unfold ge_val, F_ge_add. cbv zeta. cbn [geX geY geZ geT fX fY fZ fT].
    unfold ref_mul, ref_add, ref_sub, ref_D. rewrite !feval_fe_of_F. reflexivity.
Qed.

Section ElementFacts.
Context {K : Kernel} {L : KernelLaws K}.

Lemma Equal_val e ee :
  ge_reduced (r e) -> ge_reduced (r ee) ->
  Equal e ee = F_equal (ge_val (r e)) (ge_val (r ee)).
Proof.
  intros (RX1 & RY1 & _ & _) (RX2 & RY2 & _ & _). unfold Equal, F_equal. cbv zeta.
  destruct (FeMul_ok _ _ RX1 RY2) as [R1 E1]. destruct (FeMul_ok _ _ RY1 RX2) as [R2 E2].
  destruct (FeMul_ok _ _ RY1 RY2) as [R3 E3]. destruct (FeMul_ok _ _ RX1 RX2) as [R4 E4].
  rewrite !FeEqual_val by assumption. rewrite E1, E2, E3, E4. reflexivity.
Qed.

Lemma mapToPoint_valid t : reduced t -> ge_valid (mapToPoint t).
Proof.
  intros Ht. destruct (mapToPoint_val t Ht) as [Hr E]. split; [exact Hr|].
  rewrite E. apply F_map_to_point_on_curve.
Qed.

Lemma copy_full (buf src : list byte) :
  length buf = length src -> copy buf src = src.
Proof.
  intros H. unfold copy. rewrite H, firstn_all, <- H, skipn_all. apply app_nil_r.
Qed.

Lemma FromUniformBytes_unfold e b :
  length b = 64%nat ->
  FromUniformBytes e b = (mkElement (hash_to_group_spec b), Returned).
Proof.
  intros Hlen. unfold FromUniformBytes, hash_to_group_spec. rewrite Hlen.
  cbn [Nat.eqb negb]. cbv zeta.
  assert (H1 : length (firstn 32 b) = 32%nat) by (rewrite length_firstn; lia).
  assert (H2 : length (skipn 32 b) = 32%nat) by (rewrite length_skipn; lia).
  rewrite (copy_full (repeat x00 32) (firstn 32 b)) by (rewrite repeat_length; lia).
  rewrite (copy_full (firstn 32 b) (skipn 32 b)) by lia.
  reflexivity.
Qed.

End ElementFacts.

(** * Properties of elements *)

Section ElementClaims.
Context {K : Kernel} {L : KernelLaws K} {G : GroupLaws K}.

Lemma FromUniformBytes_valid (e : Element) (b : list byte) :
  length b = 64%nat -> ge_valid (r (fst (FromUniformBytes e b))).
Proof.
  intros Hlen. rewrite (FromUniformBytes_unfold e b Hlen). cbn [fst r].
  unfold hash_to_group_spec. cbv zeta.
  assert (H1 : length (firstn 32 b) = 32%nat) by (rewrite length_firstn; lia).
  assert (H2 : length (skipn 32 b) = 32%nat) by (rewrite length_skipn; lia).
  destruct (FeFromBytes_ok _ H1) as [Rt1 _]. destruct (FeFromBytes_ok _ H2) as [Rt2 _].
  destruct (mapToPoint_valid _ Rt1) as [RP1 CP1].
  destruct (mapToPoint_valid _ Rt2) as [RP2 CP2].
  destruct (GeAdd_ok _ _ RP1 RP2) as [RS ES].
  split; [exact RS|]. rewrite ES. now apply F_ge_add_on_curve.
Qed.

(** C2.  For two Group Elements given by bounded representations of curve
    points (X1,Y1,Z1,T1) and (X2,Y2,Z2,T2), Element.Equal returns 1 if and
    only if the two points are in the same ristretto class (they differ by
    a point of the cofactor-4 subgroup) and 0 otherwise; the result is the
    bitwise OR of the two field-equality tests X1*Y2 == Y1*X2 and
    Y1*Y2 == X1*X2, both of which are evaluated. *)
Theorem Equal_decides_class (e ee : Element) :
  ge_valid (r e) -> ge_valid (r ee) ->
  (Equal e ee = 1 <-> same_class (ge_val (r e)) (ge_val (r ee))) /\
  (Equal e ee = 0 <-> ~ same_class (ge_val (r e)) (ge_val (r ee))) /\
  Equal e ee =
    Z.lor (FeEqual (FeMul (geX (r e)) (geY (r ee))) (FeMul (geY (r e)) (geX (r ee))))
          (FeEqual (FeMul (geY (r e)) (geY (r ee))) (FeMul (geX (r e)) (geX (r ee)))).
Proof.
  intros [R1 C1] [R2 C2].
  pose proof (F_equal_iff_same_class _ _ C1 C2) as Hiff.
  pose proof (F_equal_flag (ge_val (r e)) (ge_val (r ee))) as Hflag.
  rewrite (Equal_val e ee R1 R2) at 1 2.
  split; [exact Hiff|]. split; [|reflexivity].
  split.
  - intros H0 Hs. apply Hiff in Hs. rewrite Hs in H0. discriminate.
  - intros Hn. destruct Hflag as [H|H]; [exact H|]. destruct (Hn (proj1 Hiff H)).
Qed.

(** C3.  FromUniformBytes panics (input is not 64 bytes long) if and only
    if its input is not exactly 64 bytes long; the panic leaves the receiver
    unchanged and does not depend on the content of the input; on every
    64-byte input the call returns and the receiver holds a bounded
    representation of a curve point. *)
Theorem FromUniformBytes_length (e : Element) (b : list byte) :
  (snd (FromUniformBytes e b)
     = Panicked "ristretto255: FromUniformBytes: input is not 64 bytes long"
   <-> length b <> 64%nat) /\
  (length b <> 64%nat ->
     fst (FromUniformBytes e b) = e /\
     forall b', length b' <> 64%nat -> FromUniformBytes e b' = FromUniformBytes e b) /\
  (length b = 64%nat ->
     snd (FromUniformBytes e b) = Returned /\
     ge_valid (r (fst (FromUniformBytes e b)))).
Proof.
  assert (Hbad : forall c, length c <> 64%nat ->
            FromUniformBytes e c
            = (e, Panicked "ristretto255: FromUniformBytes: input is not 64 bytes long")).
  { intros c Hc. unfold FromUniformBytes.
    destruct (Nat.eqb_spec (length c) 64) as [E|E]; [contradiction|reflexivity]. }
  split; [|split].
  - split.
    + intros H Hlen. rewrite (FromUniformBytes_unfold e b Hlen) in H. discriminate.
    + intros Hlen. now rewrite Hbad.
  - intros Hlen. rewrite (Hbad b Hlen). split; [reflexivity|].
    intros b' Hb'. now rewrite Hbad.
  - intros Hlen. rewrite (FromUniformBytes_unfold e b Hlen). cbn [fst snd r].
    split; [reflexivity|]. unfold hash_to_group_spec. cbv zeta.
    assert (H1 : length (firstn 32 b) = 32%nat) by (rewrite length_firstn; lia).
    assert (H2 : length (skipn 32 b) = 32%nat) by (rewrite length_skipn; lia).
    destruct (FeFromBytes_ok _ H1) as [Rt1 _]. destruct (FeFromBytes_ok _ H2) as [Rt2 _].
    destruct (mapToPoint_valid _ Rt1) as [RP1 CP1].
    destruct (mapToPoint_valid _ Rt2) as [RP2 CP2].
    destruct (GeAdd_ok _ _ RP1 RP2) as [RS ES].
    split; [exact RS|]. rewrite ES. now apply F_ge_add_on_curve.
Qed.

(** C4.  For every 64-byte input b, FromUniformBytes(b) is the group sum
    P1 + P2 of the Elligator images of the field elements decoded from the
    first and from the last 32 bytes of b; a half that is a canonical
    encoding decodes to the integer it spells in little-endian order; the
    two map invocations share no state. *)
Theorem FromUniformBytes_sum (e : Element) (b : list byte) :
  length b = 64%nat ->
  let t1 := FeFromBytes (firstn 32 b) in
  let t2 := FeFromBytes (skipn 32 b) in
  FromUniformBytes e b = (mkElement (GeAdd (mapToPoint t1) (mapToPoint t2)), Returned) /\
  FromUniformBytes e b = (mkElement (hash_to_group_spec b), Returned) /\
  ge_val (r (fst (FromUniformBytes e b)))
    = F_ge_add (F_map_to_point (feval t1)) (F_map_to_point (feval t2)) /\
  (le_int (firstn 32 b) < p -> feval t1 = F_of (le_int (firstn 32 b))) /\
  (le_int (skipn 32 b) < p -> feval t2 = F_of (le_int (skipn 32 b))).
Proof.
  intros Hlen t1 t2.
  assert (H1 : length (firstn 32 b) = 32%nat) by (rewrite length_firstn; lia).
  assert (H2 : length (skipn 32 b) = 32%nat) by (rewrite length_skipn; lia).
  destruct (FeFromBytes_ok _ H1) as [Rt1 D1]. destruct (FeFromBytes_ok _ H2) as [Rt2 D2].
  fold t1 in Rt1, D1. fold t2 in Rt2, D2.
  rewrite (FromUniformBytes_unfold e b Hlen). unfold hash_to_group_spec. cbv zeta.
  fold t1 t2. cbn [fst r].
  split; [reflexivity|]. split; [reflexivity|]. split; [|split; assumption].
  destruct (mapToPoint_val _ Rt1) as [RP1 EP1]. destruct (mapToPoint_val _ Rt2) as [RP2 EP2].
  destruct (GeAdd_ok _ _ RP1 RP2) as [_ ES]. now rewrite ES, EP1, EP2.
Qed.

(** C7.  Element.Equal is an equivalence relation on the elements produced
    by FromUniformBytes: for e1, e2, e3 obtained from 64-byte inputs,
    Equal(e1, e1) = 1, Equal(e1, e2) = Equal(e2, e1), and Equal(e1, e2) = 1
    with Equal(e2, e3) = 1 gives Equal(e1, e3) = 1. *)
Theorem Equal_equivalence (r1 r2 r3 : Element) (b1 b2 b3 : list byte) :
  length b1 = 64%nat -> length b2 = 64%nat -> length b3 = 64%nat ->
  let e1 := fst (FromUniformBytes r1 b1) in
  let e2 := fst (FromUniformBytes r2 b2) in
  let e3 := fst (FromUniformBytes r3 b3) in
  Equal e1 e1 = 1 /\
  Equal e1 e2 = Equal e2 e1 /\
  (Equal e1 e2 = 1 -> Equal e2 e3 = 1 -> Equal e1 e3 = 1).
Proof.
  intros H1 H2 H3 e1 e2 e3.
  destruct (FromUniformBytes_valid r1 b1 H1) as [R1 C1].
  destruct (FromUniformBytes_valid r2 b2 H2) as [R2 C2].
  destruct (FromUniformBytes_valid r3 b3 H3) as [R3 C3].
  fold e1 in R1, C1. fold e2 in R2, C2. fold e3 in R3, C3.
  rewrite (Equal_val e1 e1), (Equal_val e1 e2), (Equal_val e2 e1),
    (Equal_val e2 e3), (Equal_val e1 e3) by assumption.
  split; [apply F_equal_refl|]. split; [apply F_equal_sym|].
  apply F_equal_trans. now apply F_on_curve_XY.
Qed.

End ElementClaims.

(** ** Runs on the reference kernel *)

Definition ref_identity : ExtendedGroupElement :=
  mkGE (fe_of_Z 0) (fe_of_Z 1) (fe_of_Z 1) (fe_of_Z 0).

Lemma ref_identity_valid : @ge_valid RefKernel ref_identity.
Proof.
  split.
  - repeat split; cbn [geX geY geZ geT ref_identity]; apply ref_reduced_fe_of_Z;
      unfold p; lia.
  - unfold F_on_curve, ge_val, ref_identity. cbn [geX geY geZ geT fX fY fZ fT].
    split; [apply feval_fe_of_Z_nz; unfold p; lia|].
    split; apply Zmod.unsigned_inj; vm_compute; reflexivity.
Qed.

Lemma Equal_decides_class_witness :
  @ge_valid RefKernel ref_identity /\
  (@Equal RefKernel (mkElement ref_identity) (mkElement ref_identity) = 1
     <-> same_class (ge_val ref_identity) (ge_val ref_identity)) /\
  (@Equal RefKernel (mkElement ref_identity) (mkElement ref_identity) = 0
     <-> ~ same_class (ge_val ref_identity) (ge_val ref_identity)) /\
  @Equal RefKernel (mkElement ref_identity) (mkElement ref_identity) =
    Z.lor (@FeEqual RefKernel (@FeMul RefKernel (geX ref_identity) (geY ref_identity))
                              (@FeMul RefKernel (geY ref_identity) (geX ref_identity)))
          (@FeEqual RefKernel (@FeMul RefKernel (geY ref_identity) (geY ref_identity))
                              (@FeMul RefKernel (geX ref_identity) (geX ref_identity))).
Proof.
  split; [exact ref_identity_valid|].
  exact (@Equal_decides_class RefKernel RefLaws (mkElement ref_identity)
           (mkElement ref_identity) ref_identity_valid ref_identity_valid).
Defined.

Lemma FromUniformBytes_length_witness :
  (snd (@FromUniformBytes RefKernel (mkElement ref_identity) (repeat x00 63))
     = Panicked "ristretto255: FromUniformBytes: input is not 64 bytes long"
   <-> length (repeat x00 63) <> 64%nat) /\
  (length (repeat x00 63) <> 64%nat ->
     fst (@FromUniformBytes RefKernel (mkElement ref_identity) (repeat x00 63))
       = mkElement ref_identity /\
     forall b', length b' <> 64%nat ->
       @FromUniformBytes RefKernel (mkElement ref_identity) b'
       = @FromUniformBytes RefKernel (mkElement ref_identity) (repeat x00 63)) /\
  (length (repeat x00 63) = 64%nat ->
     snd (@FromUniformBytes RefKernel (mkElement ref_identity) (repeat x00 63)) = Returned /\
     @ge_valid RefKernel
       (r (fst (@FromUniformBytes RefKernel (mkElement ref_identity) (repeat x00 63))))).
Proof.
  exact (@FromUniformBytes_length RefKernel RefLaws RefGroupLaws
           (mkElement ref_identity) (repeat x00 63)).
Defined.

Lemma FromUniformBytes_sum_witness :
  length (repeat x00 64) = 64%nat /\
  let t1 := @FeFromBytes RefKernel (firstn 32 (repeat x00 64)) in
  let t2 := @FeFromBytes RefKernel (skipn 32 (repeat x00 64)) in
  @FromUniformBytes RefKernel (mkElement ref_identity) (repeat x00 64)
    = (mkElement (@GeAdd RefKernel (@mapToPoint RefKernel t1) (@mapToPoint RefKernel t2)),
       Returned) /\
  @FromUniformBytes RefKernel (mkElement ref_identity) (repeat x00 64)
    = (mkElement (@hash_to_group_spec RefKernel (repeat x00 64)), Returned) /\
  ge_val (r (fst (@FromUniformBytes RefKernel (mkElement ref_identity) (repeat x00 64))))
    = F_ge_add (F_map_to_point (feval t1)) (F_map_to_point (feval t2)) /\
  (le_int (firstn 32 (repeat x00 64)) < p ->
     feval t1 = F_of (le_int (firstn 32 (repeat x00 64)))) /\
  (le_int (skipn 32 (repeat x00 64)) < p ->
     feval t2 = F_of (le_int (skipn 32 (repeat x00 64)))).
Proof.
  split; [reflexivity|].
  exact (@FromUniformBytes_sum RefKernel RefLaws RefGroupLaws
           (mkElement ref_identity) (repeat x00 64) eq_refl).
Defined.

Lemma Equal_equivalence_witness :
  length (repeat x00 64) = 64%nat /\ length (repeat x01 64) = 64%nat /\
  length (repeat x02 64) = 64%nat /\
  let e1 := fst (@FromUniformBytes RefKernel (mkElement ref_identity) (repeat x00 64)) in
  let e2 := fst (@FromUniformBytes RefKernel (mkElement ref_identity) (repeat x01 64)) in
  let e3 := fst (@FromUniformBytes RefKernel (mkElement ref_identity) (repeat x02 64)) in
  @Equal RefKernel e1 e1 = 1 /\
  @Equal RefKernel e1 e2 = @Equal RefKernel e2 e1 /\
  (@Equal RefKernel e1 e2 = 1 -> @Equal RefKernel e2 e3 = 1 -> @Equal RefKernel e1 e3 = 1).
Proof.
  split; [reflexivity|]. split; [reflexivity|]. split; [reflexivity|].
  exact (@Equal_equivalence RefKernel RefLaws RefGroupLaws
           (mkElement ref_identity) (mkElement ref_identity) (mkElement ref_identity)
           (repeat x00 64) (repeat x01 64) (repeat x02 64) eq_refl eq_refl eq_refl).
Defined.

(** * Branchless primitives *)

Lemma uint64_testbit_high a n : uint64 a -> 64 <= n -> Z.testbit a n = false.
Proof.
  intros [H0 H1] Hn. destruct (Z.eq_dec a 0) as [->|Hnz]; [apply Z.bits_0|].
  apply Z.bits_above_log2; [exact H0|].
  assert (Z.log2 a < 64) by (apply Z.log2_lt_pow2; lia). lia.
Qed.

Lemma mask64_testbit n :
  0 <= n -> Z.testbit 0xffffffffffffffff n = (n <? 64).
Proof.
  intros Hn. change 0xffffffffffffffff with (Z.ones 64).
  destruct (Z.ltb_spec n 64) as [H|H].
  - apply Z.ones_spec_low. lia.
  - apply Z.ones_spec_high. lia.
Qed.

(** Selecting between equal limbs returns that limb, whatever the mask. *)
Lemma select_limb_same b a : uint64 a -> select_limb b a a = a.
Proof.
  intros Ha. unfold select_limb. apply Z.bits_inj'. intros n Hn.
  rewrite Z.lor_spec, !Z.land_spec, Z.lxor_spec, mask64_testbit by exact Hn.
  destruct (Z.ltb_spec n 64) as [H|H].
  - destruct (Z.testbit b n), (Z.testbit a n); reflexivity.
  - rewrite (uint64_testbit_high a n Ha H). now rewrite !andb_false_r.
Qed.

(** The xor idiom of FeCondNeg and the and/or idiom of FeSelect compute the
    same limb for every mask. *)
Lemma cond_neg_limb_select b u n :
  uint64 u -> uint64 n -> cond_neg_limb b u n = select_limb b n u.
Proof.
  intros Hu Hn'. unfold cond_neg_limb, select_limb. apply Z.bits_inj'. intros k Hk.
  rewrite Z.lxor_spec, Z.lor_spec, !Z.land_spec, !Z.lxor_spec, mask64_testbit by exact Hk.
  destruct (Z.ltb_spec k 64) as [H|H].
  - destruct (Z.testbit b k), (Z.testbit u k), (Z.testbit n k); reflexivity.
  - rewrite (uint64_testbit_high u k Hu H), (uint64_testbit_high n k Hn' H).
    now rewrite !andb_false_r.
Qed.

Lemma select_limb_uint64 b v u : uint64 v -> uint64 u -> uint64 (select_limb b v u).
Proof.
  intros Hv Hu. unfold select_limb.
  remember (Z.lor (Z.land b v) (Z.land (Z.lxor b 0xffffffffffffffff) u)) as x eqn:Ex.
  assert (Hnn : 0 <= x).
  { rewrite Ex. apply Z.lor_nonneg. split; apply Z.land_nonneg; right; [apply Hv|apply Hu]. }
  split; [exact Hnn|].
  destruct (Z.eq_dec x 0) as [->|Hnz]; [lia|].
  apply Z.log2_lt_pow2; [lia|].
  destruct (Z_lt_le_dec (Z.log2 x) 64) as [Hlt|Hge]; [exact Hlt|exfalso].
  assert (Hpos : 0 < x) by lia.
  pose proof (Z.bit_log2 x Hpos) as Hbit.
  rewrite Ex, Z.lor_spec, !Z.land_spec in Hbit. rewrite <- Ex in Hbit.
  rewrite (uint64_testbit_high v _ Hv Hge), (uint64_testbit_high u _ Hu Hge) in Hbit.
  rewrite !andb_false_r in Hbit. discriminate.
Qed.

Lemma cond_mask_nonneg c : 0 <= cond_mask c.
Proof. unfold cond_mask, wrap64. apply Z.mod_pos_bound. lia. Qed.

Lemma FeSelect_uint64 v u cond :
  fe_uint64 v -> fe_uint64 u -> fe_uint64 (FeSelect v u cond).
Proof.
  intros (V0 & V1 & V2 & V3 & V4) (U0 & U1 & U2 & U3 & U4).
  unfold FeSelect, fe_uint64. cbn [limb0 limb1 limb2 limb3 limb4].
  repeat split; apply select_limb_uint64; assumption.
Qed.

(** X1.  FeSelect returns its first operand when cond = 1 and its second
    when cond = 0, limb for limb, for all operands with 64-bit limbs; the
    result always has 64-bit limbs. *)
Theorem FeSelect_selects (v u : FieldElement) :
  fe_uint64 v -> fe_uint64 u ->
  FeSelect v u 1 = v /\ FeSelect v u 0 = u /\
  forall cond, fe_uint64 (FeSelect v u cond).
Proof.
  intros Hv Hu. split; [now apply FeSelect_1|]. split; [now apply FeSelect_0|].
  intros cond. now apply FeSelect_uint64.
Qed.

(** X2.  When both operands are the same field element, FeSelect returns
    it for every value of cond, also outside {0, 1}. *)
Theorem FeSelect_same (a : FieldElement) (cond : Z) :
  fe_uint64 a -> FeSelect a a cond = a.
Proof.
  intros (H0 & H1 & H2 & H3 & H4). unfold FeSelect.
  rewrite !select_limb_same by assumption. now destruct a.
Qed.

Section CondNeg.
Context {K : Kernel} {L : KernelLaws K}.

Lemma FeCondNeg_select_eq u cond :
  fe_uint64 u -> fe_uint64 (FeNeg u) ->
  FeCondNeg u cond = FeSelect (FeNeg u) u cond.
Proof.
  intros (U0 & U1 & U2 & U3 & U4) (N0 & N1 & N2 & N3 & N4).
  unfold FeCondNeg, FeSelect. cbv zeta.
  now rewrite !cond_neg_limb_select by assumption.
Qed.

Lemma reduced_neg_uint64 u : reduced u -> fe_uint64 u /\ fe_uint64 (FeNeg u).
Proof.
  intros Hu. destruct (FeNeg_ok u Hu) as [Hn _].
  split; now apply reduced_uint64.
Qed.

Lemma FeCondNeg_flag u c :
  reduced u -> c = 0 \/ c = 1 ->
  FeCondNeg u c = if c =? 1 then FeNeg u else u.
Proof.
  intros Hu Hc. destruct (reduced_neg_uint64 u Hu) as [H1 H2].
  rewrite FeCondNeg_select_eq by assumption.
  destruct (FeNeg_ok u Hu) as [Hn _]. now apply FeSelect_flag.
Qed.

(** X3.  FeCondNeg sets u to -u (exactly the limbs FeNeg produces) when
    cond = 1 and leaves u as it is when cond = 0. *)
Theorem FeCondNeg_correct (u : FieldElement) :
  reduced u ->
  FeCondNeg u 1 = FeNeg u /\ FeCondNeg u 0 = u /\
  feval (FeCondNeg u 1) = Zmod.opp (feval u).
Proof.
  intros Hu. rewrite !FeCondNeg_flag by auto. cbn [Z.eqb Pos.eqb].
  split; [reflexivity|]. split; [reflexivity|]. now apply FeNeg_ok.
Qed.

(** X4.  For every value of cond, also outside {0, 1}, the xor form of
    FeCondNeg computes the same limbs as FeSelect applied to -u and u. *)
Theorem FeCondNeg_is_select (u : FieldElement) (cond : Z) :
  reduced u -> FeCondNeg u cond = FeSelect (FeNeg u) u cond.
Proof.
  intros Hu. destruct (reduced_neg_uint64 u Hu). now apply FeCondNeg_select_eq.
Qed.

(** X5.  Conditional negation is an involution on field values: applying
    FeCondNeg twice with the same flag in {0, 1} gives back a reduced
    representation of the original field element. *)
Theorem FeCondNeg_involution (u : FieldElement) (c : Z) :
  reduced u -> c = 0 \/ c = 1 ->
  reduced (FeCondNeg (FeCondNeg u c) c) /\
  feval (FeCondNeg (FeCondNeg u c) c) = feval u.
Proof.
  intros Hu [-> | ->].
  - rewrite (FeCondNeg_flag u 0) by auto. cbn [Z.eqb].
    rewrite (FeCondNeg_flag u 0) by auto. cbn [Z.eqb]. now split.
  - destruct (FeNeg_ok u Hu) as [Hn En]. destruct (FeNeg_ok _ Hn) as [Hnn Enn].
    rewrite (FeCondNeg_flag u 1) by auto. cbn [Z.eqb Pos.eqb].
    rewrite (FeCondNeg_flag (FeNeg u) 1) by auto. cbn [Z.eqb Pos.eqb].
    split; [exact Hnn|]. rewrite Enn, En. apply Zmod.opp_opp.
Qed.

End CondNeg.

(** * Sign and equality primitives *)

Section SignAndEquality.
Context {K : Kernel} {L : KernelLaws K}.

(** X6.  FeIsNegative returns the low bit of the canonical representative:
    it is 0 or 1, it is 0 on zero, and for a nonzero field element exactly
    one of u and -u is negative. *)
Theorem FeIsNegative_sign (u : FieldElement) :
  reduced u ->
  FeIsNegative u = Zmod.unsigned (feval u) mod 2 /\
  (FeIsNegative u = 0 \/ FeIsNegative u = 1) /\
  (feval u = Zmod.zero -> FeIsNegative u = 0) /\
  (feval u <> Zmod.zero -> FeIsNegative (FeNeg u) = 1 - FeIsNegative u).
Proof.
  intros Hu. destruct (FeNeg_ok u Hu) as [Hn En].
  rewrite (FeIsNegative_val u Hu), (FeIsNegative_val _ Hn), En.
  split; [reflexivity|]. split; [apply F_is_negative_flag|]. split.
  - intros ->. reflexivity.
  - apply F_is_negative_opp.
Qed.

(** X7.  FeAbs returns a reduced, non-negative element that is u itself or
    FeNeg u; on field values it is idempotent and does not distinguish u
    from -u. *)
Theorem FeAbs_abs (u : FieldElement) :
  reduced u ->
  reduced (FeAbs u) /\
  FeIsNegative (FeAbs u) = 0 /\
  (FeAbs u = u \/ FeAbs u = FeNeg u) /\
  feval (FeAbs (FeAbs u)) = feval (FeAbs u) /\
  feval (FeAbs (FeNeg u)) = feval (FeAbs u).
Proof.
  intros Hu. destruct (FeNeg_ok u Hu) as [Hn En].
  destruct (FeAbs_val u Hu) as [Ha Ea]. destruct (FeAbs_val _ Ha) as [_ Eaa].
  destruct (FeAbs_val _ Hn) as [_ Ean].
  split; [exact Ha|]. split; [|split; [|split]].
  - rewrite (FeIsNegative_val _ Ha), Ea. apply F_abs_nonneg.
  - unfold FeAbs. cbv zeta.
    rewrite FeSelect_flag by
      (try assumption; rewrite FeIsNegative_val by assumption; apply F_is_negative_flag).
    destruct (FeIsNegative u =? 1); auto.
  - rewrite Eaa, Ea. apply F_abs_of_nonneg. apply F_abs_nonneg.
  - rewrite Ean, Ea, En. apply F_abs_opp.
Qed.

(** X8.  FeEqual decides equality of field elements, not of limb vectors:
    it returns 1 exactly when the two operands denote the same field
    element and 0 otherwise; it is reflexive and symmetric. *)
Theorem FeEqual_decides (a b : FieldElement) :
  reduced a -> reduced b ->
  (FeEqual a b = 1 <-> feval a = feval b) /\
  (FeEqual a b = 0 <-> feval a <> feval b) /\
  FeEqual a a = 1 /\
  FeEqual a b = FeEqual b a.
Proof.
  intros Ha Hb. rewrite !FeEqual_val by assumption.
  split; [apply F_eq_1_iff|]. split; [|split].
  - unfold F_eq. destruct (Zmod.eqb_spec (feval a) (feval b)) as [E|E]; split;
      intros H; try assumption; try reflexivity; [discriminate|contradiction].
  - apply F_eq_refl.
  - unfold F_eq. destruct (Zmod.eqb_spec (feval a) (feval b)) as [E|E];
      destruct (Zmod.eqb_spec (feval b) (feval a)) as [E'|E']; try reflexivity;
      exfalso; [apply E'|apply E]; now symmetry.
Qed.

End SignAndEquality.

(** * Further properties of the solver *)

Section SolverExtras.
Local Open Scope Zmod_scope.
Implicit Types u v y : F.

Lemma F_sqrt_ratio_v0_nz u : u <> 0 -> F_sqrt_ratio u 0 = (0%Z, 0).
Proof.
  intros Hu. rewrite F_sqrt_ratio_unfold. cbv zeta.
  assert (E0 : F_candidate u 0 = 0).
  { unfold F_candidate. replace (u * (0 * 0 * 0)) with (0 : F) by ring.
    now rewrite Zmod.mul_0_l. }
  rewrite E0. replace (0 * 0 * 0) with (0 : F) by ring.
  replace (0 * F_i) with (0 : F) by ring.
  assert (Hou : - u <> 0).
  { intros H. apply Hu. transitivity (- - u); [ring|rewrite H; ring]. }
  rewrite (F_eq_neq 0 u) by (intros H; now apply Hu).
  rewrite (F_eq_neq 0 (- u)) by (intros H; now apply Hou).
  rewrite (F_eq_neq 0 (- u * F_i)).
  - reflexivity.
  - intros H. symmetry in H. destruct (F_mul_eq_0 _ _ H) as [H'|H'];
      [now apply Hou|now apply F_i_nz].
Qed.

(** The flag certifies the root for every denominator, zero included. *)
Lemma F_sqrt_ratio_sound u v :
  fst (F_sqrt_ratio u v) = 1%Z ->
  let r := snd (F_sqrt_ratio u v) in (r * r) * v = u.
Proof.
  intros Hws r0. subst r0.
  destruct (Zmod.eqb_spec v 0) as [->|Hv].
  - destruct (Zmod.eqb_spec u 0) as [->|Hu].
    + rewrite F_sqrt_ratio_0. cbn [snd]. ring.
    + rewrite F_sqrt_ratio_v0_nz in Hws by exact Hu. discriminate.
  - destruct (F_sqrt_ratio_spec u v Hv) as (_ & _ & H1 & _). now apply H1.
Qed.

Lemma F_sqrt_ratio_square_iff u v :
  v <> 0 -> (fst (F_sqrt_ratio u v) = 1%Z <-> exists y, (y * y) * v = u).
Proof.
  intros Hv. destruct (F_sqrt_ratio_spec u v Hv) as (Hflag & _ & H1 & H0). split.
  - intros Hws. exists (snd (F_sqrt_ratio u v)). now apply H1.
  - intros [y Hy]. destruct Hflag as [Hz|Ho]; [|exact Ho].
    destruct (H0 Hz) as [_ Hno]. destruct (Hno y Hy).
Qed.

Lemma F_sqrt_ratio_nonneg u v : F_is_negative (snd (F_sqrt_ratio u v)) = 0%Z.
Proof. rewrite F_sqrt_ratio_unfold. cbv zeta. cbn [snd]. apply F_abs_nonneg. Qed.

End SolverExtras.

Section SolverExtraClaims.
Context {K : Kernel} {L : KernelLaws K}.
Local Open Scope Zmod_scope.

(** X9.  Division by zero: for a zero denominator and a nonzero numerator
    FeSqrtRatio returns wasSquare = 0 and the root 0. *)
Theorem FeSqrtRatio_zero_denominator (u v : FieldElement) :
  reduced u -> reduced v -> feval v = 0 -> feval u <> 0 ->
  fst (FeSqrtRatio u v) = 0%Z /\ feval (snd (FeSqrtRatio u v)) = 0.
Proof.
  intros Hu Hv Ev Eu. destruct (FeSqrtRatio_val u v Hu Hv) as (_ & Ews & Er).
  rewrite Ews, Er, Ev, F_sqrt_ratio_v0_nz by exact Eu. split; reflexivity.
Qed.

(** X10.  For every pair of reduced operands, a zero denominator included,
    FeSqrtRatio returns a flag in {0, 1} and a reduced non-negative root,
    and a flag of 1 certifies r^2 * v = u. *)
Theorem FeSqrtRatio_total (u v : FieldElement) :
  reduced u -> reduced v ->
  let wasSquare := fst (FeSqrtRatio u v) in
  let r := snd (FeSqrtRatio u v) in
  (wasSquare = 0 \/ wasSquare = 1)%Z /\ reduced r /\ FeIsNegative r = 0%Z /\
  (wasSquare = 1%Z -> (feval r * feval r) * feval v = feval u).
Proof.
  intros Hu Hv ws r0. subst ws r0.
  destruct (FeSqrtRatio_val u v Hu Hv) as (Hr & Ews & Er).
  rewrite Ews, (FeIsNegative_val _ Hr), Er.
  split; [apply F_sqrt_ratio_flag|]. split; [exact Hr|].
  split; [apply F_sqrt_ratio_nonneg|]. apply F_sqrt_ratio_sound.
Qed.

(** X11.  For a nonzero denominator the flag decides whether u/v is a
    square: wasSquare = 1 exactly when some y has y^2 * v = u. *)
Theorem FeSqrtRatio_flag_iff_square (u v : FieldElement) :
  reduced u -> reduced v -> feval v <> 0 ->
  (fst (FeSqrtRatio u v) = 1%Z <-> exists y : F, (y * y) * feval v = feval u).
Proof.
  intros Hu Hv Hnz. destruct (FeSqrtRatio_val u v Hu Hv) as (_ & Ews & _).
  rewrite Ews. now apply F_sqrt_ratio_square_iff.
Qed.

(** X12.  The result of FeSqrtRatio depends only on the field elements its
    operands denote, not on their limb representations. *)
Theorem FeSqrtRatio_representation (u u' v v' : FieldElement) :
  reduced u -> reduced u' -> reduced v -> reduced v' ->
  feval u = feval u' -> feval v = feval v' ->
  fst (FeSqrtRatio u v) = fst (FeSqrtRatio u' v') /\
  feval (snd (FeSqrtRatio u v)) = feval (snd (FeSqrtRatio u' v')) /\
  FeEqual (snd (FeSqrtRatio u v)) (snd (FeSqrtRatio u' v')) = 1%Z.
Proof.
  intros Hu Hu' Hv Hv' Eu Ev.
  destruct (FeSqrtRatio_val u v Hu Hv) as (Hr & Ews & Er).
  destruct (FeSqrtRatio_val u' v' Hu' Hv') as (Hr' & Ews' & Er').
  rewrite FeEqual_val by assumption. rewrite Ews, Ews', Er, Er', Eu, Ev.
  split; [reflexivity|]. split; [reflexivity|apply F_eq_refl].
Qed.

(** X13.  fePow22523 inverts a fourth power up to an eighth root: for
    every z, fePow22523(z)^8 * z^5 = z. *)
Theorem fePow22523_eighth_power (z : FieldElement) :
  reduced z ->
  Zmod.pow (feval (fePow22523 z)) 8 * Zmod.pow (feval z) 5 = feval z.
Proof.
  intros Hz. destruct (fePow22523_val z Hz) as [_ E]. rewrite E.
  rewrite <- Zmod.pow_mul_r_nonneg by (apply Z.leb_le; vm_compute; reflexivity).
  rewrite <- Zmod.pow_add_r_nonneg by (apply Z.leb_le; vm_compute; reflexivity).
  replace ((p - 5) / 8 * 8 + 5)%Z with p by (vm_compute; reflexivity).
  apply Zmod.fermat. exact Curve25519Prime.prime_p.
Qed.

End SolverExtraClaims.

(** * Further properties of the ristretto255 package *)

Definition F_invSqrtAMinusD : F :=
  F_of 54469307008909316920995813868745141605393597292927456921205312896311721017578.

Section PackageExtras.
Context {K : Kernel} {L : KernelLaws K}.
Local Open Scope Zmod_scope.

Lemma denotes_invSqrtAMinusD : denotes invSqrtAMinusD F_invSqrtAMinusD.
Proof.
  unfold invSqrtAMinusD. destruct (fieldElementFromDecimal_ok
    "54469307008909316920995813868745141605393597292927456921205312896311721017578")
    as [Hr E].
  split; [exact Hr|]. rewrite E. apply Zmod.unsigned_inj. vm_compute. reflexivity.
Qed.

(** X14.  The five decimal constants of the package have the values their
    names state, for the curve parameter a = -1 and the kernel's d:
    sqrtM1^2 = -1, sqrtADMinusOne^2 = a*d - 1, invSqrtAMinusD^2 * (a - d) = 1,
    oneMinusDSQ = 1 - d^2 and dMinusOneSQ = (d - 1)^2. *)
Theorem constants_match_their_names :
  let a : F := - (1) in
  let d : F := feval D in
  feval sqrtM1 * feval sqrtM1 = - (1) /\
  feval sqrtADMinusOne * feval sqrtADMinusOne = a * d - 1 /\
  (feval invSqrtAMinusD * feval invSqrtAMinusD) * (a - d) = 1 /\
  feval oneMinusDSQ = 1 - d * d /\
  feval dMinusOneSQ = (d - 1) * (d - 1).
Proof.
  intros a d. subst a d.
  destruct denotes_sqrtM1 as [_ ->]. destruct denotes_sqrtADMinusOne as [_ ->].
  destruct denotes_invSqrtAMinusD as [_ ->]. destruct denotes_oneMinusDSQ as [_ ->].
  destruct denotes_dMinusOneSQ as [_ ->]. destruct denotes_D as [_ ->].
  split; [exact F_i_sq|]. split; [|split; [|split]].
  - rewrite F_sqrtADMinusOne_sq. generalize F_d. intros d. ring.
  - apply Zmod.unsigned_inj. vm_compute. reflexivity.
  - exact F_oneMinusDSQ_eq.
  - exact F_dMinusOneSQ_eq.
Qed.

(** X15.  For every reduced t, mapToPoint returns bounded coordinates of a
    point of the curve -x^2 + y^2 = 1 + d x^2 y^2: Z is nonzero,
    X * Y = Z * T and Y^2 - X^2 = Z^2 + d * T^2. *)
Theorem mapToPoint_on_curve (t : FieldElement) :
  reduced t ->
  let P := mapToPoint t in
  let X := feval (geX P) in let Y := feval (geY P) in
  let Z := feval (geZ P) in let T := feval (geT P) in
  ge_reduced P /\ Z <> 0 /\ X * Y = Z * T /\
  Y * Y - X * X = Z * Z + feval D * (T * T).
Proof.
  intros Ht P X Y Z T. destruct (mapToPoint_valid t Ht) as [Hr (HZ & HT & HC)].
  destruct denotes_D as [_ ->]. fold P in Hr, HZ, HT, HC.
  unfold ge_val in HZ, HT, HC. cbn [fX fY fZ fT] in HZ, HT, HC.
  split; [exact Hr|]. split; [exact HZ|]. split; [exact HT|exact HC].
Qed.

(** X16.  mapToPoint depends only on the field element its operand
    denotes: two reduced representations of one field element are mapped to
    the same coordinates. *)
Theorem mapToPoint_representation (t t' : FieldElement) :
  reduced t -> reduced t' -> feval t = feval t' ->
  ge_val (mapToPoint t) = ge_val (mapToPoint t').
Proof.
  intros Ht Ht' E. destruct (mapToPoint_val t Ht) as [_ ->].
  destruct (mapToPoint_val t' Ht') as [_ ->]. now rewrite E.
Qed.

Lemma F_equal_rescale_l P P' Q k :
  k <> 0 -> fX P' = k * fX P -> fY P' = k * fY P ->
  F_equal P' Q = F_equal P Q.
Proof.
  intros Hk EX EY. unfold F_equal. rewrite EX, EY.
  replace (k * fX P * fY Q) with (k * (fX P * fY Q)) by ring.
  replace (k * fY P * fX Q) with (k * (fY P * fX Q)) by ring.
  replace (k * fY P * fY Q) with (k * (fY P * fY Q)) by ring.
  replace (k * fX P * fX Q) with (k * (fX P * fX Q)) by ring.
  now rewrite !F_eq_scaled by exact Hk.
Qed.

(** X17.  Equal reads only the X and Y coordinates and is invariant under
    rescaling a representative: if X and Y of e' are those of e multiplied
    by a common nonzero k, whatever Z and T are, then e' and e compare
    alike against every element, on either side. *)
Theorem Equal_rescale (e e' ee : Element) (k : F) :
  ge_reduced (r e) -> ge_reduced (r e') -> ge_reduced (r ee) -> k <> 0 ->
  feval (geX (r e')) = k * feval (geX (r e)) ->
  feval (geY (r e')) = k * feval (geY (r e)) ->
  Equal e' ee = Equal e ee /\ Equal ee e' = Equal ee e.
Proof.
  intros R R' Ree Hk EX EY.
  rewrite !Equal_val by assumption.
  rewrite (F_equal_sym (ge_val (r ee)) (ge_val (r e'))),
          (F_equal_sym (ge_val (r ee)) (ge_val (r e))).
  split; apply (F_equal_rescale_l _ _ _ k); assumption.
Qed.

(** X18.  A representative with X = Y = 0, which is no curve point,
    compares equal to every element. *)
Theorem Equal_degenerate (e ee : Element) :
  ge_reduced (r e) -> ge_reduced (r ee) ->
  feval (geX (r e)) = 0 -> feval (geY (r e)) = 0 ->
  Equal e ee = 1%Z /\ Equal ee e = 1%Z.
Proof.
  intros R Ree EX EY. rewrite !Equal_val by assumption.
  split; apply F_equal_1_iff; left; cbn [ge_val fX fY]; rewrite EX, EY; ring.
Qed.

End PackageExtras.

Section HashExtras.
Context {K : Kernel} {L : KernelLaws K} {G : GroupLaws K}.
Local Open Scope Zmod_scope.

Lemma F_ge_add_comm P Q : F_ge_add P Q = F_ge_add Q P.
Proof.
  unfold F_ge_add. cbv zeta. generalize F_d. intros d. f_equal; ring.
Qed.

Lemma firstn_32_app (h1 h2 : list byte) :
  length h1 = 32%nat -> firstn 32 (h1 ++ h2) = h1.
Proof.
  intros H. rewrite firstn_app, H, Nat.sub_diag, firstn_O, app_nil_r.
  rewrite <- H. apply firstn_all.
Qed.

Lemma skipn_32_app (h1 h2 : list byte) :
  length h1 = 32%nat -> skipn 32 (h1 ++ h2) = h2.
Proof.
  intros H. rewrite skipn_app, H, Nat.sub_diag, skipn_O.
  rewrite skipn_all2 by lia. reflexivity.
Qed.

Lemma FromUniformBytes_halves e (h1 h2 : list byte) :
  length h1 = 32%nat -> length h2 = 32%nat ->
  let q := r (fst (FromUniformBytes e (h1 ++ h2))) in
  ge_reduced q /\
  ge_val q = F_ge_add (F_map_to_point (feval (FeFromBytes h1)))
                      (F_map_to_point (feval (FeFromBytes h2))).
Proof.
  intros H1 H2 q. subst q.
  rewrite FromUniformBytes_unfold by (rewrite length_app; lia).
  unfold hash_to_group_spec. cbv zeta. cbn [fst r].
  rewrite (firstn_32_app h1 h2 H1), (skipn_32_app h1 h2 H1).
  destruct (FeFromBytes_ok _ H1) as [Rt1 _]. destruct (FeFromBytes_ok _ H2) as [Rt2 _].
  destruct (mapToPoint_val _ Rt1) as [RP1 EP1]. destruct (mapToPoint_val _ Rt2) as [RP2 EP2].
  destruct (GeAdd_ok _ _ RP1 RP2) as [RS ES]. split; [exact RS|].
  now rewrite ES, EP1, EP2.
Qed.

(** X19.  Exchanging the two 32-byte halves of the input does not change
    the element: both calls produce the same coordinates, and Equal
    returns 1 on the two results. *)
Theorem FromUniformBytes_swap_halves (e e' : Element) (h1 h2 : list byte) :
  length h1 = 32%nat -> length h2 = 32%nat ->
  let a := fst (FromUniformBytes e (h1 ++ h2)) in
  let b := fst (FromUniformBytes e' (h2 ++ h1)) in
  ge_val (r a) = ge_val (r b) /\ Equal a b = 1%Z.
Proof.
  intros H1 H2 a b.
  destruct (FromUniformBytes_halves e h1 h2 H1 H2) as [Ra Ea].
  destruct (FromUniformBytes_halves e' h2 h1 H2 H1) as [Rb Eb].
  fold a in Ra, Ea. fold b in Rb, Eb.
  assert (E : ge_val (r a) = ge_val (r b)) by (rewrite Ea, Eb; apply F_ge_add_comm).
  split; [exact E|]. rewrite Equal_val by assumption. rewrite E. apply F_equal_refl.
Qed.

(** X20.  Hash-to-group collides on the sign of either half: for
    0 < t < p, the inputs that start with the 32-byte encodings of t and of
    p - t and continue alike are different byte strings mapped to the same
    coordinates. *)
Theorem FromUniformBytes_sign_collision (e : Element) (t : Z) (h2 : list byte) :
  (0 < t < p)%Z -> length h2 = 32%nat ->
  let b := le_bytes 32 t ++ h2 in
  let b' := le_bytes 32 (p - t) ++ h2 in
  b <> b' /\
  ge_val (r (fst (FromUniformBytes e b))) = ge_val (r (fst (FromUniformBytes e b'))) /\
  Equal (fst (FromUniformBytes e b)) (fst (FromUniformBytes e b')) = 1%Z.
Proof.
  intros Ht H2 b b'.
  assert (Hp256 : (p < 256 ^ Z.of_nat 32)%Z) by (vm_compute; reflexivity).
  assert (Hodd : (p mod 2 = 1)%Z) by (vm_compute; reflexivity).
  assert (L1 : length (le_bytes 32 t) = 32%nat) by apply le_bytes_length.
  assert (L1' : length (le_bytes 32 (p - t)) = 32%nat) by apply le_bytes_length.
  destruct (FromUniformBytes_halves e _ h2 L1 H2) as [Ra Ea].
  destruct (FromUniformBytes_halves e _ h2 L1' H2) as [Rb Eb].
  fold b in Ra, Ea. fold b' in Rb, Eb.
  destruct (FeFromBytes_ok _ L1) as [Rt D1]. destruct (FeFromBytes_ok _ L1') as [Rt' D1'].
  rewrite le_int_le_bytes in D1, D1' by lia.
  assert (E : ge_val (r (fst (FromUniformBytes e b)))
              = ge_val (r (fst (FromUniformBytes e b')))).
  { rewrite Ea, Eb, (D1 ltac:(lia)), (D1' ltac:(lia)).
    replace (Zmod.of_Z p (p - t)) with (- Zmod.of_Z p t).
    - now rewrite F_map_to_point_opp.
    - apply Zmod.unsigned_inj.
      rewrite Zmod.unsigned_opp, !Zmod.unsigned_of_Z.
      rewrite (Z.mod_small t p), (Z.mod_small (p - t) p) by lia.
      rewrite Z.mod_opp_l_nz by (rewrite ?Z.mod_small; lia).
      now rewrite Z.mod_small by lia. }
  split; [|split; [exact E|]].
  - intros Hb. apply (f_equal (firstn 32)) in Hb. subst b b'.
    rewrite (firstn_32_app _ h2 L1), (firstn_32_app _ h2 L1') in Hb.
    apply le_bytes_inj in Hb; [|lia|lia].
    pose proof (Z.div_mod p 2 ltac:(lia)). lia.
  - rewrite Equal_val by assumption. rewrite E. apply F_equal_refl.
Qed.

End HashExtras.

(** ** Runs on the reference kernel *)

Definition fe_sample_a : FieldElement := mkFE 1 2 3 4 5.
Definition fe_sample_b : FieldElement := mkFE 6 7 8 9 10.

Lemma fe_sample_a_uint64 : fe_uint64 fe_sample_a.
Proof. unfold fe_uint64, uint64, fe_sample_a. cbn. lia. Qed.

Lemma fe_sample_b_uint64 : fe_uint64 fe_sample_b.
Proof. unfold fe_uint64, uint64, fe_sample_b. cbn. lia. Qed.

Lemma ref_reduced_2 : @reduced RefKernel (fe_of_Z 2).
Proof. apply ref_reduced_fe_of_Z. unfold p. lia. Qed.

Lemma ref_reduced_0 : @reduced RefKernel (fe_of_Z 0).
Proof. apply ref_reduced_fe_of_Z. unfold p. lia. Qed.

Lemma ref_reduced_3 : @reduced RefKernel (fe_of_Z 3).
Proof. apply ref_reduced_fe_of_Z. unfold p. lia. Qed.

Lemma feval_fe_of_Z_0 : feval (fe_of_Z 0) = Zmod.zero.
Proof. apply Zmod.unsigned_inj. vm_compute. reflexivity. Qed.

Lemma feval_fe_of_Z_2_nz : feval (fe_of_Z 2) <> Zmod.zero.
Proof. apply feval_fe_of_Z_nz. unfold p. lia. Qed.

Lemma FeSelect_selects_witness :
  fe_uint64 fe_sample_a /\ fe_uint64 fe_sample_b /\
  FeSelect fe_sample_a fe_sample_b 1 = fe_sample_a /\
  FeSelect fe_sample_a fe_sample_b 0 = fe_sample_b /\
  forall cond, fe_uint64 (FeSelect fe_sample_a fe_sample_b cond).
Proof.
  split; [exact fe_sample_a_uint64|]. split; [exact fe_sample_b_uint64|].
  exact (FeSelect_selects fe_sample_a fe_sample_b fe_sample_a_uint64 fe_sample_b_uint64).
Defined.

Lemma FeSelect_same_witness :
  fe_uint64 fe_sample_a /\ FeSelect fe_sample_a fe_sample_a 7 = fe_sample_a.
Proof.
  split; [exact fe_sample_a_uint64|].
  exact (FeSelect_same fe_sample_a 7 fe_sample_a_uint64).
Defined.

Lemma FeCondNeg_correct_witness :
  @reduced RefKernel (fe_of_Z 2) /\
  @FeCondNeg RefKernel (fe_of_Z 2) 1 = @FeNeg RefKernel (fe_of_Z 2) /\
  @FeCondNeg RefKernel (fe_of_Z 2) 0 = fe_of_Z 2 /\
  feval (@FeCondNeg RefKernel (fe_of_Z 2) 1) = Zmod.opp (feval (fe_of_Z 2)).
Proof.
  split; [exact ref_reduced_2|].
  exact (@FeCondNeg_correct RefKernel RefLaws (fe_of_Z 2) ref_reduced_2).
Defined.

Lemma FeCondNeg_is_select_witness :
  @reduced RefKernel (fe_of_Z 2) /\
  @FeCondNeg RefKernel (fe_of_Z 2) 5
  = FeSelect (@FeNeg RefKernel (fe_of_Z 2)) (fe_of_Z 2) 5.
Proof.
  split; [exact ref_reduced_2|].
  exact (@FeCondNeg_is_select RefKernel RefLaws (fe_of_Z 2) 5 ref_reduced_2).
Defined.

Lemma FeCondNeg_involution_witness :
  @reduced RefKernel (fe_of_Z 2) /\ (1 = 0 \/ 1 = 1) /\
  @reduced RefKernel (@FeCondNeg RefKernel (@FeCondNeg RefKernel (fe_of_Z 2) 1) 1) /\
  feval (@FeCondNeg RefKernel (@FeCondNeg RefKernel (fe_of_Z 2) 1) 1) = feval (fe_of_Z 2).
Proof.
  split; [exact ref_reduced_2|]. split; [right; reflexivity|].
  exact (@FeCondNeg_involution RefKernel RefLaws (fe_of_Z 2) 1 ref_reduced_2
           (or_intror eq_refl)).
Defined.

Lemma FeIsNegative_sign_witness :
  @reduced RefKernel (fe_of_Z 2) /\
  @FeIsNegative RefKernel (fe_of_Z 2) = Zmod.unsigned (feval (fe_of_Z 2)) mod 2 /\
  (@FeIsNegative RefKernel (fe_of_Z 2) = 0 \/ @FeIsNegative RefKernel (fe_of_Z 2) = 1) /\
  (feval (fe_of_Z 2) = Zmod.zero -> @FeIsNegative RefKernel (fe_of_Z 2) = 0) /\
  (feval (fe_of_Z 2) <> Zmod.zero ->
   @FeIsNegative RefKernel (@FeNeg RefKernel (fe_of_Z 2))
   = 1 - @FeIsNegative RefKernel (fe_of_Z 2)).
Proof.
  split; [exact ref_reduced_2|].
  exact (@FeIsNegative_sign RefKernel RefLaws (fe_of_Z 2) ref_reduced_2).
Defined.

Lemma FeAbs_abs_witness :
  @reduced RefKernel (fe_of_Z 3) /\
  @reduced RefKernel (@FeAbs RefKernel (fe_of_Z 3)) /\
  @FeIsNegative RefKernel (@FeAbs RefKernel (fe_of_Z 3)) = 0 /\
  (@FeAbs RefKernel (fe_of_Z 3) = fe_of_Z 3 \/
   @FeAbs RefKernel (fe_of_Z 3) = @FeNeg RefKernel (fe_of_Z 3)) /\
  feval (@FeAbs RefKernel (@FeAbs RefKernel (fe_of_Z 3)))
    = feval (@FeAbs RefKernel (fe_of_Z 3)) /\
  feval (@FeAbs RefKernel (@FeNeg RefKernel (fe_of_Z 3)))
    = feval (@FeAbs RefKernel (fe_of_Z 3)).
Proof.
  split; [exact ref_reduced_3|].
  exact (@FeAbs_abs RefKernel RefLaws (fe_of_Z 3) ref_reduced_3).
Defined.

Lemma FeEqual_decides_witness :
  @reduced RefKernel (fe_of_Z 2) /\ @reduced RefKernel (fe_of_Z 3) /\
  (@FeEqual RefKernel (fe_of_Z 2) (fe_of_Z 3) = 1 <-> feval (fe_of_Z 2) = feval (fe_of_Z 3)) /\
  (@FeEqual RefKernel (fe_of_Z 2) (fe_of_Z 3) = 0 <-> feval (fe_of_Z 2) <> feval (fe_of_Z 3)) /\
  @FeEqual RefKernel (fe_of_Z 2) (fe_of_Z 2) = 1 /\
  @FeEqual RefKernel (fe_of_Z 2) (fe_of_Z 3) = @FeEqual RefKernel (fe_of_Z 3) (fe_of_Z 2).
Proof.
  split; [exact ref_reduced_2|]. split; [exact ref_reduced_3|].
  exact (@FeEqual_decides RefKernel RefLaws (fe_of_Z 2) (fe_of_Z 3)
           ref_reduced_2 ref_reduced_3).
Defined.

Lemma FeSqrtRatio_zero_denominator_witness :
  @reduced RefKernel (fe_of_Z 2) /\ @reduced RefKernel (fe_of_Z 0) /\
  feval (fe_of_Z 0) = Zmod.zero /\ feval (fe_of_Z 2) <> Zmod.zero /\
  fst (@FeSqrtRatio RefKernel (fe_of_Z 2) (fe_of_Z 0)) = 0 /\
  feval (snd (@FeSqrtRatio RefKernel (fe_of_Z 2) (fe_of_Z 0))) = Zmod.zero.
Proof.
  split; [exact ref_reduced_2|]. split; [exact ref_reduced_0|].
  split; [exact feval_fe_of_Z_0|]. split; [exact feval_fe_of_Z_2_nz|].
  exact (@FeSqrtRatio_zero_denominator RefKernel RefLaws (fe_of_Z 2) (fe_of_Z 0)
           ref_reduced_2 ref_reduced_0 feval_fe_of_Z_0 feval_fe_of_Z_2_nz).
Defined.

Lemma FeSqrtRatio_total_witness :
  @reduced RefKernel (fe_of_Z 3) /\ @reduced RefKernel (fe_of_Z 0) /\
  let wasSquare := fst (@FeSqrtRatio RefKernel (fe_of_Z 3) (fe_of_Z 0)) in
  let r := snd (@FeSqrtRatio RefKernel (fe_of_Z 3) (fe_of_Z 0)) in
  (wasSquare = 0 \/ wasSquare = 1) /\ @reduced RefKernel r /\
  @FeIsNegative RefKernel r = 0 /\
  (wasSquare = 1 ->
   Zmod.mul (Zmod.mul (feval r) (feval r)) (feval (fe_of_Z 0)) = feval (fe_of_Z 3)).
Proof.
  split; [exact ref_reduced_3|]. split; [exact ref_reduced_0|].
  exact (@FeSqrtRatio_total RefKernel RefLaws (fe_of_Z 3) (fe_of_Z 0)
           ref_reduced_3 ref_reduced_0).
Defined.

Lemma FeSqrtRatio_flag_iff_square_witness :
  @reduced RefKernel (fe_of_Z 3) /\ @reduced RefKernel (fe_of_Z 2) /\
  feval (fe_of_Z 2) <> Zmod.zero /\
  (fst (@FeSqrtRatio RefKernel (fe_of_Z 3) (fe_of_Z 2)) = 1 <->
   exists y : F, Zmod.mul (Zmod.mul y y) (feval (fe_of_Z 2)) = feval (fe_of_Z 3)).
Proof.
  split; [exact ref_reduced_3|]. split; [exact ref_reduced_2|].
  split; [exact feval_fe_of_Z_2_nz|].
  exact (@FeSqrtRatio_flag_iff_square RefKernel RefLaws (fe_of_Z 3) (fe_of_Z 2)
           ref_reduced_3 ref_reduced_2 feval_fe_of_Z_2_nz).
Defined.

Lemma fePow22523_eighth_power_witness :
  @reduced RefKernel (fe_of_Z 2) /\
  Zmod.mul (Zmod.pow (feval (@fePow22523 RefKernel (fe_of_Z 2))) 8)
           (Zmod.pow (feval (fe_of_Z 2)) 5) = feval (fe_of_Z 2).
Proof.
  split; [exact ref_reduced_2|].
  exact (@fePow22523_eighth_power RefKernel RefLaws (fe_of_Z 2) ref_reduced_2).
Defined.

Lemma constants_match_their_names_witness :
  let a : F := Zmod.opp Zmod.one in
  let d : F := feval (@D RefKernel) in
  Zmod.mul (feval (@sqrtM1 RefKernel)) (feval (@sqrtM1 RefKernel)) = Zmod.opp Zmod.one /\
  Zmod.mul (feval (@sqrtADMinusOne RefKernel)) (feval (@sqrtADMinusOne RefKernel))
    = Zmod.sub (Zmod.mul a d) Zmod.one /\
  Zmod.mul (Zmod.mul (feval (@invSqrtAMinusD RefKernel)) (feval (@invSqrtAMinusD RefKernel)))
           (Zmod.sub a d) = Zmod.one /\
  feval (@oneMinusDSQ RefKernel) = Zmod.sub Zmod.one (Zmod.mul d d) /\
  feval (@dMinusOneSQ RefKernel) = Zmod.mul (Zmod.sub d Zmod.one) (Zmod.sub d Zmod.one).
Proof.
  exact (@constants_match_their_names RefKernel RefLaws).
Defined.

Lemma mapToPoint_on_curve_witness :
  @reduced RefKernel (fe_of_Z 2) /\
  let P := @mapToPoint RefKernel (fe_of_Z 2) in
  let X := feval (geX P) in let Y := feval (geY P) in
  let Z := feval (geZ P) in let T := feval (geT P) in
  @ge_reduced RefKernel P /\ Z <> Zmod.zero /\ Zmod.mul X Y = Zmod.mul Z T /\
  Zmod.sub (Zmod.mul Y Y) (Zmod.mul X X)
    = Zmod.add (Zmod.mul Z Z) (Zmod.mul (feval (@D RefKernel)) (Zmod.mul T T)).
Proof.
  split; [exact ref_reduced_2|].
  exact (@mapToPoint_on_curve RefKernel RefLaws (fe_of_Z 2) ref_reduced_2).
Defined.

Definition ref_degenerate : ExtendedGroupElement :=
  mkGE (fe_of_Z 0) (fe_of_Z 0) (fe_of_Z 1) (fe_of_Z 0).

Lemma ref_degenerate_reduced : @ge_reduced RefKernel ref_degenerate.
Proof.
  repeat split; cbn [geX geY geZ geT ref_degenerate]; apply ref_reduced_fe_of_Z;
    unfold p; lia.
Qed.

Lemma ref_identity_reduced : @ge_reduced RefKernel ref_identity.
Proof. exact (proj1 ref_identity_valid). Qed.

Lemma Equal_degenerate_witness :
  @ge_reduced RefKernel ref_degenerate /\ @ge_reduced RefKernel ref_identity /\
  feval (geX ref_degenerate) = Zmod.zero /\ feval (geY ref_degenerate) = Zmod.zero /\
  @Equal RefKernel (mkElement ref_degenerate) (mkElement ref_identity) = 1 /\
  @Equal RefKernel (mkElement ref_identity) (mkElement ref_degenerate) = 1.
Proof.
  split; [exact ref_degenerate_reduced|]. split; [exact ref_identity_reduced|].
  split; [exact feval_fe_of_Z_0|]. split; [exact feval_fe_of_Z_0|].
  exact (@Equal_degenerate RefKernel RefLaws (mkElement ref_degenerate)
           (mkElement ref_identity) ref_degenerate_reduced ref_identity_reduced
           feval_fe_of_Z_0 feval_fe_of_Z_0).
Defined.

Lemma FromUniformBytes_swap_halves_witness :
  length (repeat x00 32) = 32%nat /\ length (repeat x01 32) = 32%nat /\
  let a := fst (@FromUniformBytes RefKernel (mkElement ref_identity)
                  (repeat x00 32 ++ repeat x01 32)) in
  let b := fst (@FromUniformBytes RefKernel (mkElement ref_identity)
                  (repeat x01 32 ++ repeat x00 32)) in
  ge_val (r a) = ge_val (r b) /\ @Equal RefKernel a b = 1.
Proof.
  split; [reflexivity|]. split; [reflexivity|].
  exact (@FromUniformBytes_swap_halves RefKernel RefLaws RefGroupLaws
           (mkElement ref_identity) (mkElement ref_identity)
           (repeat x00 32) (repeat x01 32) eq_refl eq_refl).
Defined.

Lemma one_in_range : 0 < 1 < p.
Proof. unfold p. lia. Qed.

Lemma FromUniformBytes_sign_collision_witness :
  0 < 1 < p /\ length (repeat x00 32) = 32%nat /\
  let b := le_bytes 32 1 ++ repeat x00 32 in
  let b' := le_bytes 32 (p - 1) ++ repeat x00 32 in
  b <> b' /\
  ge_val (r (fst (@FromUniformBytes RefKernel (mkElement ref_identity) b)))
    = ge_val (r (fst (@FromUniformBytes RefKernel (mkElement ref_identity) b'))) /\
  @Equal RefKernel (fst (@FromUniformBytes RefKernel (mkElement ref_identity) b))
                   (fst (@FromUniformBytes RefKernel (mkElement ref_identity) b')) = 1.
Proof.
  split; [exact one_in_range|]. split; [reflexivity|].
  exact (@FromUniformBytes_sign_collision RefKernel RefLaws RefGroupLaws
           (mkElement ref_identity) 1 (repeat x00 32) one_in_range eq_refl).
Defined.

(** ** A kernel with redundant representations

    Modelled from the spec: a second kernel meeting the interface.  It
    computes as the reference kernel does, but accepts every vector of
    64-bit limbs, so that one field element has several accepted
    representations, as with a kernel that carries lazily. *)

Definition LooseKernel : Kernel := {|
  reduced := fe_uint64;
  FeOne := fe_of_F Zmod.one;
  FeAdd := ref_add;
  FeSub := ref_sub;
  FeNeg := ref_neg;
  FeMul := ref_mul;
  FeSquare := ref_square;
  FeToBytes := ref_to_bytes;
  FeFromBytes := ref_from_bytes;
  fieldElementFromDecimal := ref_from_decimal;
  D := ref_D;
  GeAdd := ref_ge_add
|}.

Lemma LooseLaws : KernelLaws LooseKernel.
Proof.
  split; cbn [reduced FeOne FeAdd FeSub FeNeg FeMul FeSquare FeToBytes
              FeFromBytes fieldElementFromDecimal D LooseKernel].
  - intros a Ha. exact Ha.
  - split; [apply fe_of_F_uint64|apply feval_fe_of_F].
  - intros a b _ _. split; [apply fe_of_F_uint64|apply feval_fe_of_F].
  - intros a b _ _. split; [apply fe_of_F_uint64|apply feval_fe_of_F].
  - intros a _. split; [apply fe_of_F_uint64|apply feval_fe_of_F].
  - intros a b _ _. split; [apply fe_of_F_uint64|apply feval_fe_of_F].
  - intros a _. split; [apply fe_of_F_uint64|apply feval_fe_of_F].
  - reflexivity.
  - intros bs Hbs. split; [apply fe_of_F_uint64|].
    exact (proj2 (@FeFromBytes_ok RefKernel RefLaws bs Hbs)).
  - intros s. split; [apply fe_of_F_uint64|apply feval_fe_of_F].
  - split; [apply fe_of_F_uint64|apply feval_fe_of_F].
Qed.

(** The limbs of p + 3 and of p + 2: second representations of 3 and 2. *)
Definition fe_3_wide : FieldElement :=
  mkFE 2251799813685232 2251799813685247 2251799813685247 2251799813685247
       2251799813685247.

Definition fe_2_wide : FieldElement :=
  mkFE 2251799813685231 2251799813685247 2251799813685247 2251799813685247
       2251799813685247.

Lemma fe_3_wide_distinct : fe_of_Z 3 <> fe_3_wide.
Proof. intros H. apply (f_equal limb0) in H. vm_compute in H. discriminate. Qed.

Lemma fe_2_wide_distinct : fe_of_Z 2 <> fe_2_wide.
Proof. intros H. apply (f_equal limb0) in H. vm_compute in H. discriminate. Qed.

Lemma fe_3_wide_val : feval (fe_of_Z 3) = feval fe_3_wide.
Proof. apply Zmod.unsigned_inj. vm_compute. reflexivity. Qed.

Lemma fe_2_wide_val : feval (fe_of_Z 2) = feval fe_2_wide.
Proof. apply Zmod.unsigned_inj. vm_compute. reflexivity. Qed.

Lemma loose_reduced_3 : @reduced LooseKernel (fe_of_Z 3).
Proof. cbn [reduced LooseKernel]. unfold fe_uint64, uint64. cbn. lia. Qed.

Lemma loose_reduced_2 : @reduced LooseKernel (fe_of_Z 2).
Proof. cbn [reduced LooseKernel]. unfold fe_uint64, uint64. cbn. lia. Qed.

Lemma loose_reduced_3_wide : @reduced LooseKernel fe_3_wide.
Proof. cbn [reduced LooseKernel]. unfold fe_uint64, uint64, fe_3_wide. cbn. lia. Qed.

Lemma loose_reduced_2_wide : @reduced LooseKernel fe_2_wide.
Proof. cbn [reduced LooseKernel]. unfold fe_uint64, uint64, fe_2_wide. cbn. lia. Qed.

Lemma FeSqrtRatio_representation_witness :
  fe_of_Z 3 <> fe_3_wide /\ fe_of_Z 2 <> fe_2_wide /\
  @reduced LooseKernel (fe_of_Z 3) /\ @reduced LooseKernel fe_3_wide /\
  @reduced LooseKernel (fe_of_Z 2) /\ @reduced LooseKernel fe_2_wide /\
  feval (fe_of_Z 3) = feval fe_3_wide /\ feval (fe_of_Z 2) = feval fe_2_wide /\
  fst (@FeSqrtRatio LooseKernel (fe_of_Z 3) (fe_of_Z 2))
    = fst (@FeSqrtRatio LooseKernel fe_3_wide fe_2_wide) /\
  feval (snd (@FeSqrtRatio LooseKernel (fe_of_Z 3) (fe_of_Z 2)))
    = feval (snd (@FeSqrtRatio LooseKernel fe_3_wide fe_2_wide)) /\
  @FeEqual LooseKernel (snd (@FeSqrtRatio LooseKernel (fe_of_Z 3) (fe_of_Z 2)))
                       (snd (@FeSqrtRatio LooseKernel fe_3_wide fe_2_wide)) = 1.
Proof.
  split; [exact fe_3_wide_distinct|]. split; [exact fe_2_wide_distinct|].
  split; [exact loose_reduced_3|]. split; [exact loose_reduced_3_wide|].
  split; [exact loose_reduced_2|]. split; [exact loose_reduced_2_wide|].
  split; [exact fe_3_wide_val|]. split; [exact fe_2_wide_val|].
  exact (@FeSqrtRatio_representation LooseKernel LooseLaws (fe_of_Z 3) fe_3_wide
           (fe_of_Z 2) fe_2_wide loose_reduced_3 loose_reduced_3_wide
           loose_reduced_2 loose_reduced_2_wide fe_3_wide_val fe_2_wide_val).
Defined.

Lemma mapToPoint_representation_witness :
  fe_of_Z 2 <> fe_2_wide /\
  @reduced LooseKernel (fe_of_Z 2) /\ @reduced LooseKernel fe_2_wide /\
  feval (fe_of_Z 2) = feval fe_2_wide /\
  ge_val (@mapToPoint LooseKernel (fe_of_Z 2)) = ge_val (@mapToPoint LooseKernel fe_2_wide).
Proof.
  split; [exact fe_2_wide_distinct|].
  split; [exact loose_reduced_2|]. split; [exact loose_reduced_2_wide|].
  split; [exact fe_2_wide_val|].
  exact (@mapToPoint_representation LooseKernel LooseLaws (fe_of_Z 2) fe_2_wide
           loose_reduced_2 loose_reduced_2_wide fe_2_wide_val).
Defined.

(** Two representatives with X and Y in the ratio 5, and unrelated Z, T. *)
Definition ref_sample_e : ExtendedGroupElement :=
  mkGE (fe_of_Z 2) (fe_of_Z 3) (fe_of_Z 1) (fe_of_Z 6).

Definition ref_sample_e5 : ExtendedGroupElement :=
  mkGE (fe_of_Z 10) (fe_of_Z 15) (fe_of_Z 7) (fe_of_Z 4).

Lemma ref_sample_e_reduced : @ge_reduced RefKernel ref_sample_e.
Proof.
  repeat split; cbn [geX geY geZ geT ref_sample_e]; apply ref_reduced_fe_of_Z;
    unfold p; lia.
Qed.

Lemma ref_sample_e5_reduced : @ge_reduced RefKernel ref_sample_e5.
Proof.
  repeat split; cbn [geX geY geZ geT ref_sample_e5]; apply ref_reduced_fe_of_Z;
    unfold p; lia.
Qed.

Lemma F_of_5_nz : F_of 5 <> Zmod.zero.
Proof. intros H. apply (f_equal Zmod.unsigned) in H. vm_compute in H. discriminate. Qed.

Lemma ref_sample_X : feval (fe_of_Z 10) = Zmod.mul (F_of 5) (feval (fe_of_Z 2)).
Proof. apply Zmod.unsigned_inj. vm_compute. reflexivity. Qed.

Lemma ref_sample_Y : feval (fe_of_Z 15) = Zmod.mul (F_of 5) (feval (fe_of_Z 3)).
Proof. apply Zmod.unsigned_inj. vm_compute. reflexivity. Qed.

Lemma Equal_rescale_witness :
  @ge_reduced RefKernel ref_sample_e /\ @ge_reduced RefKernel ref_sample_e5 /\
  @ge_reduced RefKernel ref_identity /\ F_of 5 <> Zmod.zero /\
  feval (geX ref_sample_e5) = Zmod.mul (F_of 5) (feval (geX ref_sample_e)) /\
  feval (geY ref_sample_e5) = Zmod.mul (F_of 5) (feval (geY ref_sample_e)) /\
  @Equal RefKernel (mkElement ref_sample_e5) (mkElement ref_identity)
    = @Equal RefKernel (mkElement ref_sample_e) (mkElement ref_identity) /\
  @Equal RefKernel (mkElement ref_identity) (mkElement ref_sample_e5)
    = @Equal RefKernel (mkElement ref_identity) (mkElement ref_sample_e).
Proof.
  split; [exact ref_sample_e_reduced|]. split; [exact ref_sample_e5_reduced|].
  split; [exact ref_identity_reduced|]. split; [exact F_of_5_nz|].
  split; [exact ref_sample_X|]. split; [exact ref_sample_Y|].
  exact (@Equal_rescale RefKernel RefLaws (mkElement ref_sample_e)
           (mkElement ref_sample_e5) (mkElement ref_identity) (F_of 5)
           ref_sample_e_reduced ref_sample_e5_reduced ref_identity_reduced
           F_of_5_nz ref_sample_X ref_sample_Y).
Defined.
